(** * go-phash: a shallow embedding of the perceptual-hash core

    The development follows the Go sources:
    - phash.go: [PHash], [HammingDistance], [gray32x32], [dctTopLeft8x8],
      [medianImageHash], [hashFromCoeffsImageHash];
    - decode.go: [applyEXIFOrientation], [exifOrientationJPEG],
      [parseExifOrientation];
    - rotate.go: the seven orientation transforms and their fast paths;
    - grayscale.go: [Grayscale];
    - the file of [Resize].

    Conventions.  A Go [uint64], [uint32] or [uint8] is a [Z] kept in range by
    an explicit [mod]; a Go [int] is a [Z], wrapped to its width where the
    code computes offsets from untrusted input; a [float64] is a primitive
    binary64 [float]; a [[]byte] is a list of bytes; a nil interface value is
    [None]; a call that may panic or loop returns in [Run]. *)

From Stdlib Require Import ZArith List Lia Bool Floats Uint63.
From Stdlib Require Strings.Byte.
From Stdlib Require Import Sorting.Permutation Sorting.Sorted.
Import ListNotations.
Open Scope Z_scope.

(** ** Unsigned machine words *)

Definition uint64_mod : Z := 2 ^ 64.
Definition uint32_mod : Z := 2 ^ 32.

Definition to_uint64 (z : Z) : Z := z mod uint64_mod.
Definition to_uint32 (z : Z) : Z := z mod uint32_mod.
Definition to_uint8 (z : Z) : Z := z mod 256.

(** ** float64 *)

Definition float64 := float.

(** Go's [x > y] on [float64]: false as soon as one side is a NaN. *)
Definition f64_gt (x y : float64) : bool := PrimFloat.ltb y x.

(** [isNaN] of package [sort]: [x != x]. *)
Definition isNaN (x : float64) : bool := negb (PrimFloat.eqb x x).

(** [sort.Float64Slice.Less]: the order [sort.Float64s] sorts by, NaNs first. *)
Definition Float64Slice_Less (x y : float64) : bool :=
  PrimFloat.ltb x y || (isNaN x && negb (isNaN y)).

(** [sort.Float64s] puts its argument in ascending order of
    [Float64Slice_Less].  The library sorts in place by pattern-defeating
    quicksort; an insertion sort by the same [Less] stands for it. *)
Fixpoint Float64s_insert (x : float64) (l : list float64) : list float64 :=
  match l with
  | [] => [x]
  | y :: l' =>
      if Float64Slice_Less x y then x :: y :: l' else y :: Float64s_insert x l'
  end.

Fixpoint Float64s (l : list float64) : list float64 :=
  match l with
  | [] => []
  | x :: l' => Float64s_insert x (Float64s l')
  end.

(** ** phash.go: the bit extractor *)

(** A [[8][8]float64], read as [c y x] for [y], [x] below 8. *)
Definition Coeffs := nat -> nat -> float64.

(** The slice [v] that [medianImageHash] fills before sorting:
    [for y := 1; y < 8; y++ { for x := 1; x < 8; x++ { v = append(v, c[y][x]) } }]. *)
Definition medianWindow (c : Coeffs) : list float64 :=
  flat_map (fun y => map (fun x => c y x) (seq 1 7)) (seq 1 7).

(** [v[len(v)/2]] after [sort.Float64s(v)].  The index is in range for every
    [c], so the default of [nth] is never returned. *)
Definition medianImageHash (c : Coeffs) : float64 :=
  let v := Float64s (medianWindow c) in
  nth (length v / 2) v PrimFloat.zero.

(** The 64 positions in the order of the two loops, [y] outside and [x] inside. *)
Definition rowMajor8 : list (nat * nat) :=
  flat_map (fun y => map (fun x => (y, x)) (seq 0 8)) (seq 0 8).

(** One turn of the inner loop: [h <<= 1; if c[y][x] > med { h |= 1 }]. *)
Definition hashStep (c : Coeffs) (med : float64) (h : Z) (p : nat * nat) : Z :=
  let h1 := to_uint64 (Z.shiftl h 1) in
  if f64_gt (c (fst p) (snd p)) med then Z.lor h1 1 else h1.

Definition hashFromCoeffsImageHash (c : Coeffs) (med : float64) : Z :=
  fold_left (hashStep c med) rowMajor8 0.

(** ** phash.go: Hamming distance *)

(** How many positions of [l] carry a one bit. *)
Definition countOnes (bit : nat -> bool) (l : list nat) : Z :=
  fold_right (fun i n => (if bit i then 1 else 0) + n) 0 l.

(** [bits.OnesCount64]: the number of one bits among the 64 bits of a [uint64]. *)
Definition OnesCount64 (x : Z) : Z :=
  countOnes (fun i => Z.testbit x (Z.of_nat i)) (seq 0 64).

(** [a ^ b] on [uint64]. *)
Definition HammingDistance (a b : Z) : Z := OnesCount64 (Z.lxor a b).

(** ** The order of [sort.Float64s], for the statements about the median *)

(** A rank for every binary64 value: NaN lowest, then -Inf, the negative
    finite values, the two zeros together, the positive finite values, +Inf;
    finite values of one sign by exponent and then mantissa. *)
Definition f64_rank (x : float64) : Z * Z * Z :=
  match Prim2SF x with
  | S754_nan => (-3, 0, 0)
  | S754_infinity true => (-2, 0, 0)
  | S754_infinity false => (2, 0, 0)
  | S754_zero _ => (0, 0, 0)
  | S754_finite true m e => (-1, - e, - Z.pos m)
  | S754_finite false m e => (1, e, Z.pos m)
  end.

(** The lexicographic order on ranks. *)
Definition rank_lt (k1 k2 : Z * Z * Z) : Prop :=
  let '(a1, b1, c1) := k1 in
  let '(a2, b2, c2) := k2 in
  a1 < a2 \/ (a1 = a2 /\ (b1 < b2 \/ (b1 = b2 /\ c1 < c2))).

(** [x] may stand before [y] in a slice sorted by [sort.Float64s]. *)
Definition f64_noGreater (x y : float64) : Prop := Float64Slice_Less y x = false.

(** The same on ranks. *)
Definition rank_le (k1 k2 : Z * Z * Z) : Prop := ~ rank_lt k2 k1.

(** Ascending in the sense of package [sort]: no element is [Less] than one before it. *)
Definition f64_ascending (l : list float64) : Prop := StronglySorted f64_noGreater l.

(** *** The two readings of the median as the specification words it

    Both take "the element at index [floor(63/2) = 31]" of a sorted slice: the
    first of the window of the code, the second of the 63 coefficients other
    than the DC cell [c[0][0]]. *)
Definition specMedianIndex31 (c : Coeffs) : float64 :=
  nth 31 (Float64s (medianWindow c)) PrimFloat.zero.

Definition nonDCWindow (c : Coeffs) : list float64 :=
  map (fun p => c (fst p) (snd p)) (tl rowMajor8).

Definition specMedianNonDC (c : Coeffs) : float64 :=
  nth (63 / 2) (Float64s (nonDCWindow c)) PrimFloat.zero.

(** The bit that [hashFromCoeffsImageHash] gives position [(y, x)]: row-major,
    most significant bit first. *)
Definition hashBit (h : Z) (y x : nat) : bool :=
  Z.testbit h (63 - Z.of_nat (8 * y + x)).

(** [float64(z)] for an integer [z] between 0 and [2^63]. *)
Definition f64_of_Z (z : Z) : float64 := PrimFloat.of_uint63 (Uint63.of_Z z).

(** Sample coefficient matrices: all 64 cells distinct, and a flat image
    (only the DC cell [c[0][0]] is not zero). *)
Definition coeffsRamp : Coeffs := fun y x => f64_of_Z (Z.of_nat (8 * y + x)).

Definition coeffsFlat : Coeffs :=
  fun y x => match y, x with O, O => f64_of_Z 8160 | _, _ => PrimFloat.zero end.

(** ** Running Go code that may panic *)

(** What a call comes to: it returns, it panics on an index or slice bound, or
    the model ran out of the steps it was given ([Unfinished], which the
    theorems show not to happen). *)
Inductive Run (A : Type) : Type :=
| Done (a : A)
| Panics
| Unfinished.
Arguments Done {A} a.
Arguments Panics {A}.
Arguments Unfinished {A}.

Definition bind {A B : Type} (r : Run A) (k : A -> Run B) : Run B :=
  match r with
  | Done a => k a
  | Panics => Panics
  | Unfinished => Unfinished
  end.

Notation "x <- r ;; k" := (bind r (fun x => k))
  (at level 61, r at next level, right associativity).

(** ** Byte slices *)

Definition bytes := list Byte.byte.

Definition byteZ (b : Byte.byte) : Z := Z.of_N (Byte.to_N b).

(** [len(s)]. *)
Definition len {A : Type} (s : list A) : Z := Z.of_nat (length s).

(** [s[i]]: panics unless [0 <= i < len(s)]. *)
Definition index (s : bytes) (i : Z) : Run Z :=
  if (0 <=? i) && (i <? len s)
  then match nth_error s (Z.to_nat i) with
       | Some b => Done (byteZ b)
       | None => Panics
       end
  else Panics.

(** [s[lo:hi]].  Go panics unless [0 <= lo <= hi <= cap(s)]; a slice is
    modelled by the elements up to its length, and a bound beyond the length
    counts as a fault too, so the model faults whenever the program does. *)
Definition slice {A : Type} (s : list A) (lo hi : Z) : Run (list A) :=
  if (0 <=? lo) && (lo <=? hi) && (hi <=? len s)
  then Done (firstn (Z.to_nat (hi - lo)) (skipn (Z.to_nat lo) s))
  else Panics.

(** [s[lo:]]. *)
Definition sliceFrom {A : Type} (s : list A) (lo : Z) : Run (list A) := slice s lo (len s).

(** ** encoding/binary *)

Inductive ByteOrder : Type := LittleEndian | BigEndian.

(** [order.Uint16(b)]: faults when [b] has fewer than two bytes. *)
Definition Uint16 (order : ByteOrder) (b : bytes) : Run Z :=
  b0 <- index b 0 ;;
  b1 <- index b 1 ;;
  Done (match order with
        | LittleEndian => Z.lor b0 (Z.shiftl b1 8)
        | BigEndian => Z.lor b1 (Z.shiftl b0 8)
        end).

(** [order.Uint32(b)]: faults when [b] has fewer than four bytes. *)
Definition Uint32 (order : ByteOrder) (b : bytes) : Run Z :=
  b0 <- index b 0 ;;
  b1 <- index b 1 ;;
  b2 <- index b 2 ;;
  b3 <- index b 3 ;;
  Done (match order with
        | LittleEndian =>
            Z.lor (Z.lor (Z.lor b0 (Z.shiftl b1 8)) (Z.shiftl b2 16)) (Z.shiftl b3 24)
        | BigEndian =>
            Z.lor (Z.lor (Z.lor b3 (Z.shiftl b2 8)) (Z.shiftl b1 16)) (Z.shiftl b0 24)
        end).

(** [bytes.HasPrefix(s, prefix)]. *)
Definition HasPrefix (s prefix : bytes) : bool :=
  (length prefix <=? length s)%nat &&
  if list_eq_dec Byte.byte_eq_dec (firstn (length prefix) s) prefix then true else false.

(** ** decode.go: the orientation detector *)

(** [[]byte("Exif\x00\x00")]. *)
Definition exifHeader : bytes :=
  [Byte.x45; Byte.x78; Byte.x69; Byte.x66; Byte.x00; Byte.x00].

Section IntWidth.

(** The width of Go's [int]: 64 on amd64 and arm64, 32 on 386 and arm. *)
Variable W : Z.

(** A mathematical integer as the [int] it wraps to. *)
Definition int_wrap (z : Z) : Z := (z + 2 ^ (W - 1)) mod 2 ^ W - 2 ^ (W - 1).

Definition int_add (a b : Z) : Z := int_wrap (a + b).
Definition int_mul (a b : Z) : Z := int_wrap (a * b).

(** The body of [for n := 0; n < entryCount; n++] in [parseExifOrientation],
    with [todo] turns left to run. *)
Fixpoint scanEntries (order : ByteOrder) (tiff : bytes) (entriesBase : Z)
         (todo : nat) (n : Z) : Run (option Z) :=
  match todo with
  | O => Done None
  | S todo' =>
      let entryOffset := int_add entriesBase (int_mul n 12) in
      if int_add entryOffset 12 >? len tiff then Done None
      else
        s <- slice tiff entryOffset (int_add entryOffset 2) ;;
        tag <- Uint16 order s ;;
        if negb (tag =? 0x0112) then scanEntries order tiff entriesBase todo' (int_add n 1)
        else
          s <- slice tiff (int_add entryOffset 2) (int_add entryOffset 4) ;;
          typ <- Uint16 order s ;;
          s <- slice tiff (int_add entryOffset 4) (int_add entryOffset 8) ;;
          count <- Uint32 order s ;;
          if negb (typ =? 3) || negb (count =? 1) then Done None
          else
            s <- slice tiff (int_add entryOffset 8) (int_add entryOffset 10) ;;
            value <- Uint16 order s ;;
            if (1 <=? value) && (value <=? 8) then Done (Some value) else Done None
  end.

(** [parseExifOrientation]: [Some v] for [(v, true)], [None] for [(0, false)]. *)
Definition parseExifOrientation (tiff : bytes) : Run (option Z) :=
  if len tiff <? 8 then Done None
  else
    t0 <- index tiff 0 ;;
    t1 <- index tiff 1 ;;
    let order :=
      if (t0 =? 0x49) && (t1 =? 0x49) then Some LittleEndian
      else if (t0 =? 0x4D) && (t1 =? 0x4D) then Some BigEndian
      else None in
    match order with
    | None => Done None
    | Some order =>
        s <- slice tiff 2 4 ;;
        magic <- Uint16 order s ;;
        if negb (magic =? 0x002A) then Done None
        else
          s <- slice tiff 4 8 ;;
          off <- Uint32 order s ;;
          let ifdOffset := int_wrap off in
          if (ifdOffset <? 0) || (int_add ifdOffset 2 >? len tiff) then Done None
          else
            s <- slice tiff ifdOffset (int_add ifdOffset 2) ;;
            cnt <- Uint16 order s ;;
            let entryCount := int_wrap cnt in
            if (entryCount <? 0) || (entryCount >? 256) then Done None
            else
              let entriesBase := int_add ifdOffset 2 in
              scanEntries order tiff entriesBase (Z.to_nat entryCount) 0
    end.

(** The marker loop of [exifOrientationJPEG], [for i := 2; i+4 <= len(data); ],
    with [fuel] turns allowed.  Leaving the loop by [break] or by its
    condition reaches the final [return 0, false]. *)
Fixpoint scanMarkers (fuel : nat) (data : bytes) (i : Z) : Run (option Z) :=
  match fuel with
  | O => Unfinished
  | S fuel' =>
      if negb (int_add i 4 <=? len data) then Done None
      else
        b <- index data i ;;
        if negb (b =? 0xFF) then scanMarkers fuel' data (int_add i 1)
        else if int_add i 1 >=? len data then Done None
        else
          marker <- index data (int_add i 1) ;;
          let i := int_add i 2 in
          if (marker =? 0xD9) || (marker =? 0xDA) then Done None
          else if (marker =? 0x01) || ((0xD0 <=? marker) && (marker <=? 0xD7))
          then scanMarkers fuel' data i
          else if int_add i 2 >? len data then Done None
          else
            s <- slice data i (int_add i 2) ;;
            l <- Uint16 BigEndian s ;;
            let segLen := int_wrap l in
            if segLen <? 2 then Done None
            else
              let segEnd := int_add i segLen in
              if segEnd >? len data then Done None
              else if (marker =? 0xE1) && (segLen >=? 8)
              then
                segment <- slice data (int_add i 2) segEnd ;;
                if (len segment >=? 6) && HasPrefix segment exifHeader
                then
                  tiff <- sliceFrom segment 6 ;;
                  r <- parseExifOrientation tiff ;;
                  match r with
                  | Some orientation => Done (Some orientation)
                  | None => scanMarkers fuel' data segEnd
                  end
                else scanMarkers fuel' data segEnd
              else scanMarkers fuel' data segEnd
  end.

(** [exifOrientationJPEG].  Every turn of the loop moves [i] forward, so
    [len(data)] turns are enough. *)
Definition exifOrientationJPEG (data : bytes) : Run (option Z) :=
  if len data <? 4 then Done None
  else
    d0 <- index data 0 ;;
    d1 <- index data 1 ;;
    if negb (d0 =? 0xFF) || negb (d1 =? 0xD8) then Done None
    else scanMarkers (length data) data 2.

End IntWidth.

(** Building byte slices from numerals. *)
Definition byteOfZ (z : Z) : Byte.byte :=
  match Byte.of_N (Z.to_N z) with
  | Some b => b
  | None => Byte.x00
  end.

Definition bytesOf (l : list Z) : bytes := map byteOfZ l.

(** A smallest JPEG carrying an EXIF orientation: SOI, an APP1 segment of
    length 34 with the "Exif\0\0" signature, a little-endian TIFF header whose
    IFD at offset 8 has one entry, tag 0x0112 of type SHORT and count 1 with
    the given value, then four bytes of padding. *)
Definition jpegWithOrientation (v : Z) : bytes :=
  bytesOf [0xFF; 0xD8; 0xFF; 0xE1; 0x00; 0x22;
           0x45; 0x78; 0x69; 0x66; 0x00; 0x00;
           0x49; 0x49; 0x2A; 0x00; 0x08; 0x00; 0x00; 0x00;
           0x01; 0x00;
           0x12; 0x01; 0x03; 0x00; 0x01; 0x00; 0x00; 0x00; v; 0x00; 0x00; 0x00;
           0x00; 0x00; 0x00; 0x00;
           0xFF; 0xD9; 0x00; 0x00].

(** A TIFF header whose IFD offset is [0x7FFFFFFE]. *)
Definition tiffHugeOffset : bytes :=
  bytesOf [0x49; 0x49; 0x2A; 0x00; 0xFE; 0xFF; 0xFF; 0x7F].

(** *** Reading a buffer at an offset, for the statements about the detector *)

(** The byte at offset [i], 0 beyond the end. *)
Definition byteAt (s : bytes) (i : Z) : Z := byteZ (nth (Z.to_nat i) s Byte.x00).

(** The unsigned 16-bit and 32-bit numbers stored at offset [i] in byte order [o]. *)
Definition rd16 (o : ByteOrder) (s : bytes) (i : Z) : Z :=
  match o with
  | LittleEndian => byteAt s i + 256 * byteAt s (i + 1)
  | BigEndian => 256 * byteAt s i + byteAt s (i + 1)
  end.

Definition rd32 (o : ByteOrder) (s : bytes) (i : Z) : Z :=
  match o with
  | LittleEndian => rd16 o s i + 65536 * rd16 o s (i + 2)
  | BigEndian => 65536 * rd16 o s i + rd16 o s (i + 2)
  end.

(** The byte-order mark of a TIFF header: "II" or "MM". *)
Definition tiffOrder (tiff : bytes) : option ByteOrder :=
  if (byteAt tiff 0 =? 0x49) && (byteAt tiff 1 =? 0x49) then Some LittleEndian
  else if (byteAt tiff 0 =? 0x4D) && (byteAt tiff 1 =? 0x4D) then Some BigEndian
  else None.

(** Entry [k] of the IFD whose entries start at [base] is the first one at or
    after entry [n] with the orientation tag, lies whole inside the buffer, and
    holds the well-formed value [v]. *)
Definition entryFound (o : ByteOrder) (tiff : bytes) (base n k v : Z) : Prop :=
  let e := base + 12 * k in
  e + 12 <= len tiff /\
  (forall m, n <= m < k -> rd16 o tiff (base + 12 * m) <> 0x0112) /\
  rd16 o tiff e = 0x0112 /\
  rd16 o tiff (e + 2) = 3 /\
  rd32 o tiff (e + 4) = 1 /\
  rd16 o tiff (e + 8) = v /\
  1 <= v <= 8.

(** [tiff] holds a well-formed orientation [v]: at least 8 bytes, a byte-order
    mark, the magic number 42, an IFD that starts inside the buffer and
    announces at most 256 entries, and among them an entry found as above. *)
Definition tiffOrientation (tiff : bytes) (v : Z) : Prop :=
  8 <= len tiff /\
  exists o,
    tiffOrder tiff = Some o /\
    rd16 o tiff 2 = 42 /\
    let off := rd32 o tiff 4 in
    off + 2 <= len tiff /\
    rd16 o tiff off <= 256 /\
    exists k, 0 <= k < rd16 o tiff off /\ entryFound o tiff (off + 2) 0 k v.

(** The part of [data] from [lo] up to [hi]. *)
Definition subslice {A : Type} (data : list A) (lo hi : Z) : list A :=
  firstn (Z.to_nat (hi - lo)) (skipn (Z.to_nat lo) data).


(** At offset [p] of [data] stands an APP1 marker whose segment fits in the
    buffer, starts with the Exif signature, and carries a TIFF structure that
    holds the well-formed orientation [v]. *)
Definition exifSegmentAt (data : bytes) (p v : Z) : Prop :=
  2 <= p /\
  byteAt data p = 0xFF /\
  byteAt data (p + 1) = 0xE1 /\
  let segLen := rd16 BigEndian data (p + 2) in
  8 <= segLen /\
  p + 2 + segLen <= len data /\
  subslice data (p + 4) (p + 10) = exifHeader /\
  tiffOrientation (subslice data (p + 10) (p + 2 + segLen)) v.

(** A JPEG whose APP1 segment carries [tiffHugeOffset]. *)
Definition jpegHugeOffset : bytes :=
  bytesOf [0xFF; 0xD8; 0xFF; 0xE1; 0x00; 0x10;
           0x45; 0x78; 0x69; 0x66; 0x00; 0x00] ++ tiffHugeOffset.

(** ** Loops *)

(** [for i := start; i < start + n; i++ { body }], the state threaded through. *)
Fixpoint forRange {S : Type} (n : nat) (i : Z) (body : Z -> S -> Run S) (s : S) : Run S :=
  match n with
  | O => Done s
  | S n' => s' <- body i s ;; forRange n' (i + 1) body s'
  end.

(** ** package image: rectangles, colours, pixel buffers *)

Record Rectangle : Type := mkRectangle { MinX : Z; MinY : Z; MaxX : Z; MaxY : Z }.

(** [image.Rect(x0, y0, x1, y1)]: the corners put in order. *)
Definition image_Rect (x0 y0 x1 y1 : Z) : Rectangle :=
  mkRectangle (Z.min x0 x1) (Z.min y0 y1) (Z.max x0 x1) (Z.max y0 y1).

Definition Dx (r : Rectangle) : Z := MaxX r - MinX r.
Definition Dy (r : Rectangle) : Z := MaxY r - MinY r.

(** [image.Point{x, y}.In(r)]. *)
Definition PointIn (x y : Z) (r : Rectangle) : bool :=
  (MinX r <=? x) && (x <? MaxX r) && (MinY r <=? y) && (y <? MaxY r).

(** A [color.Color]: the two concrete types the transforms convert between,
    and any other colour through the four 16-bit alpha-premultiplied values of
    its [RGBA()] method. *)
Inductive Color : Type :=
| ColorRGBA (R G B A : Z)
| ColorNRGBA (R G B A : Z)
| ColorOther (r g b a : Z).

(** [r = uint32(c.R); r |= r << 8] of [color.RGBA.RGBA]. *)
Definition spread8 (v : Z) : Z := Z.lor v (Z.shiftl v 8).

(** [r = uint32(c.R); r |= r << 8; r *= uint32(c.A); r /= 0xff] of [color.NRGBA.RGBA]. *)
Definition premul8 (v a : Z) : Z := to_uint32 (spread8 v * a) / 0xff.

(** The method [RGBA()]. *)
Definition Color_RGBA (c : Color) : Z * Z * Z * Z :=
  match c with
  | ColorRGBA R G B A => (spread8 R, spread8 G, spread8 B, spread8 A)
  | ColorNRGBA R G B A => (premul8 R A, premul8 G A, premul8 B A, spread8 A)
  | ColorOther r g b a => (r, g, b, a)
  end.

(** [color.RGBAModel.Convert(c).(color.RGBA)], as the four bytes R, G, B, A:
    a [color.RGBA] is returned as it is, any other colour is cut down to the
    high bytes of its [RGBA()] values. *)
Definition rgbaModel (c : Color) : list Z :=
  match c with
  | ColorRGBA R G B A => [R; G; B; A]
  | _ =>
      let '(r, g, b, a) := Color_RGBA c in
      [to_uint8 (Z.shiftr r 8); to_uint8 (Z.shiftr g 8);
       to_uint8 (Z.shiftr b 8); to_uint8 (Z.shiftr a 8)]
  end.

(** The layout shared by [image.RGBA], [image.NRGBA] and [image.Gray]. *)
Record PixImage : Type := mkPixImage { Pix : list Z; Stride : Z; Rect : Rectangle }.

(** An [image.Image]: the two types with a fast path in rotate.go, the type
    [Grayscale] returns, and any other image through its bounds and [At]. *)
Inductive Image : Type :=
| RGBAImage (p : PixImage)
| NRGBAImage (p : PixImage)
| GrayImage (p : PixImage)
| OtherImage (bounds : Rectangle) (at_ : Z -> Z -> Color).

Definition Bounds (img : Image) : Rectangle :=
  match img with
  | RGBAImage p | NRGBAImage p | GrayImage p => Rect p
  | OtherImage b _ => b
  end.

(** [p.PixOffset(x, y)] of [image.RGBA] and [image.NRGBA]. *)
Definition PixOffset (p : PixImage) (x y : Z) : Z :=
  (y - MinY (Rect p)) * Stride p + (x - MinX (Rect p)) * 4.

(** [p.PixOffset(x, y)] of [image.Gray]. *)
Definition GrayPixOffset (p : PixImage) (x y : Z) : Z :=
  (y - MinY (Rect p)) * Stride p + (x - MinX (Rect p)) * 1.

(** [image.NewRGBA(r)]. *)
Definition NewRGBA (r : Rectangle) : PixImage :=
  mkPixImage (repeat 0 (Z.to_nat (4 * Dx r * Dy r))) (4 * Dx r) r.

(** [pix[i]]. *)
Definition load (pix : list Z) (i : Z) : Run Z :=
  if (0 <=? i) && (i <? len pix)
  then Done (nth (Z.to_nat i) pix 0)
  else Panics.

(** [v] laid over [pix] from offset [o] on. *)
Definition spliceAt (pix : list Z) (o : Z) (v : list Z) : list Z :=
  firstn (Z.to_nat o) pix ++ v ++ skipn (Z.to_nat o + length v) pix.

(** [pix[i] = v]. *)
Definition store (pix : list Z) (i v : Z) : Run (list Z) :=
  if (0 <=? i) && (i <? len pix) then Done (spliceAt pix i [v]) else Panics.

(** [copy(dst[do:do+4], src[so:so+4])]. *)
Definition copy4 (dst : list Z) (do_ : Z) (src : list Z) (so : Z) : Run (list Z) :=
  _ <- slice dst do_ (do_ + 4) ;;
  s <- slice src so (so + 4) ;;
  Done (spliceAt dst do_ s).

(** The pixel of an [image.RGBA] or [image.NRGBA] at [(x, y)]: the zero colour
    outside the bounds, else the four bytes [p.Pix[i : i+4 : i+4]]. *)
Definition pixelAt (p : PixImage) (x y : Z) : Run (list Z) :=
  if negb (PointIn x y (Rect p)) then Done [0; 0; 0; 0]
  else let i := PixOffset p x y in slice (Pix p) i (i + 4).

Definition colorOf (mk : Z -> Z -> Z -> Z -> Color) (s : list Z) : Color :=
  mk (nth 0 s 0) (nth 1 s 0) (nth 2 s 0) (nth 3 s 0).

(** [color.Gray{Y}] through its [RGBA()]. *)
Definition ColorGray (Y : Z) : Color := ColorOther (spread8 Y) (spread8 Y) (spread8 Y) 0xffff.

(** [img.At(x, y)]. *)
Definition At (img : Image) (x y : Z) : Run Color :=
  match img with
  | RGBAImage p => s <- pixelAt p x y ;; Done (colorOf ColorRGBA s)
  | NRGBAImage p => s <- pixelAt p x y ;; Done (colorOf ColorNRGBA s)
  | GrayImage p =>
      if negb (PointIn x y (Rect p)) then Done (ColorGray 0)
      else Y <- load (Pix p) (GrayPixOffset p x y) ;; Done (ColorGray Y)
  | OtherImage _ at_ => Done (at_ x y)
  end.

(** [dst.Set(x, y, c)] of [image.RGBA], as the new [dst.Pix]. *)
Definition RGBA_Set (dst : PixImage) (pix : list Z) (x y : Z) (c : Color) : Run (list Z) :=
  if negb (PointIn x y (Rect dst)) then Done pix
  else
    let i := PixOffset dst x y in
    _ <- slice pix i (i + 4) ;;
    Done (spliceAt pix i (rgbaModel c)).

(** The three lines every NRGBA fast path ends with:
    [c := color.NRGBA{R: src.Pix[so], G: src.Pix[so+1], B: src.Pix[so+2], A: src.Pix[so+3]}],
    [r := color.RGBAModel.Convert(c).(color.RGBA)],
    [dst.Pix[do], dst.Pix[do+1], dst.Pix[do+2], dst.Pix[do+3] = r.R, r.G, r.B, r.A]. *)
Definition convertNRGBA (pix : list Z) (do_ : Z) (src : list Z) (so : Z) : Run (list Z) :=
  R <- load src so ;;
  G <- load src (so + 1) ;;
  B <- load src (so + 2) ;;
  A <- load src (so + 3) ;;
  let r := rgbaModel (ColorNRGBA R G B A) in
  pix <- store pix do_ (nth 0 r 0) ;;
  pix <- store pix (do_ + 1) (nth 1 r 0) ;;
  pix <- store pix (do_ + 2) (nth 2 r 0) ;;
  store pix (do_ + 3) (nth 3 r 0).

Definition withPix (p : PixImage) (pix : list Z) : PixImage :=
  mkPixImage pix (Stride p) (Rect p).

(** ** rotate.go: the fast paths

    Each takes the destination, the source and the source bounds, as in the
    source, and gives the new contents of [dst.Pix]. *)

Definition flipHorizontalRGBA (dst src : PixImage) (b : Rectangle) : Run (list Z) :=
  let w := Dx b in
  let h := Dy b in
  forRange (Z.to_nat h) 0 (fun y pix =>
    let sy := MinY b + y in
    let sOff := PixOffset src (MinX b) sy in
    forRange (Z.to_nat w) 0 (fun x pix =>
      let so := sOff + (w - 1 - x) * 4 in
      let do_ := PixOffset dst x y in
      copy4 pix do_ (Pix src) so) pix) (Pix dst).

Definition flipHorizontalNRGBA (dst src : PixImage) (b : Rectangle) : Run (list Z) :=
  let w := Dx b in
  let h := Dy b in
  forRange (Z.to_nat h) 0 (fun y pix =>
    let sy := MinY b + y in
    let sOff := PixOffset src (MinX b) sy in
    forRange (Z.to_nat w) 0 (fun x pix =>
      let so := sOff + (w - 1 - x) * 4 in
      let do_ := PixOffset dst x y in
      convertNRGBA pix do_ (Pix src) so) pix) (Pix dst).

Definition flipVerticalRGBA (dst src : PixImage) (b : Rectangle) : Run (list Z) :=
  let w := Dx b in
  let h := Dy b in
  forRange (Z.to_nat h) 0 (fun y pix =>
    let sy := MinY b + (h - 1 - y) in
    let sOff := PixOffset src (MinX b) sy in
    forRange (Z.to_nat w) 0 (fun x pix =>
      let so := sOff + x * 4 in
      let do_ := PixOffset dst x y in
      copy4 pix do_ (Pix src) so) pix) (Pix dst).

Definition flipVerticalNRGBA (dst src : PixImage) (b : Rectangle) : Run (list Z) :=
  let w := Dx b in
  let h := Dy b in
  forRange (Z.to_nat h) 0 (fun y pix =>
    let sy := MinY b + (h - 1 - y) in
    let sOff := PixOffset src (MinX b) sy in
    forRange (Z.to_nat w) 0 (fun x pix =>
      let so := sOff + x * 4 in
      let do_ := PixOffset dst x y in
      convertNRGBA pix do_ (Pix src) so) pix) (Pix dst).

Definition rotate180RGBA (dst src : PixImage) (b : Rectangle) : Run (list Z) :=
  let w := Dx b in
  let h := Dy b in
  forRange (Z.to_nat h) 0 (fun y pix =>
    let sy := MinY b + (h - 1 - y) in
    let sOff := PixOffset src (MinX b) sy in
    forRange (Z.to_nat w) 0 (fun x pix =>
      let so := sOff + (w - 1 - x) * 4 in
      let do_ := PixOffset dst x y in
      copy4 pix do_ (Pix src) so) pix) (Pix dst).

Definition rotate180NRGBA (dst src : PixImage) (b : Rectangle) : Run (list Z) :=
  let w := Dx b in
  let h := Dy b in
  forRange (Z.to_nat h) 0 (fun y pix =>
    let sy := MinY b + (h - 1 - y) in
    let sOff := PixOffset src (MinX b) sy in
    forRange (Z.to_nat w) 0 (fun x pix =>
      let so := sOff + (w - 1 - x) * 4 in
      let do_ := PixOffset dst x y in
      convertNRGBA pix do_ (Pix src) so) pix) (Pix dst).

Definition rotate90RGBA (dst src : PixImage) (b : Rectangle) : Run (list Z) :=
  let w := Dx b in
  let h := Dy b in
  forRange (Z.to_nat h) 0 (fun y pix =>
    let sy := MinY b + y in
    let sOff := PixOffset src (MinX b) sy in
    forRange (Z.to_nat w) 0 (fun x pix =>
      let so := sOff + x * 4 in
      let do_ := PixOffset dst (h - 1 - y) x in
      copy4 pix do_ (Pix src) so) pix) (Pix dst).

Definition rotate90NRGBA (dst src : PixImage) (b : Rectangle) : Run (list Z) :=
  let w := Dx b in
  let h := Dy b in
  forRange (Z.to_nat h) 0 (fun y pix =>
    let sy := MinY b + y in
    let sOff := PixOffset src (MinX b) sy in
    forRange (Z.to_nat w) 0 (fun x pix =>
      let so := sOff + x * 4 in
      let do_ := PixOffset dst (h - 1 - y) x in
      convertNRGBA pix do_ (Pix src) so) pix) (Pix dst).

Definition rotate270RGBA (dst src : PixImage) (b : Rectangle) : Run (list Z) :=
  let w := Dx b in
  let h := Dy b in
  forRange (Z.to_nat h) 0 (fun y pix =>
    let sy := MinY b + y in
    let sOff := PixOffset src (MinX b) sy in
    forRange (Z.to_nat w) 0 (fun x pix =>
      let so := sOff + x * 4 in
      let do_ := PixOffset dst y (w - 1 - x) in
      copy4 pix do_ (Pix src) so) pix) (Pix dst).

Definition rotate270NRGBA (dst src : PixImage) (b : Rectangle) : Run (list Z) :=
  let w := Dx b in
  let h := Dy b in
  forRange (Z.to_nat h) 0 (fun y pix =>
    let sy := MinY b + y in
    let sOff := PixOffset src (MinX b) sy in
    forRange (Z.to_nat w) 0 (fun x pix =>
      let so := sOff + x * 4 in
      let do_ := PixOffset dst y (w - 1 - x) in
      convertNRGBA pix do_ (Pix src) so) pix) (Pix dst).

(** ** rotate.go: the orientation transforms

    Each returns a fresh [*image.RGBA]; [dst.Set(.., img.At(..))] is the
    generic path. *)

Definition flipHorizontal (img : Image) : Run PixImage :=
  let b := Bounds img in
  let w := Dx b in
  let h := Dy b in
  let dst := NewRGBA (image_Rect 0 0 w h) in
  match img with
  | RGBAImage src => pix <- flipHorizontalRGBA dst src b ;; Done (withPix dst pix)
  | NRGBAImage src => pix <- flipHorizontalNRGBA dst src b ;; Done (withPix dst pix)
  | _ =>
      pix <- forRange (Z.to_nat h) 0 (fun y pix =>
        let sy := MinY b + y in
        forRange (Z.to_nat w) 0 (fun x pix =>
          let sx := MinX b + (w - 1 - x) in
          c <- At img sx sy ;;
          RGBA_Set dst pix x y c) pix) (Pix dst) ;;
      Done (withPix dst pix)
  end.

Definition flipVertical (img : Image) : Run PixImage :=
  let b := Bounds img in
  let w := Dx b in
  let h := Dy b in
  let dst := NewRGBA (image_Rect 0 0 w h) in
  match img with
  | RGBAImage src => pix <- flipVerticalRGBA dst src b ;; Done (withPix dst pix)
  | NRGBAImage src => pix <- flipVerticalNRGBA dst src b ;; Done (withPix dst pix)
  | _ =>
      pix <- forRange (Z.to_nat h) 0 (fun y pix =>
        let sy := MinY b + (h - 1 - y) in
        forRange (Z.to_nat w) 0 (fun x pix =>
          let sx := MinX b + x in
          c <- At img sx sy ;;
          RGBA_Set dst pix x y c) pix) (Pix dst) ;;
      Done (withPix dst pix)
  end.

Definition rotate180 (img : Image) : Run PixImage :=
  let b := Bounds img in
  let w := Dx b in
  let h := Dy b in
  let dst := NewRGBA (image_Rect 0 0 w h) in
  match img with
  | RGBAImage src => pix <- rotate180RGBA dst src b ;; Done (withPix dst pix)
  | NRGBAImage src => pix <- rotate180NRGBA dst src b ;; Done (withPix dst pix)
  | _ =>
      pix <- forRange (Z.to_nat h) 0 (fun y pix =>
        let sy := MinY b + (h - 1 - y) in
        forRange (Z.to_nat w) 0 (fun x pix =>
          let sx := MinX b + (w - 1 - x) in
          c <- At img sx sy ;;
          RGBA_Set dst pix x y c) pix) (Pix dst) ;;
      Done (withPix dst pix)
  end.

Definition rotate90 (img : Image) : Run PixImage :=
  let b := Bounds img in
  let w := Dx b in
  let h := Dy b in
  let dst := NewRGBA (image_Rect 0 0 h w) in
  match img with
  | RGBAImage src => pix <- rotate90RGBA dst src b ;; Done (withPix dst pix)
  | NRGBAImage src => pix <- rotate90NRGBA dst src b ;; Done (withPix dst pix)
  | _ =>
      pix <- forRange (Z.to_nat h) 0 (fun y pix =>
        let sy := MinY b + y in
        forRange (Z.to_nat w) 0 (fun x pix =>
          let sx := MinX b + x in
          c <- At img sx sy ;;
          RGBA_Set dst pix (h - 1 - y) x c) pix) (Pix dst) ;;
      Done (withPix dst pix)
  end.

Definition rotate270 (img : Image) : Run PixImage :=
  let b := Bounds img in
  let w := Dx b in
  let h := Dy b in
  let dst := NewRGBA (image_Rect 0 0 h w) in
  match img with
  | RGBAImage src => pix <- rotate270RGBA dst src b ;; Done (withPix dst pix)
  | NRGBAImage src => pix <- rotate270NRGBA dst src b ;; Done (withPix dst pix)
  | _ =>
      pix <- forRange (Z.to_nat h) 0 (fun y pix =>
        let sy := MinY b + y in
        forRange (Z.to_nat w) 0 (fun x pix =>
          let sx := MinX b + x in
          c <- At img sx sy ;;
          RGBA_Set dst pix y (w - 1 - x) c) pix) (Pix dst) ;;
      Done (withPix dst pix)
  end.

Definition transpose (img : Image) : Run PixImage :=
  let b := Bounds img in
  let w := Dx b in
  let h := Dy b in
  let dst := NewRGBA (image_Rect 0 0 h w) in
  match img with
  | _ =>
      pix <- forRange (Z.to_nat h) 0 (fun y pix =>
        let sy := MinY b + y in
        forRange (Z.to_nat w) 0 (fun x pix =>
          let sx := MinX b + x in
          c <- At img sx sy ;;
          RGBA_Set dst pix y x c) pix) (Pix dst) ;;
      Done (withPix dst pix)
  end.

Definition transverse (img : Image) : Run PixImage :=
  let b := Bounds img in
  let w := Dx b in
  let h := Dy b in
  let dst := NewRGBA (image_Rect 0 0 h w) in
  match img with
  | _ =>
      pix <- forRange (Z.to_nat h) 0 (fun y pix =>
        let sy := MinY b + y in
        forRange (Z.to_nat w) 0 (fun x pix =>
          let sx := MinX b + x in
          c <- At img sx sy ;;
          RGBA_Set dst pix (h - 1 - y) (w - 1 - x) c) pix) (Pix dst) ;;
      Done (withPix dst pix)
  end.

(** ** decode.go: the orientation corrector *)

(** The [switch orientation] of [applyEXIFOrientation]; [None] stands for
    returning [img] itself. *)
Definition orientationTransform (orientation : Z) : option (Image -> Run PixImage) :=
  if orientation =? 2 then Some flipHorizontal
  else if orientation =? 3 then Some rotate180
  else if orientation =? 4 then Some flipVertical
  else if orientation =? 5 then Some transpose
  else if orientation =? 6 then Some rotate90
  else if orientation =? 7 then Some transverse
  else if orientation =? 8 then Some rotate270
  else None.

(** The corrector for a detected [orientation]: the image as it is for code 1
    and for any code outside 2..8. *)
Definition correctOrientation (img : Image) (orientation : Z) : Run Image :=
  if orientation =? 1 then Done img
  else match orientationTransform orientation with
       | Some f => p <- f img ;; Done (RGBAImage p)
       | None => Done img
       end.

Section ApplyOrientation.
Variable W : Z.

(** [applyEXIFOrientation(img, payload)]. *)
Definition applyEXIFOrientation (img : Image) (payload : bytes) : Run Image :=
  r <- exifOrientationJPEG W payload ;;
  match r with
  | None => Done img
  | Some orientation => correctOrientation img orientation
  end.
End ApplyOrientation.

(** ** Well-formed images and the pixel-level reading of the transforms *)

Definition wfRect (r : Rectangle) : Prop := MinX r <= MaxX r /\ MinY r <= MaxY r.

(** A pixel buffer with [bpp] bytes per pixel, as [image.NewRGBA] and
    [SubImage] make them: rows of [Stride] bytes, and the last pixel of the
    last row inside [Pix]. *)
Definition wfPix (bpp : Z) (p : PixImage) : Prop :=
  wfRect (Rect p) /\
  (0 < Dx (Rect p) -> 0 < Dy (Rect p) ->
   bpp * Dx (Rect p) <= Stride p /\
   (Dy (Rect p) - 1) * Stride p + bpp * Dx (Rect p) <= len (Pix p)).

Definition wfImage (img : Image) : Prop :=
  match img with
  | RGBAImage p | NRGBAImage p => wfPix 4 p
  | GrayImage p => wfPix 1 p
  | OtherImage b _ => wfRect b
  end.

(** The four bytes of the pixel [(x, y)] of an RGBA or NRGBA buffer. *)
Definition pixelBytes (p : PixImage) (x y : Z) : list Z :=
  subslice (Pix p) (PixOffset p x y) (PixOffset p x y + 4).

(** The colour of [img] at a point of its bounds. *)
Definition colorAt (img : Image) (x y : Z) : Color :=
  match img with
  | RGBAImage p => colorOf ColorRGBA (pixelBytes p x y)
  | NRGBAImage p => colorOf ColorNRGBA (pixelBytes p x y)
  | GrayImage p => ColorGray (nth (Z.to_nat (GrayPixOffset p x y)) (Pix p) 0)
  | OtherImage _ at_ => at_ x y
  end.

(** An image [image.NewRGBA] could have made: origin (0,0), packed rows. *)
Definition canonicalRGBA (p : PixImage) (w h : Z) : Prop :=
  Rect p = mkRectangle 0 0 w h /\ Stride p = 4 * w /\ len (Pix p) = 4 * w * h.

(** How a transform moves pixels: for the loop variables [x < w] and [y < h] of
    a source of width [w] and height [h], the destination point written and
    the source point read (relative to the source origin), and whether the
    destination has width and height swapped. *)
Record Geometry : Type := mkGeometry {
  swaps : bool;
  dstOf : Z -> Z -> Z -> Z -> Z * Z;
  srcOf : Z -> Z -> Z -> Z -> Z * Z
}.

Definition flipHorizontalGeom : Geometry :=
  mkGeometry false (fun w h x y => (x, y)) (fun w h x y => (w - 1 - x, y)).
Definition flipVerticalGeom : Geometry :=
  mkGeometry false (fun w h x y => (x, y)) (fun w h x y => (x, h - 1 - y)).
Definition rotate180Geom : Geometry :=
  mkGeometry false (fun w h x y => (x, y)) (fun w h x y => (w - 1 - x, h - 1 - y)).
Definition rotate90Geom : Geometry :=
  mkGeometry true (fun w h x y => (h - 1 - y, x)) (fun w h x y => (x, y)).
Definition rotate270Geom : Geometry :=
  mkGeometry true (fun w h x y => (y, w - 1 - x)) (fun w h x y => (x, y)).
Definition transposeGeom : Geometry :=
  mkGeometry true (fun w h x y => (y, x)) (fun w h x y => (x, y)).
Definition transverseGeom : Geometry :=
  mkGeometry true (fun w h x y => (h - 1 - y, w - 1 - x)) (fun w h x y => (x, y)).

(** Width and height of the destination. *)
Definition dstW (g : Geometry) (w h : Z) : Z := if swaps g then h else w.
Definition dstH (g : Geometry) (w h : Z) : Z := if swaps g then w else h.

(** The loops of rotate.go all have one of two shapes. *)
Definition fastLoop (op : list Z -> Z -> list Z -> Z -> Run (list Z)) (g : Geometry)
           (dst src : PixImage) (b : Rectangle) : Run (list Z) :=
  let w := Dx b in
  let h := Dy b in
  forRange (Z.to_nat h) 0 (fun y pix =>
    forRange (Z.to_nat w) 0 (fun x pix =>
      op pix
         (PixOffset dst (fst (dstOf g w h x y)) (snd (dstOf g w h x y)))
         (Pix src)
         (PixOffset src (MinX b) (MinY b + snd (srcOf g w h x y))
          + fst (srcOf g w h x y) * 4)) pix) (Pix dst).

Definition genericLoop (g : Geometry) (dst : PixImage) (img : Image) (b : Rectangle)
  : Run (list Z) :=
  let w := Dx b in
  let h := Dy b in
  forRange (Z.to_nat h) 0 (fun y pix =>
    forRange (Z.to_nat w) 0 (fun x pix =>
      c <- At img (MinX b + fst (srcOf g w h x y)) (MinY b + snd (srcOf g w h x y)) ;;
      RGBA_Set dst pix (fst (dstOf g w h x y)) (snd (dstOf g w h x y)) c) pix) (Pix dst).

(** A transform of geometry [g], with or without the two fast paths. *)
Definition remap (fast : bool) (g : Geometry) (img : Image) : Run PixImage :=
  let b := Bounds img in
  let w := Dx b in
  let h := Dy b in
  let dst := NewRGBA (image_Rect 0 0 (dstW g w h) (dstH g w h)) in
  pix <- match fast, img with
         | true, RGBAImage src => fastLoop copy4 g dst src b
         | true, NRGBAImage src => fastLoop convertNRGBA g dst src b
         | _, _ => genericLoop g dst img b
         end ;;
  Done (withPix dst pix).

(** What a transform of geometry [g] is to do with a well-formed image: return
    a canonical RGBA image of the destination size whose pixel at each
    destination point is the RGBA conversion of the source pixel read for it. *)
Definition transformsAs (g : Geometry) (f : Image -> Run PixImage) : Prop :=
  forall img, wfImage img ->
    let b := Bounds img in
    let w := Dx b in
    let h := Dy b in
    exists out,
      f img = Done out /\
      canonicalRGBA out (dstW g w h) (dstH g w h) /\
      forall x y, 0 <= x < w -> 0 <= y < h ->
        pixelBytes out (fst (dstOf g w h x y)) (snd (dstOf g w h x y)) =
        rgbaModel (colorAt img (MinX b + fst (srcOf g w h x y))
                               (MinY b + snd (srcOf g w h x y))).

(** The geometry keeps inside both images and writes no destination point twice. *)
Definition goodGeometry (g : Geometry) : Prop :=
  forall w h x y, 0 <= x < w -> 0 <= y < h ->
    (0 <= fst (dstOf g w h x y) < dstW g w h /\
     0 <= snd (dstOf g w h x y) < dstH g w h /\
     0 <= fst (srcOf g w h x y) < w /\
     0 <= snd (srcOf g w h x y) < h) /\
    forall x' y', 0 <= x' < w -> 0 <= y' < h ->
      dstOf g w h x y = dstOf g w h x' y' -> x = x' /\ y = y'.

(** The state of a pixel loop that stands at row [y], column [x]: the buffer
    has kept its length [L], and every pixel of an earlier row, or of this row
    and an earlier column, holds at its offset the four bytes meant for it. *)
Definition writtenUpTo (w h L : Z) (off : Z -> Z -> Z) (val : Z -> Z -> list Z)
           (y x : Z) (pix : list Z) : Prop :=
  len pix = L /\
  forall x' y', 0 <= x' < w -> 0 <= y' < h -> y' < y \/ (y' = y /\ x' < x) ->
    subslice pix (off x' y') (off x' y' + 4) = val x' y'.

(** *** Round trips *)

(** The corrector with orientation code 3 applied twice, and with code 6 and
    then with code 8. *)
Definition roundTrip180 (img : Image) : Run Image :=
  once <- correctOrientation img 3 ;; correctOrientation once 3.

Definition roundTrip90_270 (img : Image) : Run Image :=
  once <- correctOrientation img 6 ;; correctOrientation once 8.

(** Two images of one size show the same colours at the same places, each
    counted from its own origin; colours are compared as Go compares them,
    by the values of [RGBA()]. *)
Definition pixelIdentical (a b : Image) : Prop :=
  Dx (Bounds a) = Dx (Bounds b) /\
  Dy (Bounds a) = Dy (Bounds b) /\
  forall x y, 0 <= x < Dx (Bounds b) -> 0 <= y < Dy (Bounds b) ->
    Color_RGBA (colorAt a (MinX (Bounds a) + x) (MinY (Bounds a) + y)) =
    Color_RGBA (colorAt b (MinX (Bounds b) + x) (MinY (Bounds b) + y)).

(** [out] is the rendering of [img] as a canonical RGBA image: same size,
    origin (0,0), every pixel the [color.RGBAModel] conversion of the pixel of
    [img] at the same place. *)
Definition rgbaRendering (img : Image) (out : PixImage) : Prop :=
  canonicalRGBA out (Dx (Bounds img)) (Dy (Bounds img)) /\
  forall x y, 0 <= x < Dx (Bounds img) -> 0 <= y < Dy (Bounds img) ->
    pixelBytes out x y =
    rgbaModel (colorAt img (MinX (Bounds img) + x) (MinY (Bounds img) + y)).

(** A 1x1 [image.NRGBA] with the half-transparent pixel (R=1, G=0, B=0, A=128). *)
Definition nrgbaDim : Image := NRGBAImage (mkPixImage [1; 0; 0; 128] 4 (mkRectangle 0 0 1 1)).

(** A 2x1 image of some other type whose origin is (5,5). *)
Definition offsetImage : Image :=
  OtherImage (mkRectangle 5 5 7 6) (fun x y => ColorOther (x * 256) (y * 256) 0 0xffff).

(** A 3x2 [image.RGBA] as [image.NewRGBA] lays it out, bytes 1 to 24. *)
Definition rgba3x2 : PixImage :=
  mkPixImage (map Z.of_nat (seq 1 24)) 12 (mkRectangle 0 0 3 2).

(** ** Conversions between integers and float64 *)

(** [float64(z)] for an [int] or [uint32] [z]. *)
Definition f64_of_int (z : Z) : float64 :=
  if z <? 0 then PrimFloat.opp (f64_of_Z (- z)) else f64_of_Z z.

(** The integer part of a finite [float64], [None] for NaN and the infinities. *)
Definition f64_trunc (f : float64) : option Z :=
  match Prim2SF f with
  | S754_zero _ => Some 0
  | S754_finite s m e =>
      let v := if 0 <=? e then Z.pos m * 2 ^ e else Z.pos m / 2 ^ (- e) in
      Some (if s then - v else v)
  | S754_infinity _ | S754_nan => None
  end.

(** [uint32(f)]: the fraction is discarded; when the integer part does not fit
    in a [uint32], or [f] is a NaN or an infinity, Go leaves the value to the
    implementation, here [unrepresentable f]. *)
Definition uint32_of_f64 (unrepresentable : float64 -> Z) (f : float64) : Z :=
  match f64_trunc f with
  | Some z => if (0 <=? z) && (z <? uint32_mod) then z else to_uint32 (unrepresentable f)
  | None => to_uint32 (unrepresentable f)
  end.

(** ** What the pipeline takes from outside the repository *)

(** A scaler of golang.org/x/image/draw, called as
    [k.Scale(dst, dst.Bounds(), src, src.Bounds(), draw.Over, nil)] on a fresh
    [dst] of width [w] and height [h]: the colour it leaves at each point
    [(x, y)] of [dst]. *)
Definition Scaler : Type := Image -> Z -> Z -> Z -> Z -> Color.

Record Externals : Type := mkExternals {
  (** [cos32[k][n]], the values of [math.Cos] in the table of phash.go *)
  cos32 : nat -> nat -> float64;
  (** [draw.ApproxBiLinear] and [draw.CatmullRom] *)
  ApproxBiLinear : Scaler;
  CatmullRom : Scaler;
  (** the value an out-of-range conversion [uint32(f)] takes on the target *)
  unrepresentable : float64 -> Z
}.

(** ** The pixel sampler: Resize *)

(** [dst := image.NewRGBA(image.Rect(0, 0, w, h))] filled by the scaler [k]. *)
Definition scaleTo (k : Scaler) (src : Image) (w h : Z) : PixImage :=
  let dst := NewRGBA (image_Rect 0 0 w h) in
  withPix dst
    (flat_map (fun y =>
       flat_map (fun x => rgbaModel (k src w h (Z.of_nat x) (Z.of_nat y)))
                (seq 0 (Z.to_nat w)))
     (seq 0 (Z.to_nat h))).

(** [for cw/2 >= int(dstW) && ch/2 >= int(dstH) { ... }], progressive halving. *)
Fixpoint halve (k : Scaler) (fuel : nat) (cur : Image) (cw ch dstW dstH : Z) : Run Image :=
  match fuel with
  | O => Unfinished
  | S fuel' =>
      if (Z.quot cw 2 >=? dstW) && (Z.quot ch 2 >=? dstH)
      then
        let nw := Z.quot cw 2 in
        let nh := Z.quot ch 2 in
        let tmp := scaleTo k cur nw nh in
        halve k fuel' (RGBAImage tmp) nw nh dstW dstH
      else Done cur
  end.

(** [Resize(src, dstW, dstH)]; [dstW] and [dstH] are [uint32]. *)
Definition Resize (ext : Externals) (src : option Image) (dstW dstH : Z)
  : Run (option Image) :=
  match src with
  | None => Done None
  | Some img =>
      let sb := Bounds img in
      let sw := Dx sb in
      let sh := Dy sb in
      let swu := to_uint32 sw in
      let shu := to_uint32 sh in
      if ((dstW =? 0) && (dstH =? 0)) || ((dstW =? swu) && (dstH =? shu))
      then Done (Some img)
      else
        let dstW :=
          if dstW =? 0
          then uint32_of_f64 (unrepresentable ext)
                 (f64_of_int dstH * f64_of_int sw / f64_of_int sh)%float
          else dstW in
        let dstH :=
          if dstH =? 0
          then uint32_of_f64 (unrepresentable ext)
                 (f64_of_int dstW * f64_of_int sh / f64_of_int sw)%float
          else dstH in
        if (dstW =? 0) || (dstH =? 0) then Done (Some img)
        else if (dstW >=? swu) && (dstH >=? shu)
        then Done (Some (RGBAImage (scaleTo (ApproxBiLinear ext) img dstW dstH)))
        else
          cur <- halve (CatmullRom ext) 64 img sw sh dstW dstH ;;
          Done (Some (RGBAImage (scaleTo (CatmullRom ext) cur dstW dstH)))
  end.

(** *** The missing dimension, as the code has it and as the specification words it *)

(** [uint32(float64(known) * float64(other) / float64(along))]: the dimension
    [Resize] computes for a target of 0, from the other target [known] and the
    two source dimensions. *)
Definition missingDimension (ext : Externals) (known other along : Z) : Z :=
  uint32_of_f64 (unrepresentable ext)
    (f64_of_int known * f64_of_int other / f64_of_int along)%float.

(** [round(known * other / along)], to the nearest integer. *)
Definition specMissingDimension (known other along : Z) : Z :=
  (2 * known * other + along) / (2 * along).

(** ** grayscale.go *)

(** [image.NewGray(r)]. *)
Definition NewGray (r : Rectangle) : PixImage :=
  mkPixImage (repeat 0 (Z.to_nat (1 * Dx r * Dy r))) (1 * Dx r) r.

(** [color.GrayModel.Convert(c)], which is also what [image.Gray] stores for a
    colour of 16-bit values: [(19595*r + 38470*g + 7471*b + 1<<15) >> 24]. *)
Definition grayModel (c : Color) : Z :=
  let '(r, g, b, _) := Color_RGBA c in
  to_uint8 (Z.shiftr (to_uint32 (19595 * r + 38470 * g + 7471 * b + 2 ^ 15)) 24).

(** [draw.Draw(dst, dst.Bounds(), src, sp, draw.Src)] for a [dst] made by
    [image.NewGray]: every pixel of [dst] takes the gray of the source pixel
    at the same distance from [sp]. *)
Definition draw_Draw_Gray (dst : PixImage) (src : Image) (spX spY : Z) : Run (list Z) :=
  forRange (Z.to_nat (Dy (Rect dst))) 0 (fun y pix =>
    forRange (Z.to_nat (Dx (Rect dst))) 0 (fun x pix =>
      c <- At src (spX + x) (spY + y) ;;
      store pix (GrayPixOffset dst x y) (grayModel c)) pix) (Pix dst).

(** [Grayscale(src)]. *)
Definition Grayscale (src : option Image) : Run (option Image) :=
  match src with
  | None => Done None
  | Some img =>
      let b := Bounds img in
      let dst := NewGray (image_Rect 0 0 (Dx b) (Dy b)) in
      pix <- draw_Draw_Gray dst img (MinX b) (MinY b) ;;
      Done (Some (GrayImage (withPix dst pix)))
  end.

(** ** phash.go: from the image to the coefficients *)

(** [gray32x32(img)]: the rows of the [[32][32]float64].  A nil [img] faults
    at [img.Bounds()]. *)
Definition gray32x32 (img : option Image) : Run (list (list float64)) :=
  match img with
  | None => Panics
  | Some img =>
      let b := Bounds img in
      forRange 32 0 (fun y rows =>
        row <- forRange 32 0 (fun x row =>
                 c <- At img (MinX b + x) (MinY b + y) ;;
                 let '(r, _, _, _) := Color_RGBA c in
                 Done (row ++ [f64_of_int (Z.shiftr r 8)])) [] ;;
        Done (rows ++ [row])) []
  end.

(** [pix[y][x]]. *)
Definition pixAt (pix : list (list float64)) (y x : nat) : float64 :=
  nth x (nth y pix []) PrimFloat.zero.

(** [au]: [math.Sqrt(1.0 / N)] for [u == 0], else [math.Sqrt(2.0 / N)], [N = 32]. *)
Definition dctAlpha (u : nat) : float64 :=
  match u with
  | O => PrimFloat.sqrt (1 / 32)%float
  | _ => PrimFloat.sqrt (2 / 32)%float
  end.

(** The double loop [sum += pix[y][x] * cos32[u][x] * cvy]. *)
Definition dctSum (ext : Externals) (pix : list (list float64)) (u v : nat) : float64 :=
  fold_left (fun sum y =>
    let cvy := cos32 ext v y in
    fold_left (fun sum x => (sum + pixAt pix y x * cos32 ext u x * cvy)%float)
              (seq 0 32) sum)
    (seq 0 32) PrimFloat.zero.

(** [dctTopLeft8x8(pix)]: the cell [c[v][u] = au * av * sum]. *)
Definition dctTopLeft8x8 (ext : Externals) (pix : list (list float64)) : Coeffs :=
  fun v u => (dctAlpha u * dctAlpha v * dctSum ext pix u v)%float.

(** [PHash(image)]. *)
Definition PHash (ext : Externals) (image : option Image) : Run Z :=
  match image with
  | None => Done 0
  | Some _ =>
      gray <- Grayscale image ;;
      resized <- Resize ext gray 32 32 ;;
      pix <- gray32x32 resized ;;
      let coeff := dctTopLeft8x8 ext pix in
      let med := medianImageHash coeff in
      Done (hashFromCoeffsImageHash coeff med)
  end.


(** ** A concrete setting for running the pipeline

    The cosine table of phash.go, [cos32[k][n] = cos((2n+1) k pi / 64)]: the
    argument computed in float64 as the source writes it, and each entry the
    binary64 value nearest to the cosine of that argument.  ([math.Cos] may
    differ from it in the last bit.) *)
Definition cos32Table : list (list float64) :=
  [[0x1.0000000000000p+0; 0x1.0000000000000p+0; 0x1.0000000000000p+0; 0x1.0000000000000p+0;
    0x1.0000000000000p+0; 0x1.0000000000000p+0; 0x1.0000000000000p+0; 0x1.0000000000000p+0;
    0x1.0000000000000p+0; 0x1.0000000000000p+0; 0x1.0000000000000p+0; 0x1.0000000000000p+0;
    0x1.0000000000000p+0; 0x1.0000000000000p+0; 0x1.0000000000000p+0; 0x1.0000000000000p+0;
    0x1.0000000000000p+0; 0x1.0000000000000p+0; 0x1.0000000000000p+0; 0x1.0000000000000p+0;
    0x1.0000000000000p+0; 0x1.0000000000000p+0; 0x1.0000000000000p+0; 0x1.0000000000000p+0;
    0x1.0000000000000p+0; 0x1.0000000000000p+0; 0x1.0000000000000p+0; 0x1.0000000000000p+0;
    0x1.0000000000000p+0; 0x1.0000000000000p+0; 0x1.0000000000000p+0; 0x1.0000000000000p+0];
   [0x1.ff621e3796d7ep-1; 0x1.fa7557f08a517p-1; 0x1.f0a7efb9230d7p-1; 0x1.e212104f686e5p-1;
    0x1.ced7af43cc773p-1; 0x1.b728345196e3ep-1; 0x1.9b3e047f38741p-1; 0x1.7b5df226aafafp-1;
    0x1.57d69348cec9fp-1; 0x1.30ff7fce17036p-1; 0x1.073879922ffedp-1; 0x1.b5d1009e15cc2p-2;
    0x1.58f9a75ab1fddp-2; 0x1.f19f97b215f1ep-3; 0x1.2c8106e8e613ap-3; 0x1.91f65f10dd824p-5;
    -0x1.91f65f10dd813p-5; -0x1.2c8106e8e6136p-3; -0x1.f19f97b215f1ap-3; -0x1.58f9a75ab1fdbp-2;
    -0x1.b5d1009e15cbcp-2; -0x1.073879922ffedp-1; -0x1.30ff7fce17035p-1; -0x1.57d69348ceca0p-1;
    -0x1.7b5df226aafadp-1; -0x1.9b3e047f38740p-1; -0x1.b728345196e3dp-1; -0x1.ced7af43cc773p-1;
    -0x1.e212104f686e4p-1; -0x1.f0a7efb9230d7p-1; -0x1.fa7557f08a517p-1; -0x1.ff621e3796d7ep-1];
   [0x1.fd88da3d12526p-1; 0x1.e9f4156c62ddap-1; 0x1.c38b2f180bdb1p-1; 0x1.8bc806b151741p-1;
    0x1.44cf325091dd6p-1; 0x1.e2b5d3806f63ep-2; 0x1.294062ed59f05p-2; 0x1.917a6bc29b438p-4;
    -0x1.917a6bc29b42fp-4; -0x1.294062ed59f02p-2; -0x1.e2b5d3806f63cp-2; -0x1.44cf325091dd5p-1;
    -0x1.8bc806b151741p-1; -0x1.c38b2f180bdb0p-1; -0x1.e9f4156c62ddap-1; -0x1.fd88da3d12525p-1;
    -0x1.fd88da3d12526p-1; -0x1.e9f4156c62ddbp-1; -0x1.c38b2f180bdb1p-1; -0x1.8bc806b151742p-1;
    -0x1.44cf325091ddap-1; -0x1.e2b5d3806f63fp-2; -0x1.294062ed59f07p-2; -0x1.917a6bc29b421p-4;
    0x1.917a6bc29b407p-4; 0x1.294062ed59f00p-2; 0x1.e2b5d3806f63ap-2; 0x1.44cf325091dd7p-1;
    0x1.8bc806b15173ep-1; 0x1.c38b2f180bdafp-1; 0x1.e9f4156c62ddap-1; 0x1.fd88da3d12526p-1];
   [0x1.fa7557f08a517p-1; 0x1.ced7af43cc773p-1; 0x1.7b5df226aafafp-1; 0x1.073879922ffedp-1;
    0x1.f19f97b215f1ep-3; -0x1.91f65f10dd813p-5; -0x1.58f9a75ab1fdbp-2; -0x1.30ff7fce17035p-1;
    -0x1.9b3e047f38740p-1; -0x1.e212104f686e4p-1; -0x1.ff621e3796d7ep-1; -0x1.f0a7efb9230d7p-1;
    -0x1.b728345196e3ep-1; -0x1.57d69348ceca2p-1; -0x1.b5d1009e15cc7p-2; -0x1.2c8106e8e614ep-3;
    0x1.2c8106e8e6141p-3; 0x1.b5d1009e15cc1p-2; 0x1.57d69348cec9fp-1; 0x1.b728345196e3dp-1;
    0x1.f0a7efb9230d7p-1; 0x1.ff621e3796d7ep-1; 0x1.e212104f686e6p-1; 0x1.9b3e047f38744p-1;
    0x1.30ff7fce17034p-1; 0x1.58f9a75ab1fddp-2; 0x1.91f65f10dd828p-5; -0x1.f19f97b215ef3p-3;
    -0x1.073879922ffebp-1; -0x1.7b5df226aafb1p-1; -0x1.ced7af43cc771p-1; -0x1.fa7557f08a517p-1];
   [0x1.f6297cff75cb0p-1; 0x1.a9b66290ea1a3p-1; 0x1.1c73b39ae68c9p-1; 0x1.8f8b83c69a60dp-3;
    -0x1.8f8b83c69a608p-3; -0x1.1c73b39ae68c6p-1; -0x1.a9b66290ea1a4p-1; -0x1.f6297cff75cb0p-1;
    -0x1.f6297cff75cb0p-1; -0x1.a9b66290ea1a5p-1; -0x1.1c73b39ae68c8p-1; -0x1.8f8b83c69a619p-3;
    0x1.8f8b83c69a60cp-3; 0x1.1c73b39ae68c5p-1; 0x1.a9b66290ea1a3p-1; 0x1.f6297cff75cafp-1;
    0x1.f6297cff75cb0p-1; 0x1.a9b66290ea1a5p-1; 0x1.1c73b39ae68c9p-1; 0x1.8f8b83c69a61dp-3;
    -0x1.8f8b83c69a5e8p-3; -0x1.1c73b39ae68c4p-1; -0x1.a9b66290ea1a2p-1; -0x1.f6297cff75cb1p-1;
    -0x1.f6297cff75cb2p-1; -0x1.a9b66290ea1a6p-1; -0x1.1c73b39ae68cap-1; -0x1.8f8b83c69a602p-3;
    0x1.8f8b83c69a5e4p-3; 0x1.1c73b39ae68c3p-1; 0x1.a9b66290ea1a2p-1; 0x1.f6297cff75cb0p-1];
   [0x1.f0a7efb9230d7p-1; 0x1.7b5df226aafafp-1; 0x1.58f9a75ab1fddp-2; -0x1.2c8106e8e6136p-3;
    -0x1.30ff7fce17035p-1; -0x1.ced7af43cc773p-1; -0x1.ff621e3796d7ep-1; -0x1.b728345196e3ep-1;
    -0x1.073879922ffeep-1; -0x1.91f65f10dd816p-5; 0x1.b5d1009e15cc1p-2; 0x1.9b3e047f38742p-1;
    0x1.fa7557f08a516p-1; 0x1.e212104f686e6p-1; 0x1.57d69348ceca3p-1; 0x1.f19f97b215f27p-3;
    -0x1.f19f97b215ef3p-3; -0x1.57d69348cec99p-1; -0x1.e212104f686e2p-1; -0x1.fa7557f08a518p-1;
    -0x1.9b3e047f38745p-1; -0x1.b5d1009e15ccbp-2; 0x1.91f65f10dd7bep-5; 0x1.073879922ffeap-1;
    0x1.b728345196e3cp-1; 0x1.ff621e3796d7ep-1; 0x1.ced7af43cc774p-1; 0x1.30ff7fce17036p-1;
    0x1.2c8106e8e613cp-3; -0x1.58f9a75ab1fdep-2; -0x1.7b5df226aafb0p-1; -0x1.f0a7efb9230d8p-1];
   [0x1.e9f4156c62ddap-1; 0x1.44cf325091dd6p-1; 0x1.917a6bc29b438p-4; -0x1.e2b5d3806f63cp-2;
    -0x1.c38b2f180bdb0p-1; -0x1.fd88da3d12526p-1; -0x1.8bc806b151742p-1; -0x1.294062ed59f07p-2;
    0x1.294062ed59f00p-2; 0x1.8bc806b15173ep-1; 0x1.fd88da3d12526p-1; 0x1.c38b2f180bdb1p-1;
    0x1.e2b5d3806f641p-2; -0x1.917a6bc29b3fep-4; -0x1.44cf325091dd0p-1; -0x1.e9f4156c62dd7p-1;
    -0x1.e9f4156c62dd9p-1; -0x1.44cf325091dd5p-1; -0x1.917a6bc29b432p-4; 0x1.e2b5d3806f636p-2;
    0x1.c38b2f180bdaep-1; 0x1.fd88da3d12526p-1; 0x1.8bc806b151747p-1; 0x1.294062ed59f1cp-2;
    -0x1.294062ed59f09p-2; -0x1.8bc806b151741p-1; -0x1.fd88da3d12525p-1; -0x1.c38b2f180bdbbp-1;
    -0x1.e2b5d3806f647p-2; 0x1.917a6bc29b463p-4; 0x1.44cf325091dcdp-1; 0x1.e9f4156c62ddbp-1];
   [0x1.e212104f686e5p-1; 0x1.073879922ffedp-1; -0x1.2c8106e8e6136p-3; -0x1.7b5df226aafadp-1;
    -0x1.ff621e3796d7ep-1; -0x1.9b3e047f38741p-1; -0x1.f19f97b215f23p-3; 0x1.b5d1009e15cc1p-2;
    0x1.ced7af43cc771p-1; 0x1.f0a7efb9230d8p-1; 0x1.30ff7fce17034p-1; -0x1.91f65f10dd7d0p-5;
    -0x1.57d69348cec99p-1; -0x1.fa7557f08a517p-1; -0x1.b728345196e40p-1; -0x1.58f9a75ab1feep-2;
    0x1.58f9a75ab1fe0p-2; 0x1.b728345196e3cp-1; 0x1.fa7557f08a518p-1; 0x1.57d69348cec9ep-1;
    0x1.91f65f10dd84bp-5; -0x1.30ff7fce1702ep-1; -0x1.f0a7efb9230d8p-1; -0x1.ced7af43cc774p-1;
    -0x1.b5d1009e15cb2p-2; 0x1.f19f97b215ee6p-3; 0x1.9b3e047f3873fp-1; 0x1.ff621e3796d7ep-1;
    0x1.7b5df226aafb8p-1; 0x1.2c8106e8e6144p-3; -0x1.073879922fff5p-1; -0x1.e212104f686e0p-1]]%float.

Definition cos32Of (k n : nat) : float64 := nth n (nth k cos32Table []) PrimFloat.zero.

(** A scaler to run the pipeline with: each destination pixel is the mean,
    rounded down per 16-bit channel, of the source pixels in its box. *)
Definition sumColors (l : list Color) : Z * Z * Z * Z :=
  fold_left (fun acc c =>
               let '(r, g, b, a) := acc in
               let '(r', g', b', a') := Color_RGBA c in
               (r + r', g + g', b + b', a + a'))
            l (0, 0, 0, 0).

Definition boxScaler : Scaler := fun src w h x y =>
  let b := Bounds src in
  let sw := Dx b in
  let sh := Dy b in
  let x0 := x * sw / w in
  let x1 := Z.max (x0 + 1) ((x + 1) * sw / w) in
  let y0 := y * sh / h in
  let y1 := Z.max (y0 + 1) ((y + 1) * sh / h) in
  let pts :=
    flat_map (fun j =>
      map (fun i => colorAt src (MinX b + x0 + Z.of_nat i) (MinY b + y0 + Z.of_nat j))
          (seq 0 (Z.to_nat (x1 - x0))))
      (seq 0 (Z.to_nat (y1 - y0))) in
  let n := Z.of_nat (length pts) in
  let '(r, g, b, a) := sumColors pts in
  ColorOther (r / n) (g / n) (b / n) (a / n).

(** The pipeline's surroundings for the examples: the cosine table above, the
    box scaler for both kernels, and 0 for an out-of-range [uint32(f)]. *)
Definition boxExternals : Externals := mkExternals cos32Of boxScaler boxScaler (fun _ => 0).

(** An opaque [image.RGBA] of width [w] and height [h] with the pixel
    [(R, G, B)] given for each point. *)
Definition rgbaOf (w h : nat) (px : nat -> nat -> Z * Z * Z) : Image :=
  RGBAImage
    (mkPixImage
       (flat_map (fun y => flat_map (fun x => let '(R, G, B) := px x y in [R; G; B; 255])
                                    (seq 0 w)) (seq 0 h))
       (4 * Z.of_nat w) (mkRectangle 0 0 (Z.of_nat w) (Z.of_nat h))).

(** A white 32x32 image. *)
Definition white32 : Image := rgbaOf 32 32 (fun _ _ => (255, 255, 255)).

(** A 5x3 and a 1x2 black image. *)
Definition black5x3 : Image := rgbaOf 5 3 (fun _ _ => (0, 0, 0)).
Definition black1x2 : Image := rgbaOf 1 2 (fun _ _ => (0, 0, 0)).


(** The integers from 1 to [n]. *)
Definition upTo (n : nat) : list Z := map Z.of_nat (seq 1 n).

(** On every triple of sizes up to [n], the missing dimension is the quotient
    of the integers, rounded down. *)
Definition missingDimensionFloorsUpTo (ext : Externals) (n : nat) : bool :=
  forallb (fun known =>
    forallb (fun other =>
      forallb (fun along => missingDimension ext known other along =? known * other / along)
              (upTo n))
      (upTo n))
    (upTo n).

(** * Further definitions: the transforms read from the destination, the path of
    the marker loop, gray images, DownscaleByLargestSide *)

(** ** The transforms, read from the destination *)

(** [out] shows [img] through [pre]: it is a canonical RGBA image of width
    [w'] and height [h'], and its pixel at [(a, b)] is the [color.RGBAModel]
    conversion of the pixel of [img] that [pre a b] names, counted from the
    origin of [img]. *)
Definition showsThrough (img : Image) (w' h' : Z) (pre : Z -> Z -> Z * Z)
           (out : PixImage) : Prop :=
  canonicalRGBA out w' h' /\
  forall a b, 0 <= a < w' -> 0 <= b < h' ->
    pixelBytes out a b =
    rgbaModel (colorAt img (MinX (Bounds img) + fst (pre a b))
                           (MinY (Bounds img) + snd (pre a b))).

(** One transform after another: [g(f(img))]. *)
Definition andThen (f g : Image -> Run PixImage) (img : Image) : Run PixImage :=
  p <- f img ;; g (RGBAImage p).

(** An image of some other type with the bounds and the colours of [img]. *)
Definition asOther (img : Image) : Image := OtherImage (Bounds img) (colorAt img).

(** Every pixel of the [image.NRGBA] buffer [p] is opaque: alpha 255, and
    three colour channels that are bytes. *)
Definition opaqueNRGBA (p : PixImage) : Prop :=
  forall x y, 0 <= x < Dx (Rect p) -> 0 <= y < Dy (Rect p) ->
    let s := pixelBytes p (MinX (Rect p) + x) (MinY (Rect p) + y) in
    0 <= nth 0 s 0 < 256 /\ 0 <= nth 1 s 0 < 256 /\ 0 <= nth 2 s 0 < 256 /\
    nth 3 s 0 = 255.

(** Two opaque pixels in a row. *)
Definition opaque2x1 : PixImage :=
  mkPixImage [10; 20; 30; 255; 40; 50; 60; 255] 8 (mkRectangle 0 0 2 1).

(** ** The path of the marker loop *)

(** The markers the loop steps over without reading a length: TEM and RST0
    to RST7. *)
Definition standalone (m : Z) : bool :=
  (m =? 0x01) || ((0xD0 <=? m) && (m <=? 0xD7)).

(** A turn of the marker loop at offset [i] that goes on to offset [j]: over a
    byte that is not 0xFF, over a stand-alone marker, or over a whole segment
    that is neither EOI nor SOS and holds no well-formed Exif orientation. *)
Inductive skips (data : bytes) (i : Z) : Z -> Prop :=
| skips_byte :
    i + 4 <= len data -> byteAt data i <> 0xFF ->
    skips data i (i + 1)
| skips_standalone :
    i + 4 <= len data -> byteAt data i = 0xFF ->
    standalone (byteAt data (i + 1)) = true ->
    skips data i (i + 2)
| skips_segment :
    i + 4 <= len data -> byteAt data i = 0xFF ->
    byteAt data (i + 1) <> 0xD9 -> byteAt data (i + 1) <> 0xDA ->
    standalone (byteAt data (i + 1)) = false ->
    2 <= rd16 BigEndian data (i + 2) ->
    i + 2 + rd16 BigEndian data (i + 2) <= len data ->
    (forall v, ~ exifSegmentAt data i v) ->
    skips data i (i + 2 + rd16 BigEndian data (i + 2)).

(** The loop started at offset [i] comes to offset [p]. *)
Inductive reaches (data : bytes) : Z -> Z -> Prop :=
| reaches_here i : reaches data i i
| reaches_next i j p : skips data i j -> reaches data j p -> reaches data i p.

(** SOI, an APP0 segment of length 4, SOS, and after it the APP1 segment of
    [jpegWithOrientation 6]. *)
Definition jpegExifAfterScan : bytes :=
  bytesOf [0xFF; 0xD8; 0xFF; 0xE0; 0x00; 0x04; 0x00; 0x00; 0xFF; 0xDA] ++
  skipn 2 (jpegWithOrientation 6).

(** The eight bytes of the PNG signature, then the bytes of
    [jpegWithOrientation 6]. *)
Definition pngLike : bytes :=
  bytesOf [0x89; 0x50; 0x4E; 0x47; 0x0D; 0x0A; 0x1A; 0x0A] ++ jpegWithOrientation 6.

(** The 49 positions [medianImageHash] reads, in the order of its loops. *)
Definition innerCells : list (nat * nat) :=
  flat_map (fun y => map (fun x => (y, x)) (seq 1 7)) (seq 1 7).

(** The comparison behind the bit of position [p]. *)
Definition above (c : Coeffs) (med : float64) (p : nat * nat) : bool :=
  f64_gt (c (fst p) (snd p)) med.

(** ** Gray images *)

(** An image [image.NewGray] could have made: origin (0,0), packed rows of
    one byte per pixel. *)
Definition canonicalGray (p : PixImage) (w h : Z) : Prop :=
  Rect p = mkRectangle 0 0 w h /\ Stride p = w /\ len (Pix p) = w * h.

(** The byte of the pixel [(x, y)] of a gray buffer. *)
Definition grayAt (p : PixImage) (x y : Z) : Z :=
  nth (Z.to_nat (GrayPixOffset p x y)) (Pix p) 0.

(** [out] is the rendering of [img] as a canonical gray image: same size,
    origin (0,0), every pixel the [color.GrayModel] conversion of the pixel of
    [img] at the same place, every byte a byte. *)
Definition grayRendering (img : Image) (out : PixImage) : Prop :=
  canonicalGray out (Dx (Bounds img)) (Dy (Bounds img)) /\
  (forall x y, 0 <= x < Dx (Bounds img) -> 0 <= y < Dy (Bounds img) ->
     grayAt out x y =
     grayModel (colorAt img (MinX (Bounds img) + x) (MinY (Bounds img) + y))) /\
  Forall (fun v => 0 <= v < 256) (Pix out).

(** The state of the loop of [draw.Draw] into a gray buffer of width [w] that
    stands at row [y], column [x]. *)
Definition grayWrittenUpTo (w h : Z) (val : Z -> Z -> Z) (y x : Z) (pix : list Z) : Prop :=
  len pix = w * h /\
  forall x' y', 0 <= x' < w -> 0 <= y' < h -> y' < y \/ (y' = y /\ x' < x) ->
    nth (Z.to_nat (y' * w + x')) pix 0 = val x' y'.

(** ** Reading the 32x32 grid *)

(** [0, 1, ..., n-1] as integers. *)
Definition zseq (n : nat) : list Z := map Z.of_nat (seq 0 n).

(** [r >> 8] for the first of the four values of [c.RGBA()]. *)
Definition redByte (c : Color) : Z :=
  let '(r, _, _, _) := Color_RGBA c in Z.shiftr r 8.

(** The grid [gray32x32] reads off an image that has at least 32 columns and
    32 rows. *)
Definition grayGrid (img : Image) : list (list float64) :=
  map (fun y =>
    map (fun x =>
      f64_of_int (redByte (colorAt img (MinX (Bounds img) + x) (MinY (Bounds img) + y))))
      (zseq 32))
    (zseq 32).

(** A black image of 11 by 22 pixels. *)
Definition black11x22 : Image := rgbaOf 11 22 (fun _ _ => (0, 0, 0)).

(** ** DownscaleByLargestSide *)

(** [math.Round(f)]: the nearest integer, halves away from zero; the zeros,
    the infinities and NaN are returned as they are.  A finite [f] is
    [m * 2^e]; with [e] not negative it is an integer already. *)
Definition math_Round (f : float64) : float64 :=
  match Prim2SF f with
  | S754_finite s m e =>
      if 0 <=? e then f
      else
        let d := 2 ^ (- e) in
        let q := Z.pos m / d in
        let z := if 2 * (Z.pos m mod d) >=? d then q + 1 else q in
        if s then PrimFloat.opp (f64_of_Z z) else f64_of_Z z
  | _ => f
  end.

(** [DownscaleByLargestSide(src, maxSide)]; [maxSide] is a [uint32]. *)
Definition DownscaleByLargestSide (ext : Externals) (src : option Image) (maxSide : Z)
  : Run (option Image) :=
  match src with
  | None => Done None
  | Some img =>
      if maxSide =? 0 then Done src
      else
        let b := Bounds img in
        let origW := to_uint32 (Dx b) in
        let origH := to_uint32 (Dy b) in
        if (origW =? 0) || (origH =? 0) then Done src
        else
          let largest := if origH >? origW then origH else origW in
          if largest <=? maxSide then Done src
          else
            let scale := (f64_of_int maxSide / f64_of_int largest)%float in
            let newW := uint32_of_f64 (unrepresentable ext)
                          (math_Round (f64_of_int origW * scale)%float) in
            let newH := uint32_of_f64 (unrepresentable ext)
                          (math_Round (f64_of_int origH * scale)%float) in
            let newW := if newW =? 0 then 1 else newW in
            let newH := if newH =? 0 then 1 else newH in
            Resize ext src newW newH
  end.

(** [uint32(math.Round(float64(orig) * scale))] with
    [scale = float64(maxSide) / float64(largest)]: the side the code computes
    before it lifts a 0 to 1. *)
Definition scaledSide (ext : Externals) (orig maxSide largest : Z) : Z :=
  uint32_of_f64 (unrepresentable ext)
    (math_Round (f64_of_int orig * (f64_of_int maxSide / f64_of_int largest))%float).

(** [v] is an integer nearest to [orig * maxSide / largest]. *)
Definition nearestScaled (orig maxSide largest v : Z) : Prop :=
  2 * orig * maxSide - largest <= 2 * largest * v <= 2 * orig * maxSide + largest.

(** On all sizes up to [n], with [maxSide] below the largest side: the scaled
    side is a nearest integer, it is not above [maxSide], and the largest side
    itself comes out as [maxSide]. *)
Definition scaledSidesFitUpTo (ext : Externals) (n : nat) : bool :=
  forallb (fun largest =>
    forallb (fun maxSide =>
      forallb (fun orig =>
        if (maxSide <? largest) && (orig <=? largest)
        then
          let v := scaledSide ext orig maxSide largest in
          (v <=? maxSide) && (negb (orig =? largest) || (v =? maxSide)) &&
          (2 * orig * maxSide - largest <=? 2 * largest * v) &&
          (2 * largest * v <=? 2 * orig * maxSide + largest)
        else true)
        (upTo n))
      (upTo n))
    (upTo n).

(** * Properties *)

(** ** Hamming distance *)

Section BitCount.
Variable bit : nat -> bool.

Lemma countOnes_bounds (l : list nat) :
  0 <= countOnes bit l <= Z.of_nat (length l).
Proof.
  induction l as [|i l IH]; cbn [countOnes fold_right length].
  - lia.
  - fold (countOnes bit l). destruct (bit i); lia.
Qed.

Lemma countOnes_filter (l : list nat) :
  countOnes bit l = Z.of_nat (length (filter bit l)).
Proof.
  induction l as [|i l IH]; cbn [countOnes fold_right filter].
  - reflexivity.
  - fold (countOnes bit l). rewrite IH. destruct (bit i); cbn [length]; lia.
Qed.

Lemma countOnes_zero (l : list nat) :
  (forall i, In i l -> bit i = false) -> countOnes bit l = 0.
Proof.
  induction l as [|i l IH]; intros H; cbn [countOnes fold_right].
  - reflexivity.
  - fold (countOnes bit l). rewrite (H i (or_introl eq_refl)).
    rewrite IH; [reflexivity|]. intros j Hj. apply H. now right.
Qed.
End BitCount.

(** C6: the distance is the number of one bits of [a ^ b], that is the number
    of the 64 bit positions at which [a] and [b] differ; it vanishes on the
    diagonal, is symmetric, and lies between 0 and 64. *)
Theorem HammingDistance_weight_of_xor (a b : Z) :
  HammingDistance a b = OnesCount64 (Z.lxor a b) /\
  HammingDistance a b =
    Z.of_nat (length (filter (fun i => xorb (Z.testbit a (Z.of_nat i)) (Z.testbit b (Z.of_nat i)))
                             (seq 0 64))) /\
  HammingDistance a a = 0 /\
  HammingDistance a b = HammingDistance b a /\
  0 <= HammingDistance a b <= 64.
Proof.
  unfold HammingDistance. repeat split.
  - unfold OnesCount64. rewrite countOnes_filter. do 2 f_equal.
    apply filter_ext. intros i. apply Z.lxor_spec.
  - rewrite Z.lxor_nilpotent. unfold OnesCount64.
    apply countOnes_zero. intros i _. apply Z.bits_0.
  - now rewrite Z.lxor_comm.
  - apply countOnes_bounds.
  - unfold OnesCount64.
    change 64 with (Z.of_nat (length (seq 0 64))). apply countOnes_bounds.
Qed.

(** ** The order of sort.Float64s *)

Lemma Pos_compare_cont_Eq (p q : positive) : Pos.compare_cont Eq p q = Pos.compare p q.
Proof. reflexivity. Qed.

(** [Less] is the strict order of the ranks. *)
Lemma Float64Slice_Less_rank (x y : float64) :
  Float64Slice_Less x y = true <-> rank_lt (f64_rank x) (f64_rank y).
Proof.
  unfold Float64Slice_Less, isNaN, f64_rank.
  rewrite FloatAxioms.ltb_spec, !FloatAxioms.eqb_spec. unfold SFltb, SFeqb.
  destruct (Prim2SF x) as [sx|sx| |sx mx ex], (Prim2SF y) as [sy|sy| |sy my ey];
    try destruct sx; try destruct sy; cbn [SFcompare rank_lt negb andb orb];
    rewrite ?Z.compare_refl, ?Pos_compare_cont_Eq, ?Pos.compare_refl;
    cbn [CompOpp negb andb orb];
    try (split; [discriminate | lia]);
    try (split; [lia | reflexivity]);
    try (split; [reflexivity | lia]).
  all: destruct (Z.compare_spec ex ey) as [He|He|He];
    [ destruct (Pos.compare_spec mx my) as [Hm|Hm|Hm] | | ];
    cbn [CompOpp negb andb orb]; split; intros H; try reflexivity; try discriminate; lia.
Qed.

Lemma rank_lt_irrefl k : ~ rank_lt k k.
Proof. destruct k as [[a b] c]. unfold rank_lt. lia. Qed.

Lemma rank_lt_trans k1 k2 k3 : rank_lt k1 k2 -> rank_lt k2 k3 -> rank_lt k1 k3.
Proof.
  destruct k1 as [[a1 b1] c1], k2 as [[a2 b2] c2], k3 as [[a3 b3] c3].
  unfold rank_lt. lia.
Qed.

Lemma rank_lt_total k1 k2 : rank_lt k1 k2 \/ k1 = k2 \/ rank_lt k2 k1.
Proof.
  destruct k1 as [[a1 b1] c1], k2 as [[a2 b2] c2]. unfold rank_lt.
  destruct (Z.lt_total a1 a2) as [?|[?|?]]; [lia| |lia].
  destruct (Z.lt_total b1 b2) as [?|[?|?]]; [lia| |lia].
  destruct (Z.lt_total c1 c2) as [?|[?|?]]; [lia| |lia].
  right; left. congruence.
Qed.

Lemma Less_false_rank (x y : float64) :
  Float64Slice_Less x y = false <-> ~ rank_lt (f64_rank x) (f64_rank y).
Proof.
  rewrite <- Float64Slice_Less_rank. destruct (Float64Slice_Less x y); split; congruence.
Qed.

Lemma Less_asym (x y : float64) :
  Float64Slice_Less x y = true -> Float64Slice_Less y x = false.
Proof.
  rewrite Float64Slice_Less_rank, Less_false_rank. intros H H'.
  exact (rank_lt_irrefl _ (rank_lt_trans _ _ _ H H')).
Qed.

Lemma f64_noGreater_trans (x y z : float64) :
  f64_noGreater x y -> f64_noGreater y z -> f64_noGreater x z.
Proof.
  unfold f64_noGreater. rewrite !Less_false_rank. intros Hyx Hzy Hzx.
  destruct (rank_lt_total (f64_rank y) (f64_rank x)) as [H|[H|H]].
  - contradiction.
  - rewrite H in Hzy. contradiction.
  - apply Hzy. eapply rank_lt_trans; eassumption.
Qed.

Lemma f64_noGreater_total (x y : float64) : f64_noGreater x y \/ f64_noGreater y x.
Proof.
  unfold f64_noGreater.
  destruct (Float64Slice_Less y x) eqn:E; [right; now apply Less_asym | now left].
Qed.

(** ** sort.Float64s: a sorted permutation *)

Lemma Float64s_insert_perm (x : float64) (l : list float64) :
  Permutation (x :: l) (Float64s_insert x l).
Proof.
  induction l as [|y l IH]; cbn [Float64s_insert].
  - apply Permutation_refl.
  - destruct (Float64Slice_Less x y).
    + apply Permutation_refl.
    + eapply perm_trans; [apply perm_swap|]. now apply perm_skip.
Qed.

Lemma Float64s_perm (l : list float64) : Permutation l (Float64s l).
Proof.
  induction l as [|x l IH]; cbn [Float64s].
  - constructor.
  - eapply perm_trans; [apply perm_skip, IH | apply Float64s_insert_perm].
Qed.

Lemma Float64s_length (l : list float64) : length (Float64s l) = length l.
Proof. symmetry. apply Permutation_length, Float64s_perm. Qed.

Lemma Float64s_insert_ascending (x : float64) (l : list float64) :
  f64_ascending l -> f64_ascending (Float64s_insert x l).
Proof.
  unfold f64_ascending.
  induction l as [|y l IH]; intros Hs; cbn [Float64s_insert].
  - repeat constructor.
  - apply StronglySorted_inv in Hs. destruct Hs as [Hl Hy].
    destruct (Float64Slice_Less x y) eqn:E.
    + constructor.
      * constructor; assumption.
      * assert (Hxy : f64_noGreater x y) by now apply Less_asym.
        constructor; [exact Hxy|].
        eapply Forall_impl; [|exact Hy].
        intros z Hz. eapply f64_noGreater_trans; eassumption.
    + constructor.
      * now apply IH.
      * eapply Permutation_Forall; [apply Float64s_insert_perm|].
        constructor; [exact E | exact Hy].
Qed.

Lemma Float64s_ascending (l : list float64) : f64_ascending (Float64s l).
Proof.
  induction l as [|x l IH]; cbn [Float64s].
  - constructor.
  - now apply Float64s_insert_ascending.
Qed.

Section SortedUnique.
Context {A : Type} (R : A -> A -> Prop).
Hypothesis R_antisym : forall a b, R a b -> R b a -> a = b.

Lemma StronglySorted_perm_eq (l1 l2 : list A) :
  StronglySorted R l1 -> StronglySorted R l2 -> Permutation l1 l2 -> l1 = l2.
Proof.
  revert l2. induction l1 as [|a t1 IH]; intros l2 H1 H2 HP.
  - apply Permutation_nil in HP. now subst.
  - destruct l2 as [|b t2]; [apply Permutation_sym, Permutation_nil in HP; discriminate|].
    apply StronglySorted_inv in H1. destruct H1 as [Ht1 Ha].
    apply StronglySorted_inv in H2. destruct H2 as [Ht2 Hb].
    rewrite Forall_forall in Ha, Hb.
    assert (a = b) as <-.
    { assert (Ia : In a (b :: t2)) by (eapply Permutation_in; [exact HP | now left]).
      assert (Ib : In b (a :: t1))
        by (eapply Permutation_in; [apply Permutation_sym, HP | now left]).
      destruct Ia as [->|Ia]; [reflexivity|].
      destruct Ib as [->|Ib]; [reflexivity|].
      apply R_antisym; [now apply Ha | now apply Hb]. }
    f_equal. apply IH; try assumption. eapply Permutation_cons_inv; exact HP.
Qed.
End SortedUnique.

Lemma StronglySorted_map {A B : Type} (f : A -> B) (R : B -> B -> Prop) (l : list A) :
  StronglySorted (fun x y => R (f x) (f y)) l -> StronglySorted R (map f l).
Proof.
  induction 1 as [|a l Hl IH Ha]; cbn [map]; constructor; [exact IH|].
  rewrite Forall_map. exact Ha.
Qed.

Lemma StronglySorted_weaken {A : Type} (R R' : A -> A -> Prop) (l : list A) :
  (forall x y, R x y -> R' x y) -> StronglySorted R l -> StronglySorted R' l.
Proof.
  intros HR. induction 1 as [|a l Hl IH Ha]; constructor; [exact IH|].
  eapply Forall_impl; [|exact Ha]. intros y. apply HR.
Qed.

Lemma rank_le_antisym k1 k2 : rank_le k1 k2 -> rank_le k2 k1 -> k1 = k2.
Proof.
  unfold rank_le. intros H1 H2.
  destruct (rank_lt_total k1 k2) as [H|[H|H]]; [contradiction | exact H | contradiction].
Qed.

(** Two ascending arrangements of one slice carry the same ranks at every
    index: what [v[len(v)/2]] is does not depend on the sorting algorithm. *)
Lemma ascending_ranks_unique (l1 l2 : list float64) :
  f64_ascending l1 -> f64_ascending l2 -> Permutation l1 l2 ->
  map f64_rank l1 = map f64_rank l2.
Proof.
  intros H1 H2 HP.
  apply (StronglySorted_perm_eq rank_le rank_le_antisym).
  - apply StronglySorted_map. eapply StronglySorted_weaken; [|exact H1].
    intros x y H. unfold rank_le. now apply Less_false_rank.
  - apply StronglySorted_map. eapply StronglySorted_weaken; [|exact H2].
    intros x y H. unfold rank_le. now apply Less_false_rank.
  - now apply Permutation_map.
Qed.

(** [x < y] in terms of the sort order: [Less] without its NaN clause. *)
Lemma ltb_Less (x y : float64) :
  PrimFloat.ltb x y = Float64Slice_Less x y && negb (isNaN x).
Proof.
  unfold Float64Slice_Less, isNaN.
  rewrite FloatAxioms.ltb_spec, !FloatAxioms.eqb_spec. unfold SFltb, SFeqb.
  destruct (Prim2SF x) as [sx|sx| |sx mx ex], (Prim2SF y) as [sy|sy| |sy my ey];
    try destruct sx; try destruct sy; cbn [SFcompare negb andb orb];
    rewrite ?Z.compare_refl, ?Pos_compare_cont_Eq, ?Pos.compare_refl;
    cbn [CompOpp negb andb orb]; try reflexivity;
    now rewrite orb_false_r, andb_true_r.
Qed.

Lemma isNaN_rank (x : float64) : isNaN x = true <-> f64_rank x = (-3, 0, 0).
Proof.
  unfold isNaN, f64_rank. rewrite FloatAxioms.eqb_spec. unfold SFeqb.
  destruct (Prim2SF x) as [s|s| |s m e]; try destruct s; cbn [SFcompare negb];
    rewrite ?Z.compare_refl, ?Pos_compare_cont_Eq, ?Pos.compare_refl;
    cbn [CompOpp negb]; split; intros H; try reflexivity; discriminate.
Qed.

Lemma bool_eq_iff (a b : bool) : (a = true <-> b = true) -> a = b.
Proof.
  destruct a, b; intros [H1 H2]; try reflexivity.
  - symmetry. now apply H1.
  - now apply H2.
Qed.

(** The comparison that sets a bit sees of the threshold only its rank. *)
Lemma f64_gt_rank (c m1 m2 : float64) :
  f64_rank m1 = f64_rank m2 -> f64_gt c m1 = f64_gt c m2.
Proof.
  intros H. unfold f64_gt. rewrite !ltb_Less. f_equal.
  - apply bool_eq_iff. now rewrite !Float64Slice_Less_rank, H.
  - f_equal. apply bool_eq_iff. now rewrite !isNaN_rank, H.
Qed.

(** ** hashFromCoeffsImageHash, bit by bit *)

Lemma hashStep_range (c : Coeffs) (med : float64) (h : Z) (p : nat * nat) :
  0 <= hashStep c med h p < 2 ^ 64.
Proof.
  unfold hashStep, to_uint64, uint64_mod.
  set (h1 := Z.shiftl h 1 mod 2 ^ 64).
  assert (Hh : 0 <= h1 < 2 ^ 64) by (apply Z.mod_pos_bound; lia).
  destruct (f64_gt _ _); [|exact Hh].
  split.
  - apply Z.lor_nonneg. lia.
  - assert (Hl : Z.lor h1 1 <= h1 + 1).
    { rewrite <- Z.add_lor_land. pose proof (Z.land_nonneg h1 1). lia. }
    destruct (Z.eq_dec h1 (2 ^ 64 - 1)) as [E|E]; [|lia].
    exfalso. assert (Hb : Z.testbit h1 0 = true) by (rewrite E; reflexivity).
    unfold h1 in Hb. rewrite Z.mod_pow2_bits_low in Hb by lia.
    rewrite Z.shiftl_spec_low in Hb by lia. discriminate.
Qed.

Lemma hashStep_bit0 (c : Coeffs) (med : float64) (h : Z) (p : nat * nat) :
  Z.testbit (hashStep c med h p) 0 = f64_gt (c (fst p) (snd p)) med.
Proof.
  unfold hashStep, to_uint64, uint64_mod.
  assert (H0 : Z.testbit (Z.shiftl h 1 mod 2 ^ 64) 0 = false).
  { rewrite Z.mod_pow2_bits_low by lia. now rewrite Z.shiftl_spec_low by lia. }
  destruct (f64_gt _ _); [|exact H0].
  rewrite Z.lor_spec, H0. reflexivity.
Qed.

Lemma hashStep_bitS (c : Coeffs) (med : float64) (h : Z) (p : nat * nat) (i : Z) :
  0 <= i < 63 ->
  Z.testbit (hashStep c med h p) (i + 1) = Z.testbit h i.
Proof.
  intros Hi. unfold hashStep, to_uint64, uint64_mod.
  assert (H0 : Z.testbit (Z.shiftl h 1 mod 2 ^ 64) (i + 1) = Z.testbit h i).
  { rewrite Z.mod_pow2_bits_low by lia. rewrite Z.shiftl_spec by lia.
    f_equal. lia. }
  destruct (f64_gt _ _); [|exact H0].
  rewrite Z.lor_spec, H0.
  replace (Z.testbit 1 (i + 1)) with false; [apply orb_false_r|].
  symmetry. apply (Z.bits_above_log2 1 (i + 1)); cbn; lia.
Qed.

(** After the loop has run over [l], the last [length l] bits of [h] are the
    comparisons of [l], the last position lowest. *)
Lemma hash_fold_bits (c : Coeffs) (med : float64) (l : list (nat * nat)) (h0 : Z) (k : nat) :
  (length l <= 64)%nat -> (k < length l)%nat ->
  Z.testbit (fold_left (hashStep c med) l h0) (Z.of_nat (length l - 1 - k)) =
  (let p := nth k l (O, O) in f64_gt (c (fst p) (snd p)) med).
Proof.
  revert k. induction l as [|p l IH] using rev_ind; intros k Hlen Hk.
  - cbn in Hk. lia.
  - rewrite length_app in *. cbn [length] in *.
    rewrite fold_left_app. cbn [fold_left].
    destruct (Nat.eq_dec k (length l)) as [->|Hne].
    + replace (length l + 1 - 1 - length l)%nat with O by lia.
      rewrite hashStep_bit0, nth_middle. reflexivity.
    + replace (Z.of_nat (length l + 1 - 1 - k)) with (Z.of_nat (length l - 1 - k) + 1) by lia.
      rewrite hashStep_bitS by lia.
      rewrite IH by lia. rewrite app_nth1 by lia. reflexivity.
Qed.

Lemma rowMajor8_nth (y x : nat) :
  (y < 8)%nat -> (x < 8)%nat -> nth (8 * y + x) rowMajor8 (O, O) = (y, x).
Proof.
  intros Hy Hx.
  do 8 (destruct y as [|y]; [do 8 (destruct x as [|x]; [reflexivity|]); lia|]). lia.
Qed.

(** Every cell of the matrix decides exactly its own bit, the DC cell
    [c[0][0]] like any other. *)
Lemma hashFromCoeffsImageHash_bit (c : Coeffs) (med : float64) (y x : nat) :
  (y < 8)%nat -> (x < 8)%nat ->
  hashBit (hashFromCoeffsImageHash c med) y x = f64_gt (c y x) med.
Proof.
  intros Hy Hx. unfold hashBit, hashFromCoeffsImageHash.
  pose proof (hash_fold_bits c med rowMajor8 0 (8 * y + x)) as H.
  change (length rowMajor8) with 64%nat in H.
  replace (63 - Z.of_nat (8 * y + x)) with (Z.of_nat (64 - 1 - (8 * y + x))) by lia.
  rewrite H by lia. cbv zeta. now rewrite rowMajor8_nth.
Qed.

Lemma hashFromCoeffsImageHash_range (c : Coeffs) (med : float64) :
  0 <= hashFromCoeffsImageHash c med < 2 ^ 64.
Proof.
  unfold hashFromCoeffsImageHash.
  change rowMajor8 with (removelast rowMajor8 ++ [(7, 7)%nat]).
  rewrite fold_left_app. apply hashStep_range.
Qed.

Lemma fold_left_pointwise {A B : Type} (f g : A -> B -> A) (l : list B) (a : A) :
  (forall x y, f x y = g x y) -> fold_left f l a = fold_left g l a.
Proof.
  intros H. revert a. induction l as [|b l IH]; intros a; cbn [fold_left].
  - reflexivity.
  - now rewrite H, IH.
Qed.

(** ** The median window *)

Lemma medianWindow_length (c : Coeffs) : length (medianWindow c) = 49%nat.
Proof. reflexivity. Qed.

Lemma medianWindow_nth (c : Coeffs) (y x : nat) :
  (1 <= y < 8)%nat -> (1 <= x < 8)%nat ->
  nth (7 * (y - 1) + (x - 1)) (medianWindow c) PrimFloat.zero = c y x.
Proof.
  intros Hy Hx.
  destruct y as [|y]; [lia|]. destruct x as [|x]; [lia|].
  do 7 (destruct y as [|y]; [do 7 (destruct x as [|x]; [reflexivity|]); lia|]). lia.
Qed.

Lemma medianWindow_In (c : Coeffs) (v : float64) :
  In v (medianWindow c) <-> exists y x, (1 <= y < 8)%nat /\ (1 <= x < 8)%nat /\ v = c y x.
Proof.
  unfold medianWindow. rewrite in_flat_map. split.
  - intros (y & Hy & Hv). apply in_map_iff in Hv. destruct Hv as (x & <- & Hx).
    apply in_seq in Hy, Hx. exists y, x. repeat split; lia.
  - intros (y & x & Hy & Hx & ->). exists y. split; [apply in_seq; lia|].
    apply in_map_iff. exists x. split; [reflexivity | apply in_seq; lia].
Qed.

(** C1: the bit of position (0,0), the most significant one, is the plain
    comparison of [c[0][0]] with the median; nothing clears it after the loop.
    At the coefficients of a flat image the DC coefficient 8160 lies above the
    median 0 and the hash is [0x8000000000000000]; and [PHash] of a white
    32x32 image, which no scaler touches, has that bit set as well. *)
Theorem hashFromCoeffsImageHash_DC_bit_not_forced :
  (forall c med, hashBit (hashFromCoeffsImageHash c med) 0 0 = f64_gt (c O O) med) /\
  hashBit (hashFromCoeffsImageHash coeffsFlat (medianImageHash coeffsFlat)) 0 0 = true /\
  hashFromCoeffsImageHash coeffsFlat (medianImageHash coeffsFlat) = 2 ^ 63 /\
  (forall k1 k2 u, exists h,
     PHash (mkExternals cos32Of k1 k2 u) (Some white32) = Done h /\
     hashBit h 0 0 = true).
Proof.
  split; [|split; [|split]].
  - intros c med. apply hashFromCoeffsImageHash_bit; lia.
  - vm_compute. reflexivity.
  - vm_compute. reflexivity.
  - intros k1 k2 u. exists 0x97b4fc30b2644b97. split; vm_compute; reflexivity.
Qed.

(** C2 as worded fails on the ramp [c[y][x] = 8y + x]: the window holds 49
    coefficients, not 63; the code returns 36, below the element 44 at index 31
    of the sorted window and above the element 32 at index 31 of the sorted 63
    coefficients other than [c[0][0]]; and the hashes differ accordingly. *)
Lemma medianImageHash_index_31_counterexample :
  length (medianWindow coeffsRamp) <> 63%nat /\
  medianImageHash coeffsRamp = f64_of_Z 36 /\
  specMedianIndex31 coeffsRamp = f64_of_Z 44 /\
  specMedianNonDC coeffsRamp = f64_of_Z 32 /\
  PrimFloat.ltb (medianImageHash coeffsRamp) (specMedianIndex31 coeffsRamp) = true /\
  PrimFloat.ltb (specMedianNonDC coeffsRamp) (medianImageHash coeffsRamp) = true /\
  hashFromCoeffsImageHash coeffsRamp (medianImageHash coeffsRamp) <>
    hashFromCoeffsImageHash coeffsRamp (specMedianIndex31 coeffsRamp) /\
  hashFromCoeffsImageHash coeffsRamp (medianImageHash coeffsRamp) <>
    hashFromCoeffsImageHash coeffsRamp (specMedianNonDC coeffsRamp).
Proof.
  repeat split; try (vm_compute; reflexivity); vm_compute; discriminate.
Qed.

(** C2, amended: the threshold is the median of the 49 coefficients at rows 1
    to 7 and columns 1 to 7, collected row by row, sorted ascending, and read
    at index [floor(49/2) = 24].  Any other ascending arrangement of the window
    has at index 24 a value of the same rank, so the hash built from it is the
    same. *)
Theorem medianImageHash_window_49 (c : Coeffs) :
  length (medianWindow c) = 49%nat /\
  (forall y x, (1 <= y < 8)%nat -> (1 <= x < 8)%nat ->
     nth (7 * (y - 1) + (x - 1)) (medianWindow c) PrimFloat.zero = c y x) /\
  (forall v, In v (medianWindow c) <->
     exists y x, (1 <= y < 8)%nat /\ (1 <= x < 8)%nat /\ v = c y x) /\
  Permutation (medianWindow c) (Float64s (medianWindow c)) /\
  f64_ascending (Float64s (medianWindow c)) /\
  medianImageHash c = nth 24 (Float64s (medianWindow c)) PrimFloat.zero /\
  In (medianImageHash c) (medianWindow c) /\
  (forall s, Permutation (medianWindow c) s -> f64_ascending s ->
     f64_rank (nth 24 s PrimFloat.zero) = f64_rank (medianImageHash c) /\
     hashFromCoeffsImageHash c (nth 24 s PrimFloat.zero) =
       hashFromCoeffsImageHash c (medianImageHash c)).
Proof.
  assert (Hmed : medianImageHash c = nth 24 (Float64s (medianWindow c)) PrimFloat.zero).
  { unfold medianImageHash. cbv zeta. rewrite Float64s_length, medianWindow_length.
    reflexivity. }
  repeat match goal with |- _ /\ _ => split end.
  - apply medianWindow_length.
  - apply medianWindow_nth.
  - apply medianWindow_In.
  - apply Float64s_perm.
  - apply Float64s_ascending.
  - exact Hmed.
  - eapply Permutation_in; [apply Permutation_sym, Float64s_perm|].
    rewrite Hmed. apply nth_In. rewrite Float64s_length, medianWindow_length. lia.
  - intros s HP Hs.
    assert (Hr : f64_rank (nth 24 s PrimFloat.zero) = f64_rank (medianImageHash c)).
    { rewrite Hmed.
      rewrite <- !(map_nth f64_rank). f_equal.
      apply ascending_ranks_unique; [exact Hs | apply Float64s_ascending |].
      eapply perm_trans; [apply Permutation_sym, HP | apply Float64s_perm]. }
    split; [exact Hr|].
    unfold hashFromCoeffsImageHash. apply fold_left_pointwise. intros h p.
    unfold hashStep. now rewrite (f64_gt_rank _ _ _ Hr).
Qed.

(** ** Byte slices and the readers of encoding/binary *)

Lemma byteZ_range (b : Byte.byte) : 0 <= byteZ b < 256.
Proof.
  unfold byteZ. pose proof (Byte.to_N_bounded b) as H.
  split; [apply N2Z.is_nonneg | lia].
Qed.

Lemma byteAt_range (s : bytes) (i : Z) : 0 <= byteAt s i < 256.
Proof. apply byteZ_range. Qed.

Lemma len_nonneg {A : Type} (s : list A) : 0 <= len s.
Proof. unfold len. lia. Qed.

Lemma index_in_range (s : bytes) (i : Z) :
  0 <= i < len s -> index s i = Done (byteAt s i).
Proof.
  intros Hi. unfold index, byteAt, len in *.
  replace (0 <=? i) with true by (symmetry; apply Z.leb_le; lia).
  replace (i <? Z.of_nat (length s)) with true by (symmetry; apply Z.ltb_lt; lia).
  cbn [andb].
  destruct (nth_error s (Z.to_nat i)) as [b|] eqn:E.
  - now rewrite (nth_error_nth _ _ _ E).
  - apply nth_error_None in E. lia.
Qed.

Lemma slice_in_range {A : Type} (s : list A) (lo hi : Z) :
  0 <= lo -> lo <= hi -> hi <= len s -> slice s lo hi = Done (subslice s lo hi).
Proof.
  intros H1 H2 H3. unfold slice.
  replace (0 <=? lo) with true by (symmetry; apply Z.leb_le; lia).
  replace (lo <=? hi) with true by (symmetry; apply Z.leb_le; lia).
  replace (hi <=? len s) with true by (symmetry; apply Z.leb_le; lia).
  reflexivity.
Qed.

Lemma subslice_len {A : Type} (s : list A) (lo hi : Z) :
  0 <= lo -> lo <= hi -> hi <= len s -> len (subslice s lo hi) = hi - lo.
Proof.
  intros H1 H2 H3. unfold subslice, len in *.
  rewrite length_firstn, length_skipn. lia.
Qed.

Lemma subslice_byteAt (s : bytes) (lo hi k : Z) :
  0 <= lo -> 0 <= k < hi - lo -> byteAt (subslice s lo hi) k = byteAt s (lo + k).
Proof.
  intros H1 H2. unfold subslice, byteAt.
  rewrite nth_firstn.
  replace (Z.to_nat k <? Z.to_nat (hi - lo))%nat with true
    by (symmetry; apply Nat.ltb_lt; lia).
  rewrite nth_skipn. do 2 f_equal. lia.
Qed.

Lemma lor_shiftl_add (a b n : Z) :
  0 <= n -> 0 <= a < 2 ^ n -> Z.lor a (Z.shiftl b n) = a + b * 2 ^ n.
Proof.
  intros Hn Ha. rewrite Z.shiftl_mul_pow2 by exact Hn.
  enough (Hland : Z.land a (b * 2 ^ n) = 0)
    by (rewrite <- (Z.add_lor_land a (b * 2 ^ n)), Hland; lia).
  apply Z.bits_inj'. intros i Hi. rewrite Z.land_spec, Z.bits_0.
  destruct (Z.lt_ge_cases i n) as [Hlt|Hge].
  - rewrite Z.mul_pow2_bits_low by lia. apply andb_false_r.
  - destruct (Z.eq_dec a 0) as [->|Hne]; [now rewrite Z.bits_0|].
    rewrite (Z.bits_above_log2 a i); [reflexivity | lia |].
    apply Z.log2_lt_pow2; [lia|].
    eapply Z.lt_le_trans; [apply Ha|]. apply Z.pow_le_mono_r; lia.
Qed.

Lemma rd16_range (o : ByteOrder) (s : bytes) (i : Z) : 0 <= rd16 o s i < 65536.
Proof.
  pose proof (byteAt_range s i). pose proof (byteAt_range s (i + 1)).
  destruct o; cbn [rd16]; lia.
Qed.

Lemma rd32_range (o : ByteOrder) (s : bytes) (i : Z) : 0 <= rd32 o s i < 2 ^ 32.
Proof.
  pose proof (rd16_range o s i). pose proof (rd16_range o s (i + 2)).
  change (2 ^ 32) with 4294967296. destruct o; cbn [rd32]; lia.
Qed.

(** Reading two bytes of a slice cut out at [i] reads the buffer at [i]. *)
Lemma Uint16_subslice (o : ByteOrder) (s : bytes) (i : Z) :
  0 <= i -> i + 2 <= len s ->
  Uint16 o (subslice s i (i + 2)) = Done (rd16 o s i).
Proof.
  intros H1 H2. unfold Uint16.
  assert (Hl : len (subslice s i (i + 2)) = 2)
    by (rewrite subslice_len; lia).
  rewrite !index_in_range by lia. cbn [bind].
  rewrite !subslice_byteAt by lia. rewrite Z.add_0_r.
  pose proof (byteAt_range s i). pose proof (byteAt_range s (i + 1)).
  destruct o; cbn [rd16]; rewrite lor_shiftl_add by lia; f_equal; lia.
Qed.

Lemma Uint32_subslice (o : ByteOrder) (s : bytes) (i : Z) :
  0 <= i -> i + 4 <= len s ->
  Uint32 o (subslice s i (i + 4)) = Done (rd32 o s i).
Proof.
  intros H1 H2. unfold Uint32.
  assert (Hl : len (subslice s i (i + 4)) = 4)
    by (rewrite subslice_len; lia).
  rewrite !index_in_range by lia. cbn [bind].
  rewrite !subslice_byteAt by lia. rewrite Z.add_0_r.
  pose proof (byteAt_range s i). pose proof (byteAt_range s (i + 1)).
  pose proof (byteAt_range s (i + 2)). pose proof (byteAt_range s (i + 3)).
  replace (i + 2 + 1) with (i + 3) by lia.
  destruct o; cbn [rd32 rd16].
  - rewrite (lor_shiftl_add _ _ 8) by lia.
    rewrite (lor_shiftl_add _ _ 16) by lia.
    rewrite (lor_shiftl_add _ _ 24) by lia.
    f_equal. replace (i + 2 + 1) with (i + 3) by lia. lia.
  - rewrite (lor_shiftl_add _ _ 8) by lia.
    rewrite (lor_shiftl_add _ _ 16) by lia.
    rewrite (lor_shiftl_add _ _ 24) by lia.
    f_equal. replace (i + 2 + 1) with (i + 3) by lia. lia.
Qed.

(** The idiom [order.Uint16(s[lo:hi])] and its 32-bit sibling, inside the bounds. *)
Lemma slice_Uint16 {B : Type} (o : ByteOrder) (s : bytes) (lo hi : Z) (k : Z -> Run B) :
  0 <= lo -> hi = lo + 2 -> hi <= len s ->
  (x <- slice s lo hi ;; v <- Uint16 o x ;; k v) = k (rd16 o s lo).
Proof.
  intros H1 -> H3. rewrite slice_in_range by lia. cbn [bind].
  rewrite Uint16_subslice by lia. reflexivity.
Qed.

Lemma slice_Uint32 {B : Type} (o : ByteOrder) (s : bytes) (lo hi : Z) (k : Z -> Run B) :
  0 <= lo -> hi = lo + 4 -> hi <= len s ->
  (x <- slice s lo hi ;; v <- Uint32 o x ;; k v) = k (rd32 o s lo).
Proof.
  intros H1 -> H3. rewrite slice_in_range by lia. cbn [bind].
  rewrite Uint32_subslice by lia. reflexivity.
Qed.

(** ** Go's int at 64 bits *)

Lemma int_wrap_64 (z : Z) : - 2 ^ 63 <= z < 2 ^ 63 -> int_wrap 64 z = z.
Proof.
  intros Hz. unfold int_wrap. change (64 - 1) with 63.
  rewrite Z.mod_small; [lia|].
  change (2 ^ 64) with (2 * 2 ^ 63). lia.
Qed.

Lemma int_add_64 (a b : Z) : - 2 ^ 63 <= a + b < 2 ^ 63 -> int_add 64 a b = a + b.
Proof. apply int_wrap_64. Qed.

Lemma int_mul_64 (a b : Z) : - 2 ^ 63 <= a * b < 2 ^ 63 -> int_mul 64 a b = a * b.
Proof. apply int_wrap_64. Qed.

(** ** parseExifOrientation *)

Ltac int64_side :=
  try change (2 ^ 63) with 9223372036854775808;
  try change (2 ^ 62) with 4611686018427387904 in *;
  lia.

(** Drops the wrap-around of every [int] operation whose result provably fits. *)
Ltac int64 :=
  repeat match goal with
    | |- context [int_add 64 ?a ?b] => rewrite (int_add_64 a b) by int64_side
    | |- context [int_mul 64 ?a ?b] => rewrite (int_mul_64 a b) by int64_side
    | |- context [int_wrap 64 ?a] => rewrite (int_wrap_64 a) by int64_side
    end.

Lemma scanEntries_spec (o : ByteOrder) (tiff : bytes) (base : Z) (todo : nat) (n : Z) :
  len tiff < 2 ^ 62 -> 0 <= base <= len tiff -> 0 <= n -> n + Z.of_nat todo <= 256 ->
  exists r, scanEntries 64 o tiff base todo n = Done r /\
    forall v, r = Some v <->
      exists k, n <= k < n + Z.of_nat todo /\ entryFound o tiff base n k v.
Proof.
  intros Hlen Hbase. revert n.
  induction todo as [|todo IH]; intros n Hn Htodo.
  - exists None. split; [reflexivity|]. intros v. split; [discriminate|].
    intros (k & Hk & _). lia.
  - cbn [scanEntries]. int64.
    replace (base + n * 12) with (base + 12 * n) by lia.
    set (e := base + 12 * n).
    rewrite Z.gtb_ltb. destruct (Z.ltb_spec (len tiff) (e + 12)) as [Hout|Hin].
    { exists None. split; [reflexivity|]. intros v. split; [discriminate|].
      intros (k & Hk & He & _). cbv zeta in He. subst e. lia. }
    rewrite slice_Uint16 by (subst e; lia).
    destruct (Z.eqb_spec (rd16 o tiff e) 0x0112) as [Htag|Htag]; cbn [negb].
    + (* the orientation entry *)
      rewrite slice_Uint16 by (subst e; lia).
      rewrite slice_Uint32 by (subst e; lia).
      assert (Hfirst : forall k v, n <= k -> entryFound o tiff base n k v -> k = n).
      { intros k v Hk (_ & Hm & _).
        destruct (Z.eq_dec k n) as [|Hne]; [assumption|].
        exfalso. apply (Hm n); [lia | exact Htag]. }
      destruct (Z.eqb_spec (rd16 o tiff (e + 2)) 3) as [Htyp|Htyp]; cbn [negb orb].
      2:{ exists None. split; [reflexivity|]. intros v. split; [discriminate|].
          intros (k & Hk & Hf). pose proof (Hfirst k v (proj1 Hk) Hf) as ->.
          destruct Hf as (_ & _ & _ & Ht & _). contradiction. }
      destruct (Z.eqb_spec (rd32 o tiff (e + 4)) 1) as [Hcnt|Hcnt]; cbn [negb].
      2:{ exists None. split; [reflexivity|]. intros v. split; [discriminate|].
          intros (k & Hk & Hf). pose proof (Hfirst k v (proj1 Hk) Hf) as ->.
          destruct Hf as (_ & _ & _ & _ & Hc & _). contradiction. }
      rewrite slice_Uint16 by (subst e; lia).
      destruct (Z.leb_spec 1 (rd16 o tiff (e + 8))) as [Hv1|Hv1]; cbn [andb].
      2:{ exists None. split; [reflexivity|]. intros v. split; [discriminate|].
          intros (k & Hk & Hf). pose proof (Hfirst k v (proj1 Hk) Hf) as ->.
          destruct Hf as (_ & _ & _ & _ & _ & Hv & Hr). fold e in Hv. lia. }
      destruct (Z.leb_spec (rd16 o tiff (e + 8)) 8) as [Hv8|Hv8].
      2:{ exists None. split; [reflexivity|]. intros v. split; [discriminate|].
          intros (k & Hk & Hf). pose proof (Hfirst k v (proj1 Hk) Hf) as ->.
          destruct Hf as (_ & _ & _ & _ & _ & Hv & Hr). fold e in Hv. lia. }
      exists (Some (rd16 o tiff (e + 8))). split; [reflexivity|].
      intros v. split.
      * intros [= <-]. exists n. split; [lia|].
        unfold entryFound. cbv zeta. fold e.
        repeat split; try assumption; try lia.
      * intros (k & Hk & Hf). pose proof (Hfirst k v (proj1 Hk) Hf) as ->.
        destruct Hf as (_ & _ & _ & _ & _ & Hv & _). fold e in Hv. now subst v.
    + (* another tag: continue *)
      destruct (IH (n + 1)) as (r & Hr & Hspec); [lia | lia |].
      exists r. split; [exact Hr|]. intros v. rewrite Hspec. split.
      * intros (k & Hk & He & Hm & Hrest). exists k. split; [lia|].
        split; [exact He|]. split; [|exact Hrest].
        intros m Hmk. destruct (Z.eq_dec m n) as [->|Hne]; [exact Htag|].
        apply Hm. lia.
      * intros (k & Hk & He & Hm & Htg & Hrest).
        assert (k <> n) by (intros ->; contradiction).
        exists k. split; [lia|]. split; [exact He|]. split; [|now split].
        intros m Hmk. apply Hm. lia.
Qed.

(** On a 64-bit [int], [parseExifOrientation] returns for every buffer, and it
    finds [v] exactly when the buffer holds a well-formed orientation [v]. *)
Lemma parseExifOrientation_spec (tiff : bytes) :
  len tiff < 2 ^ 62 ->
  exists r, parseExifOrientation 64 tiff = Done r /\
    forall v, r = Some v <-> tiffOrientation tiff v.
Proof.
  intros Hlen. unfold parseExifOrientation, tiffOrientation.
  destruct (Z.ltb_spec (len tiff) 8) as [Hshort|Hlong].
  { exists None. split; [reflexivity|]. intros v. split; [discriminate|]. lia. }
  rewrite !index_in_range by lia. cbn [bind]. fold (tiffOrder tiff).
  destruct (tiffOrder tiff) as [o|].
  2:{ exists None. split; [reflexivity|]. intros v. split; [discriminate|].
      intros (_ & o & Ho & _). discriminate. }
  rewrite slice_Uint16 by lia.
  destruct (Z.eqb_spec (rd16 o tiff 2) 0x002A) as [Hmagic|Hmagic]; cbn [negb].
  2:{ exists None. split; [reflexivity|]. intros v. split; [discriminate|].
      intros (_ & o' & [= <-] & Hm & _). contradiction. }
  rewrite slice_Uint32 by lia.
  pose proof (rd32_range o tiff 4) as Hoff.
  change (2 ^ 32) with 4294967296 in Hoff.
  set (off := rd32 o tiff 4) in *.
  int64.
  destruct (Z.ltb_spec off 0) as [?|_]; [lia|]. cbn [orb].
  rewrite Z.gtb_ltb.
  destruct (Z.ltb_spec (len tiff) (off + 2)) as [Hout|Hin].
  { exists None. split; [reflexivity|]. intros v. split; [discriminate|].
    intros (_ & o' & [= <-] & _ & Hb & _). cbv zeta in Hb. fold off in Hb. lia. }
  rewrite slice_Uint16 by lia.
  pose proof (rd16_range o tiff off) as Hcnt.
  set (cnt := rd16 o tiff off) in *.
  int64.
  destruct (Z.ltb_spec cnt 0) as [?|_]; [lia|]. cbn [orb].
  rewrite Z.gtb_ltb.
  destruct (Z.ltb_spec 256 cnt) as [Hmany|Hfew].
  { exists None. split; [reflexivity|]. intros v. split; [discriminate|].
    intros (_ & o' & [= <-] & _ & _ & Hc & _). fold off cnt in Hc. lia. }
  destruct (scanEntries_spec o tiff (off + 2) (Z.to_nat cnt) 0) as (r & Hr & Hspec);
    try lia.
  exists r. split; [exact Hr|]. intros v. rewrite Hspec.
  rewrite Z2Nat.id by lia. rewrite Z.add_0_l. split.
  - intros (k & Hk & Hf). split; [lia|]. exists o.
    split; [reflexivity|]. split; [exact Hmagic|]. cbv zeta. fold off cnt.
    split; [lia|]. split; [lia|]. exists k. now split.
  - intros (_ & o' & [= <-] & _ & Hrest). cbv zeta in Hrest. fold off cnt in Hrest.
    destruct Hrest as (_ & _ & k & Hk & Hf). exists k. now split.
Qed.

(** ** exifOrientationJPEG *)

Lemma subslice_subslice {A : Type} (s : list A) (a b c d : Z) :
  0 <= a -> a <= b -> b <= len s -> 0 <= c -> c <= d -> d <= b - a ->
  subslice (subslice s a b) c d = subslice s (a + c) (a + d).
Proof.
  intros Ha Hab Hb Hc Hcd Hd. unfold subslice.
  rewrite skipn_firstn_comm, firstn_firstn, skipn_skipn.
  f_equal; [|f_equal]; lia.
Qed.

Lemma HasPrefix_subslice (s : bytes) (a b : Z) :
  0 <= a -> a + 6 <= b -> b <= len s ->
  HasPrefix (subslice s a b) exifHeader = true ->
  subslice s a (a + 6) = exifHeader.
Proof.
  intros Ha Hab Hb. unfold HasPrefix.
  destruct (list_eq_dec _ _ _) as [E|]; [|now rewrite andb_false_r].
  intros _. rewrite <- E. change (length exifHeader) with 6%nat.
  unfold subslice. rewrite firstn_firstn. f_equal. lia.
Qed.

Lemma scanMarkers_spec (fuel : nat) (data : bytes) (i : Z) :
  len data < 2 ^ 62 -> 2 <= i <= len data -> len data - i < Z.of_nat fuel ->
  exists r, scanMarkers 64 fuel data i = Done r /\
    forall v, r = Some v -> exists p, exifSegmentAt data p v.
Proof.
  intros Hlen. revert i.
  induction fuel as [|fuel IH]; intros i Hi Hfuel; [lia|].
  assert (Hnone : exists r : option Z, Done (A := option Z) None = Done r /\
                    forall v, r = Some v -> exists p, exifSegmentAt data p v).
  { exists None. split; [reflexivity | discriminate]. }
  cbn [scanMarkers]. int64.
  destruct (Z.leb_spec (i + 4) (len data)) as [Hroom|Hend]; cbn [negb];
    [|exact Hnone].
  rewrite index_in_range by lia. cbn [bind].
  destruct (Z.eqb_spec (byteAt data i) 0xFF) as [Hff|Hff]; cbn [negb].
  2:{ apply IH; lia. }
  rewrite Z.geb_leb. destruct (Z.leb_spec (len data) (i + 1)) as [?|_]; [lia|].
  rewrite index_in_range by lia. cbn [bind].
  set (marker := byteAt data (i + 1)) in *.
  destruct ((marker =? 0xD9) || (marker =? 0xDA)); [exact Hnone|].
  destruct ((marker =? 0x01) || ((0xD0 <=? marker) && (marker <=? 0xD7))).
  { apply IH; lia. }
  rewrite Z.gtb_ltb. destruct (Z.ltb_spec (len data) (i + 2 + 2)) as [?|_]; [lia|].
  rewrite slice_Uint16 by lia.
  pose proof (rd16_range BigEndian data (i + 2)) as Hseg.
  set (segLen := rd16 BigEndian data (i + 2)) in *.
  int64.
  destruct (Z.ltb_spec segLen 2) as [_|Hseg2]; [exact Hnone|].
  rewrite Z.gtb_ltb.
  destruct (Z.ltb_spec (len data) (i + 2 + segLen)) as [_|Hfit]; [exact Hnone|].
  destruct (Z.eqb_spec marker 0xE1) as [He1|He1]; cbn [andb].
  2:{ apply IH; lia. }
  rewrite Z.geb_leb. destruct (Z.leb_spec 8 segLen) as [Hseg8|Hseg8].
  2:{ apply IH; lia. }
  rewrite slice_in_range by lia. cbn [bind].
  rewrite subslice_len by lia.
  rewrite Z.geb_leb. destruct (Z.leb_spec 6 (i + 2 + segLen - (i + 2 + 2))) as [_|?];
    [|lia]. cbn [andb].
  destruct (HasPrefix _ exifHeader) eqn:Hpre.
  2:{ apply IH; lia. }
  unfold sliceFrom. rewrite subslice_len by lia.
  rewrite slice_in_range by (rewrite ?subslice_len; lia). cbn [bind].
  rewrite subslice_subslice by lia.
  replace (i + 2 + 2 + (i + 2 + segLen - (i + 2 + 2))) with (i + 2 + segLen) by lia.
  replace (i + 2 + 2 + 6) with (i + 10) by lia.
  destruct (parseExifOrientation_spec (subslice data (i + 10) (i + 2 + segLen)))
    as (r & Hr & Hspec).
  { rewrite subslice_len by lia. lia. }
  rewrite Hr. cbn [bind].
  destruct r as [orientation|].
  2:{ apply IH; lia. }
  exists (Some orientation). split; [reflexivity|].
  intros v [= <-]. exists i.
  unfold exifSegmentAt. cbv zeta. fold marker segLen.
  split; [lia|]. split; [exact Hff|]. split; [exact He1|].
  split; [exact Hseg8|]. split; [exact Hfit|]. split.
  - replace (i + 4) with (i + 2 + 2) by lia. replace (i + 10) with (i + 2 + 2 + 6) by lia.
    eapply HasPrefix_subslice; [| | |exact Hpre]; lia.
  - now apply Hspec.
Qed.

Lemma tiffOrientation_range (tiff : bytes) (v : Z) : tiffOrientation tiff v -> 1 <= v <= 8.
Proof.
  intros (_ & o & _ & _ & H). cbv zeta in H.
  destruct H as (_ & _ & k & _ & Hf). unfold entryFound in Hf. cbv zeta in Hf.
  destruct Hf as (_ & _ & _ & _ & _ & _ & Hrange). exact Hrange.
Qed.

Lemma exifSegmentAt_range (data : bytes) (p v : Z) : exifSegmentAt data p v -> 1 <= v <= 8.
Proof.
  intros (_ & _ & _ & H). cbv zeta in H. destruct H as (_ & _ & _ & H).
  now apply tiffOrientation_range in H.
Qed.

(** With Go's [int] at 64 bits, the detector returns on every byte
    sequence: it neither panics on an index or slice bound nor runs on.  What
    it finds lies between 1 and 8 and comes from a JPEG that starts with the
    SOI marker and has an APP1 segment, whole inside the buffer and signed
    "Exif\0\0", whose TIFF structure is well formed; every other input, so
    every structural inconsistency, gives "not found".  [parseExifOrientation]
    likewise returns on every buffer, and finds [v] exactly when the buffer
    holds a well-formed orientation [v]. *)
Theorem exifOrientationJPEG_never_panics (data : bytes) :
  len data < 2 ^ 62 ->
  (exists r, exifOrientationJPEG 64 data = Done r /\
     forall v, r = Some v ->
       1 <= v <= 8 /\ 4 <= len data /\
       byteAt data 0 = 0xFF /\ byteAt data 1 = 0xD8 /\
       exists p, exifSegmentAt data p v) /\
  (exists r, parseExifOrientation 64 data = Done r /\
     forall v, r = Some v <-> tiffOrientation data v).
Proof.
  intros Hlen. split; [|now apply parseExifOrientation_spec].
  unfold exifOrientationJPEG.
  destruct (Z.ltb_spec (len data) 4) as [Hshort|Hlong].
  { exists None. split; [reflexivity | discriminate]. }
  rewrite !index_in_range by lia. cbn [bind].
  destruct (Z.eqb_spec (byteAt data 0) 0xFF) as [H0|H0]; cbn [negb orb].
  2:{ exists None. split; [reflexivity | discriminate]. }
  destruct (Z.eqb_spec (byteAt data 1) 0xD8) as [H1|H1]; cbn [negb].
  2:{ exists None. split; [reflexivity | discriminate]. }
  destruct (scanMarkers_spec (length data) data 2) as (r & Hr & Hspec);
    [exact Hlen | lia | unfold len; lia |].
  exists r. split; [exact Hr|]. intros v Hv.
  destruct (Hspec v Hv) as (p & Hp).
  split; [now apply exifSegmentAt_range in Hp|].
  split; [exact Hlong|]. split; [exact H0|]. split; [exact H1|]. now exists p.
Qed.

Lemma exifOrientationJPEG_never_panics_witness :
  len (jpegWithOrientation 6) < 2 ^ 62 /\
  exifOrientationJPEG 64 (jpegWithOrientation 6) = Done (Some 6) /\
  ((exists r, exifOrientationJPEG 64 (jpegWithOrientation 6) = Done r /\
      forall v, r = Some v ->
        1 <= v <= 8 /\ 4 <= len (jpegWithOrientation 6) /\
        byteAt (jpegWithOrientation 6) 0 = 0xFF /\ byteAt (jpegWithOrientation 6) 1 = 0xD8 /\
        exists p, exifSegmentAt (jpegWithOrientation 6) p v) /\
   (exists r, parseExifOrientation 64 (jpegWithOrientation 6) = Done r /\
      forall v, r = Some v <-> tiffOrientation (jpegWithOrientation 6) v)).
Proof.
  split; [vm_compute; reflexivity|].
  split; [vm_compute; reflexivity|].
  apply (exifOrientationJPEG_never_panics (jpegWithOrientation 6)).
  vm_compute; reflexivity.
Defined.

(** On a 32-bit [int] the guard [ifdOffset+2 > len(tiff)] wraps around for an
    IFD offset of [0x7FFFFFFE], and the slice expression after it panics. *)
Lemma parseExifOrientation_int32_wraps :
  parseExifOrientation 32 tiffHugeOffset = Panics /\
  exifOrientationJPEG 32 jpegHugeOffset = Panics /\
  exifOrientationJPEG 64 jpegHugeOffset = Done None.
Proof. repeat split; vm_compute; reflexivity. Qed.

(** C4: the detector does not keep to "not found" on every malformed input.
    With Go's [int] at 32 bits, the 20-byte input [jpegHugeOffset] carries the
    IFD offset [0x7FFFFFFE]: it is not negative, [ifdOffset+2] wraps around to
    [-2^31], so the guard [ifdOffset+2 > len(tiff)] lets it through, and the
    slice expression [tiff[ifdOffset:ifdOffset+2]] panics; the panic goes up
    through [exifOrientationJPEG] and [applyEXIFOrientation].  With [int] at
    64 bits the same input gives "not found", and so does every malformed
    input shorter than [2^62] bytes: the detector returns on all of them, and
    what it finds comes from a well-formed structure. *)
Theorem exifOrientationJPEG_faults_on_32_bit_int :
  len jpegHugeOffset = 20 /\
  int_wrap 32 0x7FFFFFFE = 0x7FFFFFFE /\
  int_add 32 0x7FFFFFFE 2 = - 2 ^ 31 /\
  parseExifOrientation 32 tiffHugeOffset = Panics /\
  exifOrientationJPEG 32 jpegHugeOffset = Panics /\
  (forall img, applyEXIFOrientation 32 img jpegHugeOffset = Panics) /\
  exifOrientationJPEG 64 jpegHugeOffset = Done None /\
  (forall data, len data < 2 ^ 62 ->
     exists r, exifOrientationJPEG 64 data = Done r /\
       forall v, r = Some v ->
         1 <= v <= 8 /\ 4 <= len data /\
         byteAt data 0 = 0xFF /\ byteAt data 1 = 0xD8 /\
         exists p, exifSegmentAt data p v).
Proof.
  assert (E32 : exifOrientationJPEG 32 jpegHugeOffset = Panics)
    by (vm_compute; reflexivity).
  split; [vm_compute; reflexivity|].
  split; [vm_compute; reflexivity|].
  split; [vm_compute; reflexivity|].
  split; [vm_compute; reflexivity|].
  split; [exact E32|].
  split.
  { intros img. unfold applyEXIFOrientation. rewrite E32. reflexivity. }
  split; [vm_compute; reflexivity|].
  intros data Hlen. exact (proj1 (exifOrientationJPEG_never_panics data Hlen)).
Qed.

(** C9: an input shorter than 4 bytes gives "not found", whatever its bytes
    are, and so also when it is the SOI marker alone. *)
Theorem exifOrientationJPEG_short_input (W : Z) (data : bytes) :
  len data < 4 -> exifOrientationJPEG W data = Done None.
Proof.
  intros H. unfold exifOrientationJPEG.
  destruct (Z.ltb_spec (len data) 4) as [_|?]; [reflexivity | lia].
Qed.

Lemma exifOrientationJPEG_short_input_witness :
  len (bytesOf [0xFF; 0xD8]) < 4 /\
  exifOrientationJPEG 64 (bytesOf [0xFF; 0xD8]) = Done None.
Proof.
  split; [vm_compute; reflexivity|].
  apply (exifOrientationJPEG_short_input 64 (bytesOf [0xFF; 0xD8])).
  vm_compute; reflexivity.
Defined.

(** ** The transforms of rotate.go are instances of the two loop shapes *)

Lemma flipHorizontal_remap img : flipHorizontal img = remap true flipHorizontalGeom img.
Proof. destruct img; reflexivity. Qed.

Lemma flipVertical_remap img : flipVertical img = remap true flipVerticalGeom img.
Proof. destruct img; reflexivity. Qed.

Lemma rotate180_remap img : rotate180 img = remap true rotate180Geom img.
Proof. destruct img; reflexivity. Qed.

Lemma rotate90_remap img : rotate90 img = remap true rotate90Geom img.
Proof. destruct img; reflexivity. Qed.

Lemma rotate270_remap img : rotate270 img = remap true rotate270Geom img.
Proof. destruct img; reflexivity. Qed.

Lemma transpose_remap img : transpose img = remap false transposeGeom img.
Proof. destruct img; reflexivity. Qed.

Lemma transverse_remap img : transverse img = remap false transverseGeom img.
Proof. destruct img; reflexivity. Qed.

(** ** Loops and slices *)

Lemma forRange_inv {St : Type} (I : Z -> St -> Prop) (n : nat) (i0 : Z)
      (body : Z -> St -> Run St) (s : St) :
  I i0 s ->
  (forall i s, i0 <= i < i0 + Z.of_nat n -> I i s ->
     exists s', body i s = Done s' /\ I (i + 1) s') ->
  exists s', forRange n i0 body s = Done s' /\ I (i0 + Z.of_nat n) s'.
Proof.
  revert i0 s. induction n as [|n IH]; intros i0 s H0 Hstep.
  - exists s. split; [reflexivity|]. now replace (i0 + Z.of_nat 0) with i0 by lia.
  - cbn [forRange].
    destruct (Hstep i0 s) as (s1 & Hb & H1); [lia | exact H0 |].
    rewrite Hb. cbn [bind].
    destruct (IH (i0 + 1) s1 H1) as (s' & Hr & HI).
    { intros i s2 Hi. apply Hstep. lia. }
    exists s'. split; [exact Hr|].
    now replace (i0 + Z.of_nat (S n)) with (i0 + 1 + Z.of_nat n) by lia.
Qed.

Lemma nth_subslice {A : Type} (s : list A) (lo hi k : Z) (d : A) :
  0 <= lo -> 0 <= k < hi - lo ->
  nth (Z.to_nat k) (subslice s lo hi) d = nth (Z.to_nat (lo + k)) s d.
Proof.
  intros H1 H2. unfold subslice.
  rewrite nth_firstn.
  replace (Z.to_nat k <? Z.to_nat (hi - lo))%nat with true
    by (symmetry; apply Nat.ltb_lt; lia).
  rewrite nth_skipn. f_equal. lia.
Qed.

Lemma spliceAt_len (pix : list Z) (o : Z) (v : list Z) :
  0 <= o -> o + len v <= len pix -> len (spliceAt pix o v) = len pix.
Proof.
  unfold spliceAt, len. intros H1 H2.
  rewrite !length_app, length_firstn, length_skipn. lia.
Qed.

Lemma nth_spliceAt (pix : list Z) (o : Z) (v : list Z) (i : Z) (d : Z) :
  0 <= o -> o + len v <= len pix -> 0 <= i ->
  nth (Z.to_nat i) (spliceAt pix o v) d =
  if (o <=? i) && (i <? o + len v) then nth (Z.to_nat (i - o)) v d
  else nth (Z.to_nat i) pix d.
Proof.
  unfold spliceAt, len. intros H1 H2 H3.
  assert (Hf : length (firstn (Z.to_nat o) pix) = Z.to_nat o)
    by (rewrite length_firstn; lia).
  destruct (Z.leb_spec o i) as [Hoi|Hoi]; cbn [andb].
  - rewrite app_nth2 by lia. rewrite Hf.
    destruct (Z.ltb_spec i (o + Z.of_nat (length v))) as [Hiv|Hiv].
    + rewrite app_nth1 by lia. f_equal. lia.
    + rewrite app_nth2 by lia. rewrite nth_skipn. f_equal. lia.
  - rewrite app_nth1 by lia. rewrite nth_firstn.
    replace (Z.to_nat i <? Z.to_nat o)%nat with true
      by (symmetry; apply Nat.ltb_lt; lia).
    reflexivity.
Qed.

Lemma subslice_length {A : Type} (s : list A) (lo hi : Z) :
  0 <= lo -> lo <= hi -> hi <= len s -> length (subslice s lo hi) = Z.to_nat (hi - lo).
Proof.
  intros H1 H2 H3. pose proof (subslice_len s lo hi H1 H2 H3) as H.
  unfold len in H. lia.
Qed.

Lemma subslice_spliceAt_same (pix : list Z) (o : Z) (v : list Z) :
  0 <= o -> o + len v <= len pix ->
  subslice (spliceAt pix o v) o (o + len v) = v.
Proof.
  intros H1 H2.
  assert (Hl : len (spliceAt pix o v) = len pix) by now apply spliceAt_len.
  apply (nth_ext _ _ 0 0).
  - rewrite subslice_length by (unfold len in *; lia). unfold len. lia.
  - intros n Hn. rewrite subslice_length in Hn by (unfold len in *; lia).
    replace n with (Z.to_nat (Z.of_nat n)) by lia.
    rewrite nth_subslice by (unfold len in *; lia).
    rewrite nth_spliceAt by (unfold len in *; lia).
    replace (o <=? o + Z.of_nat n) with true by (symmetry; apply Z.leb_le; lia).
    replace (o + Z.of_nat n <? o + len v) with true
      by (symmetry; apply Z.ltb_lt; unfold len in *; lia).
    cbn [andb]. f_equal. lia.
Qed.

Lemma subslice_spliceAt_apart (pix : list Z) (o : Z) (v : list Z) (a b : Z) :
  0 <= o -> o + len v <= len pix -> 0 <= a -> a <= b -> b <= len pix ->
  b <= o \/ o + len v <= a ->
  subslice (spliceAt pix o v) a b = subslice pix a b.
Proof.
  intros H1 H2 H3 H4 H5 H6.
  assert (Hl : len (spliceAt pix o v) = len pix) by now apply spliceAt_len.
  apply (nth_ext _ _ 0 0).
  - rewrite !subslice_length by lia. reflexivity.
  - intros n Hn. rewrite subslice_length in Hn by lia.
    replace n with (Z.to_nat (Z.of_nat n)) by lia.
    rewrite !nth_subslice by lia.
    rewrite nth_spliceAt by lia.
    destruct (Z.leb_spec o (a + Z.of_nat n)); cbn [andb]; [|reflexivity].
    destruct (Z.ltb_spec (a + Z.of_nat n) (o + len v)); [lia | reflexivity].
Qed.

(** ** The pixel loop *)

Section PixelLoop.
Variables (w h L : Z).
Variable off : Z -> Z -> Z.
Variable val : Z -> Z -> list Z.
Variable write : Z -> Z -> list Z -> Run (list Z).

Hypothesis off_inside : forall x y, 0 <= x < w -> 0 <= y < h ->
  0 <= off x y /\ off x y + 4 <= L.
Hypothesis off_apart : forall x y x' y', 0 <= x < w -> 0 <= y < h ->
  0 <= x' < w -> 0 <= y' < h -> (x <> x' \/ y <> y') ->
  off x y + 4 <= off x' y' \/ off x' y' + 4 <= off x y.
Hypothesis val_len : forall x y, 0 <= x < w -> 0 <= y < h -> len (val x y) = 4.
Hypothesis write_splices : forall x y pix, 0 <= x < w -> 0 <= y < h -> len pix = L ->
  write x y pix = Done (spliceAt pix (off x y) (val x y)).

Local Abbreviation writtenUpTo := (writtenUpTo w h L off val).

Lemma write_step (x y : Z) (pix : list Z) :
  0 <= x < w -> 0 <= y < h -> writtenUpTo y x pix ->
  exists pix', write x y pix = Done pix' /\ writtenUpTo y (x + 1) pix'.
Proof.
  intros Hx Hy [Hlen Hdone].
  exists (spliceAt pix (off x y) (val x y)).
  split; [now apply write_splices|].
  pose proof (off_inside x y Hx Hy) as Hin.
  pose proof (val_len x y Hx Hy) as Hv.
  split; [rewrite spliceAt_len; lia|].
  intros x' y' Hx' Hy' Hbefore.
  destruct (Z.eq_dec x' x) as [->|Hnx]; [destruct (Z.eq_dec y' y) as [->|Hny]|].
  - replace (off x y + 4) with (off x y + len (val x y)) by lia.
    apply subslice_spliceAt_same; lia.
  - pose proof (off_inside x y' Hx Hy').
    pose proof (off_apart x y x y' Hx Hy Hx Hy' (or_intror (not_eq_sym Hny))).
    rewrite subslice_spliceAt_apart by lia. apply Hdone; [assumption..|lia].
  - pose proof (off_inside x' y' Hx' Hy').
    pose proof (off_apart x y x' y' Hx Hy Hx' Hy' (or_introl (not_eq_sym Hnx))).
    rewrite subslice_spliceAt_apart by lia. apply Hdone; [assumption..|lia].
Qed.

Lemma pixelLoop_spec (pix0 : list Z) :
  len pix0 = L ->
  exists pix,
    forRange (Z.to_nat h) 0
      (fun y pix => forRange (Z.to_nat w) 0 (fun x pix => write x y pix) pix) pix0
    = Done pix /\
    len pix = L /\
    forall x y, 0 <= x < w -> 0 <= y < h ->
      subslice pix (off x y) (off x y + 4) = val x y.
Proof.
  intros H0.
  destruct (forRange_inv (fun y pix => writtenUpTo y 0 pix) (Z.to_nat h) 0
              (fun y pix => forRange (Z.to_nat w) 0 (fun x pix => write x y pix) pix) pix0)
    as (pix & Hrun & Hlen & Hall).
  - split; [exact H0|]. intros x' y' Hx' Hy' Hb. lia.
  - intros y pix Hy Hinv.
    destruct (forRange_inv (fun x pix => writtenUpTo y x pix) (Z.to_nat w) 0
                (fun x pix => write x y pix) pix Hinv) as (pix' & Hrun & Hlen & Hall).
    + intros x pix1 Hx Hinv1. apply write_step; [lia | lia | exact Hinv1].
    + exists pix'. split; [exact Hrun|]. split; [exact Hlen|].
      intros x' y' Hx' Hy' Hb. apply Hall; [assumption..|lia].
  - exists pix. split; [exact Hrun|]. split; [exact Hlen|].
    intros x y Hx Hy. apply Hall; [assumption..|lia].
Qed.
End PixelLoop.

(** ** The three ways a pixel is written *)

Lemma copy4_splices (pix : list Z) (do_ : Z) (src : list Z) (so : Z) :
  0 <= do_ -> do_ + 4 <= len pix -> 0 <= so -> so + 4 <= len src ->
  copy4 pix do_ src so = Done (spliceAt pix do_ (subslice src so (so + 4))).
Proof.
  intros H1 H2 H3 H4. unfold copy4.
  rewrite !slice_in_range by lia. reflexivity.
Qed.

Lemma load_in_range (pix : list Z) (i : Z) :
  0 <= i < len pix -> load pix i = Done (nth (Z.to_nat i) pix 0).
Proof.
  intros H. unfold load.
  replace (0 <=? i) with true by (symmetry; apply Z.leb_le; lia).
  replace (i <? len pix) with true by (symmetry; apply Z.ltb_lt; lia).
  reflexivity.
Qed.

Lemma store_in_range (pix : list Z) (i v : Z) :
  0 <= i < len pix -> store pix i v = Done (spliceAt pix i [v]).
Proof.
  intros H. unfold store.
  replace (0 <=? i) with true by (symmetry; apply Z.leb_le; lia).
  replace (i <? len pix) with true by (symmetry; apply Z.ltb_lt; lia).
  reflexivity.
Qed.

Lemma spliceAt_app (pix : list Z) (o : Z) (u v : list Z) :
  0 <= o -> o + len u + len v <= len pix ->
  spliceAt (spliceAt pix o u) (o + len u) v = spliceAt pix o (u ++ v).
Proof.
  intros H1 H2.
  assert (Hu : len (spliceAt pix o u) = len pix)
    by (apply spliceAt_len; unfold len in *; lia).
  assert (Huv : len (u ++ v) = len u + len v)
    by (unfold len; rewrite length_app; lia).
  apply (nth_ext _ _ 0 0).
  - pose proof (spliceAt_len (spliceAt pix o u) (o + len u) v).
    pose proof (spliceAt_len pix o (u ++ v)).
    unfold len in *. lia.
  - intros n Hn. replace n with (Z.to_nat (Z.of_nat n)) by lia.
    rewrite !nth_spliceAt by (unfold len in *; lia).
    rewrite Huv, Z.add_assoc.
    destruct (Z.leb_spec (o + len u) (Z.of_nat n)) as [Ha|Ha];
      destruct (Z.ltb_spec (Z.of_nat n) (o + len u + len v)) as [Hb|Hb];
      destruct (Z.leb_spec o (Z.of_nat n)) as [Hc|Hc];
      destruct (Z.ltb_spec (Z.of_nat n) (o + len u)) as [Hd|Hd];
      cbn [andb]; try (unfold len in *; lia); try reflexivity.
    + rewrite app_nth2 by (unfold len in *; lia). f_equal. unfold len. lia.
    + rewrite app_nth1 by (unfold len in *; lia). reflexivity.
Qed.

Lemma rgbaModel_shape (c : Color) :
  exists r g b a, rgbaModel c = [r; g; b; a].
Proof.
  destruct c as [R G B A|R G B A|r g b a]; cbn [rgbaModel Color_RGBA]; eauto.
Qed.

Lemma rgbaModel_len (c : Color) : len (rgbaModel c) = 4.
Proof. destruct (rgbaModel_shape c) as (r & g & b & a & ->). reflexivity. Qed.

Lemma colorOf_subslice (mk : Z -> Z -> Z -> Z -> Color) (src : list Z) (so : Z) :
  0 <= so ->
  colorOf mk (subslice src so (so + 4)) =
  mk (nth (Z.to_nat so) src 0) (nth (Z.to_nat (so + 1)) src 0)
     (nth (Z.to_nat (so + 2)) src 0) (nth (Z.to_nat (so + 3)) src 0).
Proof.
  intros H. unfold colorOf.
  pose proof (nth_subslice src so (so + 4) 0 0) as E0.
  pose proof (nth_subslice src so (so + 4) 1 0) as E1.
  pose proof (nth_subslice src so (so + 4) 2 0) as E2.
  pose proof (nth_subslice src so (so + 4) 3 0) as E3.
  rewrite Z.add_0_r in E0.
  change (Z.to_nat 0) with 0%nat in E0. change (Z.to_nat 1) with 1%nat in E1.
  change (Z.to_nat 2) with 2%nat in E2. change (Z.to_nat 3) with 3%nat in E3.
  rewrite E0, E1, E2, E3 by lia. reflexivity.
Qed.

Lemma convertNRGBA_splices (pix : list Z) (do_ : Z) (src : list Z) (so : Z) :
  0 <= do_ -> do_ + 4 <= len pix -> 0 <= so -> so + 4 <= len src ->
  convertNRGBA pix do_ src so =
  Done (spliceAt pix do_ (rgbaModel (colorOf ColorNRGBA (subslice src so (so + 4))))).
Proof.
  intros H1 H2 H3 H4. unfold convertNRGBA.
  rewrite !load_in_range by lia. cbn [bind].
  rewrite colorOf_subslice by lia.
  destruct (rgbaModel_shape
              (ColorNRGBA (nth (Z.to_nat so) src 0) (nth (Z.to_nat (so + 1)) src 0)
                          (nth (Z.to_nat (so + 2)) src 0) (nth (Z.to_nat (so + 3)) src 0)))
    as (r & g & b & a & ->).
  cbn [nth Z.to_nat Pos.to_nat Pos.iter_op Nat.add].
  rewrite store_in_range by lia. cbn [bind].
  assert (L1 : len (spliceAt pix do_ [r]) = len pix)
    by (apply spliceAt_len; cbn; lia).
  rewrite store_in_range by lia. cbn [bind].
  change (do_ + 1) with (do_ + len [r]) at 1.
  rewrite spliceAt_app by (cbn; lia). cbn [app].
  assert (L2 : len (spliceAt pix do_ [r; g]) = len pix)
    by (apply spliceAt_len; cbn; lia).
  rewrite store_in_range by lia. cbn [bind].
  change (do_ + 2) with (do_ + len [r; g]) at 1.
  rewrite spliceAt_app by (cbn; lia). cbn [app].
  assert (L3 : len (spliceAt pix do_ [r; g; b]) = len pix)
    by (apply spliceAt_len; cbn; lia).
  rewrite store_in_range by lia.
  change (do_ + 3) with (do_ + len [r; g; b]) at 1.
  rewrite spliceAt_app by (cbn; lia). reflexivity.
Qed.

Lemma RGBA_Set_splices (dst : PixImage) (pix : list Z) (x y : Z) (c : Color) :
  PointIn x y (Rect dst) = true ->
  0 <= PixOffset dst x y -> PixOffset dst x y + 4 <= len pix ->
  RGBA_Set dst pix x y c = Done (spliceAt pix (PixOffset dst x y) (rgbaModel c)).
Proof.
  intros Hin H1 H2. unfold RGBA_Set. rewrite Hin. cbn [negb].
  rewrite slice_in_range by lia. reflexivity.
Qed.

(** ** Offsets in a fresh destination and in a well-formed source *)

Lemma wfImage_bounds (img : Image) : wfImage img -> wfRect (Bounds img).
Proof. destruct img as [p|p|p|b f]; cbn; unfold wfPix; tauto. Qed.

Lemma NewRGBA_canonical (w h : Z) :
  0 <= w -> 0 <= h -> canonicalRGBA (NewRGBA (image_Rect 0 0 w h)) w h.
Proof.
  intros Hw Hh. unfold canonicalRGBA, NewRGBA, image_Rect, Dx, Dy.
  cbn [Rect Stride Pix MaxX MinX MaxY MinY].
  rewrite !Z.min_l, !Z.max_r by lia. rewrite !Z.sub_0_r.
  repeat split. unfold len. rewrite repeat_length. nia.
Qed.

Lemma canonical_PixOffset (p : PixImage) (w h x y : Z) :
  canonicalRGBA p w h -> PixOffset p x y = 4 * (y * w + x).
Proof.
  intros (HR & HS & _). unfold PixOffset. rewrite HR, HS.
  cbn [MinX MinY]. lia.
Qed.

Lemma canonical_PointIn (p : PixImage) (w h x y : Z) :
  canonicalRGBA p w h -> 0 <= x < w -> 0 <= y < h -> PointIn x y (Rect p) = true.
Proof.
  intros (HR & _) Hx Hy. unfold PointIn. rewrite HR. cbn [MinX MinY MaxX MaxY].
  repeat (apply andb_true_intro; split); first [apply Z.leb_le | apply Z.ltb_lt]; lia.
Qed.

Lemma cell_inside (w h x y : Z) :
  0 <= x < w -> 0 <= y < h -> 0 <= 4 * (y * w + x) /\ 4 * (y * w + x) + 4 <= 4 * w * h.
Proof. intros Hx Hy. nia. Qed.

Lemma cell_apart (w h x y x' y' : Z) :
  0 <= x < w -> 0 <= y < h -> 0 <= x' < w -> 0 <= y' < h ->
  (x, y) <> (x', y') ->
  4 * (y * w + x) + 4 <= 4 * (y' * w + x') \/ 4 * (y' * w + x') + 4 <= 4 * (y * w + x).
Proof.
  intros Hx Hy Hx' Hy' Hne.
  destruct (Z.lt_total y y') as [Hlt|[Heq|Hgt]].
  - left. nia.
  - subst y'. assert (x <> x') by congruence. nia.
  - right. nia.
Qed.

Lemma PointIn_bounds (r : Rectangle) (x y : Z) :
  0 <= x < Dx r -> 0 <= y < Dy r -> PointIn (MinX r + x) (MinY r + y) r = true.
Proof.
  unfold Dx, Dy, PointIn. intros Hx Hy.
  repeat (apply andb_true_intro; split); first [apply Z.leb_le | apply Z.ltb_lt]; lia.
Qed.

Lemma wfPix_offset (bpp : Z) (p : PixImage) (x y : Z) :
  0 < bpp -> wfPix bpp p -> 0 <= x < Dx (Rect p) -> 0 <= y < Dy (Rect p) ->
  0 <= y * Stride p + x * bpp /\ y * Stride p + x * bpp + bpp <= len (Pix p).
Proof.
  intros Hb (_ & Hwf) Hx Hy. destruct Hwf as [HS HL]; [lia | lia |].
  set (S' := Stride p) in *. set (w := Dx (Rect p)) in *. set (h := Dy (Rect p)) in *.
  assert (H1 : 0 <= bpp * w) by (apply Z.mul_nonneg_nonneg; lia).
  assert (H2 : 0 <= y * S') by (apply Z.mul_nonneg_nonneg; lia).
  assert (H3 : 0 <= x * bpp) by (apply Z.mul_nonneg_nonneg; lia).
  assert (H4 : y * S' <= (h - 1) * S') by (apply Z.mul_le_mono_nonneg_r; lia).
  assert (H5 : (x + 1) * bpp <= w * bpp) by (apply Z.mul_le_mono_nonneg_r; lia).
  lia.
Qed.

(** Within its bounds, [At] returns, and returns the colour of the pixel. *)
Lemma At_colorAt (img : Image) (x y : Z) :
  wfImage img -> 0 <= x < Dx (Bounds img) -> 0 <= y < Dy (Bounds img) ->
  At img (MinX (Bounds img) + x) (MinY (Bounds img) + y) =
  Done (colorAt img (MinX (Bounds img) + x) (MinY (Bounds img) + y)).
Proof.
  intros Hwf Hx Hy.
  destruct img as [p|p|p|b f]; cbn [At colorAt Bounds] in *.
  - unfold pixelAt. rewrite PointIn_bounds by assumption. cbn [negb].
    pose proof (wfPix_offset 4 p x y ltac:(lia) Hwf Hx Hy) as Ho.
    assert (E : PixOffset p (MinX (Rect p) + x) (MinY (Rect p) + y) = y * Stride p + x * 4)
      by (unfold PixOffset; f_equal; lia).
    rewrite slice_in_range by (rewrite E; lia). reflexivity.
  - unfold pixelAt. rewrite PointIn_bounds by assumption. cbn [negb].
    pose proof (wfPix_offset 4 p x y ltac:(lia) Hwf Hx Hy) as Ho.
    assert (E : PixOffset p (MinX (Rect p) + x) (MinY (Rect p) + y) = y * Stride p + x * 4)
      by (unfold PixOffset; f_equal; lia).
    rewrite slice_in_range by (rewrite E; lia). reflexivity.
  - rewrite PointIn_bounds by assumption. cbn [negb].
    pose proof (wfPix_offset 1 p x y ltac:(lia) Hwf Hx Hy) as Ho.
    assert (E : GrayPixOffset p (MinX (Rect p) + x) (MinY (Rect p) + y)
                = y * Stride p + x * 1)
      by (unfold GrayPixOffset; f_equal; lia).
    rewrite load_in_range by (rewrite E; lia). reflexivity.
  - reflexivity.
Qed.

(** ** Every transform does what its geometry says *)

Section Remap.
Variable g : Geometry.
Hypothesis Hg : goodGeometry g.
Variable img : Image.
Hypothesis Hwf : wfImage img.

Let b := Bounds img.
Let w := Dx b.
Let h := Dy b.
Let dst := NewRGBA (image_Rect 0 0 (dstW g w h) (dstH g w h)).
Let off (x y : Z) := PixOffset dst (fst (dstOf g w h x y)) (snd (dstOf g w h x y)).
Let val (x y : Z) :=
  rgbaModel (colorAt img (MinX b + fst (srcOf g w h x y)) (MinY b + snd (srcOf g w h x y))).

Lemma remap_size : 0 <= w /\ 0 <= h /\ 0 <= dstW g w h /\ 0 <= dstH g w h.
Proof.
  destruct (wfImage_bounds img Hwf) as [H1 H2].
  unfold w, h, b, Dx, Dy, dstW, dstH. destruct (swaps g); lia.
Qed.

Lemma remap_dst_canonical : canonicalRGBA dst (dstW g w h) (dstH g w h).
Proof. apply NewRGBA_canonical; apply remap_size. Qed.

Lemma remap_off (x y : Z) :
  off x y = 4 * (snd (dstOf g w h x y) * dstW g w h + fst (dstOf g w h x y)).
Proof. unfold off. apply (canonical_PixOffset _ _ _ _ _ remap_dst_canonical). Qed.

Lemma remap_off_inside (x y : Z) :
  0 <= x < w -> 0 <= y < h ->
  0 <= off x y /\ off x y + 4 <= 4 * dstW g w h * dstH g w h.
Proof.
  intros Hx Hy. rewrite remap_off.
  destruct (Hg w h x y Hx Hy) as ((Hdx & Hdy & _) & _).
  apply cell_inside; assumption.
Qed.

Lemma remap_off_apart (x y x' y' : Z) :
  0 <= x < w -> 0 <= y < h -> 0 <= x' < w -> 0 <= y' < h -> (x <> x' \/ y <> y') ->
  off x y + 4 <= off x' y' \/ off x' y' + 4 <= off x y.
Proof.
  intros Hx Hy Hx' Hy' Hne. rewrite !remap_off.
  destruct (Hg w h x y Hx Hy) as ((Hdx & Hdy & _) & Hinj).
  destruct (Hg w h x' y' Hx' Hy') as ((Hdx' & Hdy' & _) & _).
  apply (cell_apart (dstW g w h) (dstH g w h)); try assumption.
  intros E.
  assert (E' : dstOf g w h x y = dstOf g w h x' y').
  { destruct (dstOf g w h x y), (dstOf g w h x' y'). exact E. }
  destruct (Hinj x' y' Hx' Hy' E'). lia.
Qed.

Lemma remap_loop (write : Z -> Z -> list Z -> Run (list Z)) :
  (forall x y pix, 0 <= x < w -> 0 <= y < h ->
     len pix = 4 * dstW g w h * dstH g w h ->
     write x y pix = Done (spliceAt pix (off x y) (val x y))) ->
  exists pix,
    forRange (Z.to_nat h) 0
      (fun y pix => forRange (Z.to_nat w) 0 (fun x pix => write x y pix) pix) (Pix dst)
    = Done pix /\
    canonicalRGBA (withPix dst pix) (dstW g w h) (dstH g w h) /\
    forall x y, 0 <= x < w -> 0 <= y < h ->
      pixelBytes (withPix dst pix) (fst (dstOf g w h x y)) (snd (dstOf g w h x y)) = val x y.
Proof.
  intros Hwrite.
  destruct remap_dst_canonical as (HR & HS & HL).
  destruct (pixelLoop_spec w h (4 * dstW g w h * dstH g w h) off val write
              remap_off_inside remap_off_apart
              (fun x y _ _ => rgbaModel_len _) Hwrite (Pix dst) HL)
    as (pix & Hrun & Hlen & Hcells).
  exists pix. split; [exact Hrun|]. split.
  - repeat split; assumption.
  - intros x y Hx Hy. exact (Hcells x y Hx Hy).
Qed.

Lemma remap_src_point (x y : Z) :
  0 <= x < w -> 0 <= y < h ->
  0 <= fst (srcOf g w h x y) < Dx (Bounds img) /\
  0 <= snd (srcOf g w h x y) < Dy (Bounds img).
Proof.
  intros Hx Hy. destruct (Hg w h x y Hx Hy) as ((_ & _ & Hsx & Hsy) & _).
  split; assumption.
Qed.

Lemma remap_dst_point (x y : Z) (pix : list Z) :
  0 <= x < w -> 0 <= y < h -> len pix = 4 * dstW g w h * dstH g w h ->
  PointIn (fst (dstOf g w h x y)) (snd (dstOf g w h x y)) (Rect dst) = true /\
  0 <= off x y /\ off x y + 4 <= len pix.
Proof.
  intros Hx Hy Hlen.
  destruct (Hg w h x y Hx Hy) as ((Hdx & Hdy & _) & _).
  split; [eapply canonical_PointIn; [apply remap_dst_canonical|assumption..]|].
  rewrite Hlen. now apply remap_off_inside.
Qed.

Lemma genericLoop_spec :
  exists pix,
    genericLoop g dst img b = Done pix /\
    canonicalRGBA (withPix dst pix) (dstW g w h) (dstH g w h) /\
    forall x y, 0 <= x < w -> 0 <= y < h ->
      pixelBytes (withPix dst pix) (fst (dstOf g w h x y)) (snd (dstOf g w h x y)) = val x y.
Proof.
  apply (remap_loop (fun x y pix =>
    c <- At img (MinX b + fst (srcOf g w h x y)) (MinY b + snd (srcOf g w h x y)) ;;
    RGBA_Set dst pix (fst (dstOf g w h x y)) (snd (dstOf g w h x y)) c)).
  intros x y pix Hx Hy Hlen.
  destruct (remap_src_point x y Hx Hy) as [Hsx Hsy].
  destruct (remap_dst_point x y pix Hx Hy Hlen) as (Hin & Ho1 & Ho2).
  unfold b. rewrite At_colorAt by assumption. cbn [bind].
  now rewrite RGBA_Set_splices.
Qed.

Lemma fast_src_offset (src : PixImage) (x y : Z) :
  Bounds img = Rect src -> wfPix 4 src -> 0 <= x < w -> 0 <= y < h ->
  let so := PixOffset src (MinX b) (MinY b + snd (srcOf g w h x y))
            + fst (srcOf g w h x y) * 4 in
  so = PixOffset src (MinX b + fst (srcOf g w h x y)) (MinY b + snd (srcOf g w h x y)) /\
  0 <= so /\ so + 4 <= len (Pix src).
Proof.
  intros Hb Hsrc Hx Hy so.
  destruct (remap_src_point x y Hx Hy) as [Hsx Hsy].
  rewrite Hb in Hsx, Hsy.
  pose proof (wfPix_offset 4 src _ _ ltac:(lia) Hsrc Hsx Hsy) as Ho.
  assert (E : so = snd (srcOf g w h x y) * Stride src + fst (srcOf g w h x y) * 4).
  { unfold so, PixOffset, b. rewrite Hb. lia. }
  split; [|lia]. rewrite E. unfold PixOffset, b. rewrite Hb. lia.
Qed.

Lemma fastLoop_RGBA_spec (src : PixImage) :
  img = RGBAImage src ->
  exists pix,
    fastLoop copy4 g dst src b = Done pix /\
    canonicalRGBA (withPix dst pix) (dstW g w h) (dstH g w h) /\
    forall x y, 0 <= x < w -> 0 <= y < h ->
      pixelBytes (withPix dst pix) (fst (dstOf g w h x y)) (snd (dstOf g w h x y)) = val x y.
Proof.
  intros Himg.
  apply (remap_loop (fun x y pix =>
    copy4 pix (PixOffset dst (fst (dstOf g w h x y)) (snd (dstOf g w h x y)))
          (Pix src)
          (PixOffset src (MinX b) (MinY b + snd (srcOf g w h x y))
           + fst (srcOf g w h x y) * 4))).
  intros x y pix Hx Hy Hlen.
  destruct (remap_dst_point x y pix Hx Hy Hlen) as (Hin & Ho1 & Ho2).
  assert (Hb : Bounds img = Rect src) by (rewrite Himg; reflexivity).
  assert (Hsrc : wfPix 4 src) by (pose proof Hwf as H; rewrite Himg in H; exact H).
  destruct (fast_src_offset src x y Hb Hsrc Hx Hy) as (E & Hs1 & Hs2).
  rewrite copy4_splices by assumption.
  unfold off, val. do 2 f_equal. rewrite E, Himg. cbn [colorAt].
  unfold pixelBytes, colorOf.
  set (s := subslice _ _ _).
  assert (Hs : length s = 4%nat).
  { unfold s. rewrite subslice_length by (rewrite <- ?E; lia).
    match goal with |- Z.to_nat ?e = _ => replace e with 4 by lia end. reflexivity. }
  destruct s as [|s0 [|s1 [|s2 [|s3 [|s4 s]]]]]; try discriminate Hs. reflexivity.
Qed.

Lemma fastLoop_NRGBA_spec (src : PixImage) :
  img = NRGBAImage src ->
  exists pix,
    fastLoop convertNRGBA g dst src b = Done pix /\
    canonicalRGBA (withPix dst pix) (dstW g w h) (dstH g w h) /\
    forall x y, 0 <= x < w -> 0 <= y < h ->
      pixelBytes (withPix dst pix) (fst (dstOf g w h x y)) (snd (dstOf g w h x y)) = val x y.
Proof.
  intros Himg.
  apply (remap_loop (fun x y pix =>
    convertNRGBA pix (PixOffset dst (fst (dstOf g w h x y)) (snd (dstOf g w h x y)))
          (Pix src)
          (PixOffset src (MinX b) (MinY b + snd (srcOf g w h x y))
           + fst (srcOf g w h x y) * 4))).
  intros x y pix Hx Hy Hlen.
  destruct (remap_dst_point x y pix Hx Hy Hlen) as (Hin & Ho1 & Ho2).
  assert (Hb : Bounds img = Rect src) by (rewrite Himg; reflexivity).
  assert (Hsrc : wfPix 4 src) by (pose proof Hwf as H; rewrite Himg in H; exact H).
  destruct (fast_src_offset src x y Hb Hsrc Hx Hy) as (E & Hs1 & Hs2).
  rewrite convertNRGBA_splices by assumption.
  unfold off, val. do 3 f_equal. rewrite E, Himg. reflexivity.
Qed.

End Remap.

(** Whatever the kind of the image and whether or not the fast paths are
    taken, the result is the same. *)
Theorem remap_spec (fast : bool) (g : Geometry) :
  goodGeometry g -> transformsAs g (remap fast g).
Proof.
  intros Hg img Hwf. cbv zeta. unfold remap.
  set (b := Bounds img). set (w := Dx b). set (h := Dy b).
  set (dst := NewRGBA (image_Rect 0 0 (dstW g w h) (dstH g w h))).
  assert (Hgen : exists pix,
    match fast, img with
    | true, RGBAImage src => fastLoop copy4 g dst src b
    | true, NRGBAImage src => fastLoop convertNRGBA g dst src b
    | _, _ => genericLoop g dst img b
    end = Done pix /\
    canonicalRGBA (withPix dst pix) (dstW g w h) (dstH g w h) /\
    forall x y, 0 <= x < w -> 0 <= y < h ->
      pixelBytes (withPix dst pix) (fst (dstOf g w h x y)) (snd (dstOf g w h x y))
      = rgbaModel (colorAt img (MinX b + fst (srcOf g w h x y))
                               (MinY b + snd (srcOf g w h x y)))).
  { pose proof (genericLoop_spec g Hg img Hwf) as HG.
    pose proof (fastLoop_RGBA_spec g Hg img Hwf) as HR.
    pose proof (fastLoop_NRGBA_spec g Hg img Hwf) as HN.
    destruct fast; [|exact HG].
    destruct img as [src|src|src|bb f].
    - exact (HR src eq_refl).
    - exact (HN src eq_refl).
    - exact HG.
    - exact HG. }
  destruct Hgen as (pix & Hrun & Hcan & Hcells).
  exists (withPix dst pix). rewrite Hrun. cbn [bind].
  split; [reflexivity|]. split; assumption.
Qed.

(** ** The seven geometries *)

Ltac good_geometry :=
  intros w h x y Hx Hy; unfold dstW, dstH; cbn;
  split; [lia | intros x' y' Hx' Hy' E; injection E; lia].

Lemma flipHorizontalGeom_good : goodGeometry flipHorizontalGeom.
Proof. good_geometry. Qed.
Lemma flipVerticalGeom_good : goodGeometry flipVerticalGeom.
Proof. good_geometry. Qed.
Lemma rotate180Geom_good : goodGeometry rotate180Geom.
Proof. good_geometry. Qed.
Lemma rotate90Geom_good : goodGeometry rotate90Geom.
Proof. good_geometry. Qed.
Lemma rotate270Geom_good : goodGeometry rotate270Geom.
Proof. good_geometry. Qed.
Lemma transposeGeom_good : goodGeometry transposeGeom.
Proof. good_geometry. Qed.
Lemma transverseGeom_good : goodGeometry transverseGeom.
Proof. good_geometry. Qed.

Lemma transformsAs_ext (g : Geometry) (f f' : Image -> Run PixImage) :
  (forall img, f img = f' img) -> transformsAs g f' -> transformsAs g f.
Proof. intros E H img Hwf. rewrite E. now apply H. Qed.

Lemma flipHorizontal_spec : transformsAs flipHorizontalGeom flipHorizontal.
Proof.
  eapply transformsAs_ext; [apply flipHorizontal_remap|].
  apply remap_spec, flipHorizontalGeom_good.
Qed.

Lemma flipVertical_spec : transformsAs flipVerticalGeom flipVertical.
Proof.
  eapply transformsAs_ext; [apply flipVertical_remap|].
  apply remap_spec, flipVerticalGeom_good.
Qed.

Lemma rotate180_spec : transformsAs rotate180Geom rotate180.
Proof.
  eapply transformsAs_ext; [apply rotate180_remap|].
  apply remap_spec, rotate180Geom_good.
Qed.

Lemma rotate90_spec : transformsAs rotate90Geom rotate90.
Proof.
  eapply transformsAs_ext; [apply rotate90_remap|].
  apply remap_spec, rotate90Geom_good.
Qed.

Lemma rotate270_spec : transformsAs rotate270Geom rotate270.
Proof.
  eapply transformsAs_ext; [apply rotate270_remap|].
  apply remap_spec, rotate270Geom_good.
Qed.

Lemma transpose_spec : transformsAs transposeGeom transpose.
Proof.
  eapply transformsAs_ext; [apply transpose_remap|].
  apply remap_spec, transposeGeom_good.
Qed.

Lemma transverse_spec : transformsAs transverseGeom transverse.
Proof.
  eapply transformsAs_ext; [apply transverse_remap|].
  apply remap_spec, transverseGeom_good.
Qed.

(** The geometry of each orientation code from 2 to 8. *)
Lemma orientationTransform_spec (o : Z) :
  2 <= o <= 8 ->
  exists g f, orientationTransform o = Some f /\ transformsAs g f /\
    swaps g = ((o =? 5) || (o =? 6) || (o =? 7) || (o =? 8)).
Proof.
  intros Ho.
  assert (Hc : o = 2 \/ o = 3 \/ o = 4 \/ o = 5 \/ o = 6 \/ o = 7 \/ o = 8) by lia.
  destruct Hc as [->|[->|[->|[->|[->|[->| ->]]]]]].
  - exists flipHorizontalGeom, flipHorizontal. repeat split. apply flipHorizontal_spec.
  - exists rotate180Geom, rotate180. repeat split. apply rotate180_spec.
  - exists flipVerticalGeom, flipVertical. repeat split. apply flipVertical_spec.
  - exists transposeGeom, transpose. repeat split. apply transpose_spec.
  - exists rotate90Geom, rotate90. repeat split. apply rotate90_spec.
  - exists transverseGeom, transverse. repeat split. apply transverse_spec.
  - exists rotate270Geom, rotate270. repeat split. apply rotate270_spec.
Qed.

(** C10: for every well-formed image, whatever its origin, and every
    orientation code from 2 to 8, the corrector returns an [*image.RGBA] whose
    bounds start at (0,0); they end at the size of the source, with width and
    height exchanged for the codes 5 to 8.  So does [applyEXIFOrientation] on
    every payload in which the detector finds such a code. *)
Theorem correctOrientation_origin (img : Image) (o : Z) :
  wfImage img -> 2 <= o <= 8 ->
  exists out,
    correctOrientation img o = Done (RGBAImage out) /\
    MinX (Rect out) = 0 /\ MinY (Rect out) = 0 /\
    (MaxX (Rect out), MaxY (Rect out)) =
      (if (o =? 5) || (o =? 6) || (o =? 7) || (o =? 8)
       then (Dy (Bounds img), Dx (Bounds img))
       else (Dx (Bounds img), Dy (Bounds img))) /\
    forall W payload,
      exifOrientationJPEG W payload = Done (Some o) ->
      applyEXIFOrientation W img payload = Done (RGBAImage out).
Proof.
  intros Hwf Ho.
  destruct (orientationTransform_spec o Ho) as (g & f & Hf & Hspec & Hswap).
  destruct (Hspec img Hwf) as (out & Hrun & (HR & _ & _) & _).
  assert (Hcorr : correctOrientation img o = Done (RGBAImage out)).
  { unfold correctOrientation.
    replace (o =? 1) with false by (symmetry; apply Z.eqb_neq; lia).
    now rewrite Hf, Hrun. }
  exists out. split; [exact Hcorr|].
  rewrite HR. cbn [MinX MinY MaxX MaxY]. unfold dstW, dstH. rewrite Hswap.
  split; [reflexivity|]. split; [reflexivity|]. split.
  - now destruct ((o =? 5) || (o =? 6) || (o =? 7) || (o =? 8)).
  - intros W payload Hp. unfold applyEXIFOrientation. rewrite Hp. exact Hcorr.
Qed.

Lemma correctOrientation_origin_witness :
  wfImage offsetImage /\ 2 <= 6 <= 8 /\
  MinX (Bounds offsetImage) = 5 /\
  exifOrientationJPEG 64 (jpegWithOrientation 6) = Done (Some 6) /\
  exists out,
    correctOrientation offsetImage 6 = Done (RGBAImage out) /\
    MinX (Rect out) = 0 /\ MinY (Rect out) = 0 /\
    (MaxX (Rect out), MaxY (Rect out)) =
      (if (6 =? 5) || (6 =? 6) || (6 =? 7) || (6 =? 8)
       then (Dy (Bounds offsetImage), Dx (Bounds offsetImage))
       else (Dx (Bounds offsetImage), Dy (Bounds offsetImage))) /\
    forall W payload,
      exifOrientationJPEG W payload = Done (Some 6) ->
      applyEXIFOrientation W offsetImage payload = Done (RGBAImage out).
Proof.
  assert (Hwf : wfImage offsetImage) by (cbn; unfold wfRect; cbn; lia).
  split; [exact Hwf|]. split; [lia|]. split; [reflexivity|].
  split; [vm_compute; reflexivity|].
  apply (correctOrientation_origin offsetImage 6 Hwf). lia.
Defined.

(** ** Round trips *)

Lemma canonical_wf (p : PixImage) (w h : Z) :
  0 <= w -> 0 <= h -> canonicalRGBA p w h -> wfImage (RGBAImage p).
Proof.
  intros Hw Hh (HR & HS & HL). cbn [wfImage]. unfold wfPix, wfRect, Dx, Dy.
  rewrite HR, HS, HL. cbn [MinX MinY MaxX MaxY]. rewrite !Z.sub_0_r.
  split; [lia|]. intros _ _. split; lia.
Qed.

Lemma canonical_Bounds (p : PixImage) (w h : Z) :
  canonicalRGBA p w h ->
  Dx (Bounds (RGBAImage p)) = w /\ Dy (Bounds (RGBAImage p)) = h /\
  MinX (Bounds (RGBAImage p)) = 0 /\ MinY (Bounds (RGBAImage p)) = 0.
Proof.
  intros (HR & _). cbn [Bounds]. unfold Dx, Dy. rewrite HR. cbn. lia.
Qed.

Lemma rgbaModel_again (c : Color) :
  rgbaModel (colorOf ColorRGBA (rgbaModel c)) = rgbaModel c.
Proof. destruct (rgbaModel_shape c) as (r & g & b & a & ->). reflexivity. Qed.

Lemma roundTrip180_unfold (img : Image) :
  roundTrip180 img =
  (p <- rotate180 img ;; q <- rotate180 (RGBAImage p) ;; Done (RGBAImage q)).
Proof. unfold roundTrip180. change (correctOrientation img 3) with
  (p <- rotate180 img ;; Done (RGBAImage p)). destruct (rotate180 img); reflexivity.
Qed.

Lemma roundTrip90_270_unfold (img : Image) :
  roundTrip90_270 img =
  (p <- rotate90 img ;; q <- rotate270 (RGBAImage p) ;; Done (RGBAImage q)).
Proof. unfold roundTrip90_270. change (correctOrientation img 6) with
  (p <- rotate90 img ;; Done (RGBAImage p)). destruct (rotate90 img); reflexivity.
Qed.

(** Code 3 twice. *)
Lemma roundTrip180_rendering (img : Image) :
  wfImage img ->
  exists out, roundTrip180 img = Done (RGBAImage out) /\ rgbaRendering img out.
Proof.
  intros Hwf. rewrite roundTrip180_unfold.
  destruct (wfImage_bounds img Hwf) as [Hbx Hby].
  set (b := Bounds img) in *. set (w := Dx b). set (h := Dy b).
  assert (Hw : 0 <= w) by (unfold w, Dx; lia).
  assert (Hh : 0 <= h) by (unfold h, Dy; lia).
  destruct (rotate180_spec img Hwf) as (o1 & Hr1 & Hc1 & Hp1).
  cbv zeta in Hc1, Hp1. cbn [rotate180Geom dstW dstH swaps dstOf srcOf fst snd] in Hc1, Hp1.
  unfold dstW, dstH in Hc1. cbn [swaps rotate180Geom] in Hc1.
  fold b w h in Hc1, Hp1.
  rewrite Hr1. cbn [bind].
  pose proof (canonical_wf o1 w h Hw Hh Hc1) as Hwf1.
  destruct (canonical_Bounds o1 w h Hc1) as (Hdx & Hdy & Hmx & Hmy).
  destruct (rotate180_spec (RGBAImage o1) Hwf1) as (o2 & Hr2 & Hc2 & Hp2).
  cbv zeta in Hc2, Hp2. cbn [rotate180Geom dstW dstH swaps dstOf srcOf fst snd] in Hc2, Hp2.
  unfold dstW, dstH in Hc2. cbn [swaps rotate180Geom] in Hc2.
  rewrite Hdx, Hdy in Hc2, Hp2. rewrite Hmx, Hmy in Hp2.
  exists o2. rewrite Hr2. cbn [bind]. split; [reflexivity|]. split; [exact Hc2|].
  intros x y Hx Hy. fold b w h in Hx, Hy |- *.
  rewrite (Hp2 x y Hx Hy). cbn [colorAt]. rewrite !Z.add_0_l.
  rewrite (Hp1 (w - 1 - x) (h - 1 - y)) by lia.
  rewrite rgbaModel_again.
  replace (w - 1 - (w - 1 - x)) with x by lia.
  replace (h - 1 - (h - 1 - y)) with y by lia. reflexivity.
Qed.

(** Code 6, then code 8. *)
Lemma roundTrip90_270_rendering (img : Image) :
  wfImage img ->
  exists out, roundTrip90_270 img = Done (RGBAImage out) /\ rgbaRendering img out.
Proof.
  intros Hwf. rewrite roundTrip90_270_unfold.
  destruct (wfImage_bounds img Hwf) as [Hbx Hby].
  set (b := Bounds img) in *. set (w := Dx b). set (h := Dy b).
  assert (Hw : 0 <= w) by (unfold w, Dx; lia).
  assert (Hh : 0 <= h) by (unfold h, Dy; lia).
  destruct (rotate90_spec img Hwf) as (o1 & Hr1 & Hc1 & Hp1).
  cbv zeta in Hc1, Hp1. cbn [rotate90Geom dstW dstH swaps dstOf srcOf fst snd] in Hc1, Hp1.
  unfold dstW, dstH in Hc1. cbn [swaps rotate90Geom] in Hc1.
  fold b w h in Hc1, Hp1.
  rewrite Hr1. cbn [bind].
  pose proof (canonical_wf o1 h w Hh Hw Hc1) as Hwf1.
  destruct (canonical_Bounds o1 h w Hc1) as (Hdx & Hdy & Hmx & Hmy).
  destruct (rotate270_spec (RGBAImage o1) Hwf1) as (o2 & Hr2 & Hc2 & Hp2).
  cbv zeta in Hc2, Hp2. cbn [rotate270Geom dstW dstH swaps dstOf srcOf fst snd] in Hc2, Hp2.
  unfold dstW, dstH in Hc2. cbn [swaps rotate270Geom] in Hc2.
  rewrite Hdx, Hdy in Hc2, Hp2. rewrite Hmx, Hmy in Hp2.
  exists o2. rewrite Hr2. cbn [bind]. split; [reflexivity|]. split; [exact Hc2|].
  intros x y Hx Hy. fold b w h in Hx, Hy |- *.
  (* the second loop reaches (x, y) from its own (h-1-y, x) *)
  pose proof (Hp2 (h - 1 - y) x ltac:(lia) ltac:(lia)) as E2.
  replace (h - 1 - (h - 1 - y)) with y in E2 by lia.
  rewrite E2. cbn [colorAt]. rewrite !Z.add_0_l.
  rewrite (Hp1 x y Hx Hy).
  now rewrite rgbaModel_again.
Qed.

(** The rendering of an [*image.RGBA] shows the very pixels of the image. *)
Lemma rendering_of_RGBA (p out : PixImage) :
  wfImage (RGBAImage p) -> rgbaRendering (RGBAImage p) out ->
  (forall x y, 0 <= x < Dx (Rect p) -> 0 <= y < Dy (Rect p) ->
     pixelBytes out x y = pixelBytes p (MinX (Rect p) + x) (MinY (Rect p) + y)) /\
  pixelIdentical (RGBAImage out) (RGBAImage p).
Proof.
  intros Hwf (Hcan & Hpix). cbn [Bounds] in *.
  assert (Hbytes : forall x y, 0 <= x < Dx (Rect p) -> 0 <= y < Dy (Rect p) ->
     pixelBytes out x y = pixelBytes p (MinX (Rect p) + x) (MinY (Rect p) + y)).
  { intros x y Hx Hy. rewrite (Hpix x y Hx Hy). cbn [colorAt].
    pose proof (wfPix_offset 4 p x y ltac:(lia) Hwf Hx Hy) as Ho.
    assert (E : PixOffset p (MinX (Rect p) + x) (MinY (Rect p) + y) = y * Stride p + x * 4)
      by (unfold PixOffset; f_equal; lia).
    unfold pixelBytes. rewrite E.
    set (s := subslice _ _ _).
    assert (Hs : length s = 4%nat).
    { unfold s. rewrite subslice_length by lia.
      match goal with |- Z.to_nat ?e = _ => replace e with 4 by lia end. reflexivity. }
    destruct s as [|s0 [|s1 [|s2 [|s3 [|s4 s]]]]]; try discriminate Hs. reflexivity. }
  split; [exact Hbytes|].
  destruct (canonical_Bounds out _ _ Hcan) as (Hdx & Hdy & Hmx & Hmy).
  unfold pixelIdentical. cbn [Bounds] in *. rewrite Hdx, Hdy, Hmx, Hmy.
  split; [reflexivity|]. split; [reflexivity|].
  intros x y Hx Hy. cbn [colorAt]. rewrite !Z.add_0_l. now rewrite Hbytes.
Qed.

(** Two canonical RGBA images of one size with the same pixels are the same. *)
Lemma canonical_ext (p q : PixImage) (w h : Z) :
  0 <= w -> 0 <= h -> canonicalRGBA p w h -> canonicalRGBA q w h ->
  (forall x y, 0 <= x < w -> 0 <= y < h -> pixelBytes p x y = pixelBytes q x y) ->
  p = q.
Proof.
  intros Hw Hh Hp Hq Hpix.
  assert (Hcell : forall (r : PixImage) x y, canonicalRGBA r w h ->
            pixelBytes r x y = subslice (Pix r) (4 * (y * w + x)) (4 * (y * w + x) + 4)).
  { intros r x y Hr. unfold pixelBytes. now rewrite (canonical_PixOffset r w h x y Hr). }
  destruct Hp as (HRp & HSp & HLp), Hq as (HRq & HSq & HLq).
  assert (Hcp : canonicalRGBA p w h) by (repeat split; assumption).
  assert (Hcq : canonicalRGBA q w h) by (repeat split; assumption).
  destruct p as [pp sp rp], q as [pq sq rq]. cbn [Pix Stride Rect] in *.
  subst sp rp sq rq. f_equal.
  apply (nth_ext _ _ 0 0); [unfold len in *; lia|].
  intros n Hn.
  set (i := Z.of_nat n).
  assert (Hi : 0 <= i < 4 * w * h) by (unfold len in *; lia).
  assert (Hwpos : 0 < w) by nia.
  set (c := i / 4). set (k := i mod 4).
  assert (Hik : i = 4 * c + k) by (unfold c, k; apply Z.div_mod; lia).
  assert (Hk : 0 <= k < 4) by (unfold k; apply Z.mod_pos_bound; lia).
  assert (Hc : 0 <= c < w * h) by nia.
  set (y := c / w). set (x := c mod w).
  assert (Hcxy : c = w * y + x) by (unfold x, y; apply Z.div_mod; lia).
  assert (Hx : 0 <= x < w) by (unfold x; apply Z.mod_pos_bound; lia).
  assert (Hy : 0 <= y < h).
  { split; [unfold y; apply Z.div_pos; lia|].
    unfold y. apply Z.div_lt_upper_bound; lia. }
  assert (En : n = Z.to_nat (4 * (y * w + x) + k)) by lia.
  rewrite En.
  rewrite <- !(nth_subslice _ (4 * (y * w + x)) (4 * (y * w + x) + 4) k) by lia.
  pose proof (Hpix x y Hx Hy) as E.
  rewrite (Hcell _ x y Hcp), (Hcell _ x y Hcq) in E. cbn [Pix] in E.
  now rewrite E.
Qed.

(** C7, amended: the corrector applied with code 3 twice, and with code 6 and
    then with code 8, returns on every well-formed image, and returns its
    rendering as a canonical [*image.RGBA]: same size, origin (0,0), each pixel
    the [color.RGBAModel] conversion of the original pixel at the same place.
    For an original that is an [*image.RGBA] the result is pixel-identical to
    it, byte for byte, and it is the original itself when that one is laid out
    as [image.NewRGBA] does. *)
Theorem orientation_round_trip (img : Image) :
  wfImage img ->
  exists out180 out90,
    roundTrip180 img = Done (RGBAImage out180) /\
    roundTrip90_270 img = Done (RGBAImage out90) /\
    rgbaRendering img out180 /\
    rgbaRendering img out90 /\
    (forall p, img = RGBAImage p ->
       pixelIdentical (RGBAImage out180) img /\
       pixelIdentical (RGBAImage out90) img /\
       (forall x y, 0 <= x < Dx (Rect p) -> 0 <= y < Dy (Rect p) ->
          pixelBytes out180 x y = pixelBytes p (MinX (Rect p) + x) (MinY (Rect p) + y) /\
          pixelBytes out90 x y = pixelBytes p (MinX (Rect p) + x) (MinY (Rect p) + y)) /\
       (canonicalRGBA p (Dx (Rect p)) (Dy (Rect p)) -> out180 = p /\ out90 = p)).
Proof.
  intros Hwf.
  destruct (roundTrip180_rendering img Hwf) as (o1 & Hr1 & Hrend1).
  destruct (roundTrip90_270_rendering img Hwf) as (o2 & Hr2 & Hrend2).
  exists o1, o2. repeat (split; [assumption|]).
  intros p ->.
  destruct (rendering_of_RGBA p o1 Hwf Hrend1) as (Hb1 & Hid1).
  destruct (rendering_of_RGBA p o2 Hwf Hrend2) as (Hb2 & Hid2).
  split; [exact Hid1|]. split; [exact Hid2|]. split.
  - intros x y Hx Hy. split; [now apply Hb1 | now apply Hb2].
  - intros Hcan. cbn [Bounds] in *.
    assert (Hmin : MinX (Rect p) = 0 /\ MinY (Rect p) = 0).
    { destruct Hcan as (HR & _). rewrite HR. split; reflexivity. }
    destruct Hmin as [Hmx Hmy].
    destruct (wfImage_bounds _ Hwf) as [Hbx Hby]. cbn [Bounds] in Hbx, Hby.
    assert (Hw : 0 <= Dx (Rect p)) by (unfold Dx; lia).
    assert (Hh : 0 <= Dy (Rect p)) by (unfold Dy; lia).
    split.
    + apply (canonical_ext o1 p _ _ Hw Hh (proj1 Hrend1) Hcan).
      intros x y Hx Hy. rewrite (Hb1 x y Hx Hy), Hmx, Hmy. now rewrite !Z.add_0_l.
    + apply (canonical_ext o2 p _ _ Hw Hh (proj1 Hrend2) Hcan).
      intros x y Hx Hy. rewrite (Hb2 x y Hx Hy), Hmx, Hmy. now rewrite !Z.add_0_l.
Qed.

Lemma orientation_round_trip_witness :
  wfImage (RGBAImage rgba3x2) /\
  roundTrip180 (RGBAImage rgba3x2) = Done (RGBAImage rgba3x2) /\
  roundTrip90_270 (RGBAImage rgba3x2) = Done (RGBAImage rgba3x2) /\
  exists out180 out90,
    roundTrip180 (RGBAImage rgba3x2) = Done (RGBAImage out180) /\
    roundTrip90_270 (RGBAImage rgba3x2) = Done (RGBAImage out90) /\
    rgbaRendering (RGBAImage rgba3x2) out180 /\
    rgbaRendering (RGBAImage rgba3x2) out90 /\
    (forall p, RGBAImage rgba3x2 = RGBAImage p ->
       pixelIdentical (RGBAImage out180) (RGBAImage rgba3x2) /\
       pixelIdentical (RGBAImage out90) (RGBAImage rgba3x2) /\
       (forall x y, 0 <= x < Dx (Rect p) -> 0 <= y < Dy (Rect p) ->
          pixelBytes out180 x y = pixelBytes p (MinX (Rect p) + x) (MinY (Rect p) + y) /\
          pixelBytes out90 x y = pixelBytes p (MinX (Rect p) + x) (MinY (Rect p) + y)) /\
       (canonicalRGBA p (Dx (Rect p)) (Dy (Rect p)) -> out180 = p /\ out90 = p)).
Proof.
  assert (Hwf : wfImage (RGBAImage rgba3x2)).
  { cbn [wfImage]. unfold wfPix, wfRect, Dx, Dy, len. cbn. lia. }
  split; [exact Hwf|].
  split; [vm_compute; reflexivity|].
  split; [vm_compute; reflexivity|].
  exact (orientation_round_trip (RGBAImage rgba3x2) Hwf).
Defined.

(** C7 as worded fails on a half-transparent [image.NRGBA] pixel
    (R=1, G=0, B=0, A=128): its colour is (129, 0, 0, 32896) in the values of
    [RGBA()], and either round trip returns the [color.RGBA] pixel
    (0, 0, 0, 128), whose colour is (0, 0, 0, 32896). *)
Lemma orientation_round_trip_counterexample :
  wfImage nrgbaDim /\
  exists out,
    roundTrip180 nrgbaDim = Done (RGBAImage out) /\
    roundTrip90_270 nrgbaDim = Done (RGBAImage out) /\
    Pix out = [0; 0; 0; 128] /\
    At nrgbaDim 0 0 = Done (ColorNRGBA 1 0 0 128) /\
    At (RGBAImage out) 0 0 = Done (ColorRGBA 0 0 0 128) /\
    Color_RGBA (ColorNRGBA 1 0 0 128) = (129, 0, 0, 32896) /\
    Color_RGBA (ColorRGBA 0 0 0 128) = (0, 0, 0, 32896) /\
    ~ pixelIdentical (RGBAImage out) nrgbaDim.
Proof.
  split.
  { cbn [wfImage nrgbaDim]. unfold wfPix, wfRect, Dx, Dy, len. cbn. lia. }
  exists (mkPixImage [0; 0; 0; 128] 4 (mkRectangle 0 0 1 1)).
  repeat (split; [vm_compute; reflexivity|]).
  intros (_ & _ & H). specialize (H 0 0).
  assert (Hx : 0 <= 0 < Dx (Bounds nrgbaDim)) by (vm_compute; split; congruence).
  assert (Hy : 0 <= 0 < Dy (Bounds nrgbaDim)) by (vm_compute; split; congruence).
  specialize (H Hx Hy). vm_compute in H. discriminate H.
Qed.

(** ** Resize *)

Lemma to_uint32_range (z : Z) : 0 <= to_uint32 z < 2 ^ 32.
Proof. unfold to_uint32, uint32_mod. apply Z.mod_pos_bound. lia. Qed.

Lemma uint32_of_f64_range (u : float64 -> Z) (f : float64) :
  0 <= uint32_of_f64 u f < 2 ^ 32.
Proof.
  unfold uint32_of_f64.
  destruct (f64_trunc f) as [z|]; [|apply to_uint32_range].
  destruct (Z.leb_spec 0 z); cbn [andb]; [|apply to_uint32_range].
  destruct (Z.ltb_spec z uint32_mod); [|apply to_uint32_range].
  unfold uint32_mod in *. lia.
Qed.

Lemma flat_map_length_const {A B : Type} (f : A -> list B) (n : nat) (l : list A) :
  (forall a, length (f a) = n) -> length (flat_map f l) = (n * length l)%nat.
Proof.
  intros H. induction l as [|a l IH]; cbn [flat_map length].
  - lia.
  - rewrite length_app, H, IH. lia.
Qed.

Lemma scaleTo_canonical (k : Scaler) (src : Image) (w h : Z) :
  0 <= w -> 0 <= h -> canonicalRGBA (scaleTo k src w h) w h.
Proof.
  intros Hw Hh. destruct (NewRGBA_canonical w h Hw Hh) as (HR & HS & _).
  unfold scaleTo. cbv zeta. repeat split; cbn [withPix Rect Stride Pix]; try assumption.
  unfold len.
  rewrite (flat_map_length_const _ (4 * Z.to_nat w)).
  - rewrite length_seq. nia.
  - intros y. rewrite (flat_map_length_const _ 4).
    + now rewrite length_seq.
    + intros x. pose proof (rgbaModel_len (k src w h (Z.of_nat x) (Z.of_nat y))) as H.
      unfold len in H. lia.
Qed.

(** The halving loop ends: a width below [2^fuel] is halved at most [fuel] times. *)
Lemma halve_done (k : Scaler) (fuel : nat) (cur : Image) (cw ch dstW dstH : Z) :
  0 <= cw < 2 ^ Z.of_nat fuel -> 1 <= dstW ->
  exists img, halve k (S fuel) cur cw ch dstW dstH = Done img.
Proof.
  revert cur cw ch. induction fuel as [|fuel IH]; intros cur cw ch Hcw Hd.
  - cbn [halve]. change (2 ^ Z.of_nat 0) with 1 in Hcw.
    assert (cw = 0) as -> by lia. cbn [Z.quot].
    replace (Z.quot 0 2 >=? dstW) with false; [cbn [andb]; eauto|].
    symmetry. rewrite Z.geb_leb. apply Z.leb_gt. cbn. lia.
  - remember (S fuel) as n eqn:En. cbn [halve].
    destruct ((Z.quot cw 2 >=? dstW) && (Z.quot ch 2 >=? dstH)); [|eauto].
    subst n. apply IH; [|exact Hd].
    rewrite Z.quot_div_nonneg by lia.
    rewrite Nat2Z.inj_succ, Z.pow_succ_r in Hcw by lia.
    split; [apply Z.div_pos; lia | apply Z.div_lt_upper_bound; lia].
Qed.

Lemma In_upTo (n : nat) (z : Z) : In z (upTo n) <-> 1 <= z <= Z.of_nat n.
Proof.
  unfold upTo. rewrite in_map_iff. split.
  - intros (i & <- & Hi). apply in_seq in Hi. lia.
  - intros Hz. exists (Z.to_nat z). split; [lia | apply in_seq; lia].
Qed.

Lemma missingDimensionFloorsUpTo_sound (ext : Externals) (n : nat) :
  missingDimensionFloorsUpTo ext n = true ->
  forall known other along,
    1 <= known <= Z.of_nat n -> 1 <= other <= Z.of_nat n -> 1 <= along <= Z.of_nat n ->
    missingDimension ext known other along = known * other / along.
Proof.
  unfold missingDimensionFloorsUpTo. intros H known other along Hk Ho Ha.
  rewrite forallb_forall in H. specialize (H known (proj2 (In_upTo n known) Hk)).
  rewrite forallb_forall in H. specialize (H other (proj2 (In_upTo n other) Ho)).
  rewrite forallb_forall in H. specialize (H along (proj2 (In_upTo n along) Ha)).
  now apply Z.eqb_eq.
Qed.

(** For sizes up to 48 the float64 arithmetic is exact enough: the missing
    dimension is the integer quotient rounded down, on every target. *)
Lemma missingDimension_floors (ext : Externals) (known other along : Z) :
  1 <= known <= 48 -> 1 <= other <= 48 -> 1 <= along <= 48 ->
  missingDimension ext known other along = known * other / along.
Proof.
  apply (missingDimensionFloorsUpTo_sound ext 48).
  destruct ext as [c k1 k2 u]. vm_compute. reflexivity.
Qed.

(** C5, amended: when exactly one target dimension is 0, [Resize] computes it
    as [known_target * source_other / source_known] in float64 and cuts the
    fraction off (the conversion to [uint32]); it does not round to nearest.
    If that gives 0 the source is returned unchanged; otherwise the result is a
    fresh RGBA image of exactly the computed size.  For sizes up to 48 the
    computed dimension is the integer quotient rounded down. *)
Theorem Resize_missing_dimension (ext : Externals) (img : Image) (dstW dstH : Z) :
  0 < Dx (Bounds img) < 2 ^ 31 -> 0 < Dy (Bounds img) < 2 ^ 31 ->
  0 <= dstW < 2 ^ 32 -> 0 <= dstH < 2 ^ 32 ->
  (dstW = 0 /\ dstH <> 0) \/ (dstW <> 0 /\ dstH = 0) ->
  let sw := Dx (Bounds img) in
  let sh := Dy (Bounds img) in
  let W' := if dstW =? 0 then missingDimension ext dstH sw sh else dstW in
  let H' := if dstH =? 0 then missingDimension ext dstW sh sw else dstH in
  (if (W' =? 0) || (H' =? 0)
   then Resize ext (Some img) dstW dstH = Done (Some img)
   else exists out,
          Resize ext (Some img) dstW dstH = Done (Some (RGBAImage out)) /\
          canonicalRGBA out W' H') /\
  (forall known other along,
     1 <= known <= 48 -> 1 <= other <= 48 -> 1 <= along <= 48 ->
     missingDimension ext known other along = known * other / along).
Proof.
  intros Hsw Hsh HW HH Hone sw sh W' H'.
  split; [|apply missingDimension_floors].
  assert (Hswu : to_uint32 sw = sw)
    by (unfold to_uint32, uint32_mod; apply Z.mod_small; fold sw in Hsw; lia).
  assert (Hshu : to_uint32 sh = sh)
    by (unfold to_uint32, uint32_mod; apply Z.mod_small; fold sh in Hsh; lia).
  assert (Hscaled : forall w h, 0 < w -> 0 < h ->
    exists out,
      (if (w >=? sw) && (h >=? sh)
       then Done (Some (RGBAImage (scaleTo (ApproxBiLinear ext) img w h)))
       else cur <- halve (CatmullRom ext) 64 img sw sh w h ;;
            Done (Some (RGBAImage (scaleTo (CatmullRom ext) cur w h))))
      = Done (Some (RGBAImage out)) /\ canonicalRGBA out w h).
  { intros w h Hw Hh. destruct ((w >=? sw) && (h >=? sh)).
    - eexists. split; [reflexivity|]. apply scaleTo_canonical; lia.
    - destruct (halve_done (CatmullRom ext) 63 img sw sh w h) as (cur & Hcur).
      + fold sw in Hsw. split; [lia|].
        eapply Z.lt_trans; [apply Hsw|]. reflexivity.
      + lia.
      + rewrite Hcur. cbn [bind]. eexists. split; [reflexivity|].
        apply scaleTo_canonical; lia. }
  unfold Resize. cbv zeta. fold sw sh. rewrite Hswu, Hshu.
  destruct Hone as [[-> HnH]|[HnW ->]].
  - (* the width is to be computed *)
    pose proof (uint32_of_f64_range (unrepresentable ext)
                  (f64_of_int dstH * f64_of_int sw / f64_of_int sh)%float) as Hr.
    fold (missingDimension ext dstH sw sh) in Hr.
    assert (E0 : (dstH =? 0) = false) by (apply Z.eqb_neq; exact HnH).
    assert (E1 : (0 =? sw) = false) by (apply Z.eqb_neq; fold sw in Hsw; lia).
    subst W' H'. change (0 =? 0) with true. cbv iota.
    rewrite !E0, E1. cbv iota. rewrite ?E0. cbn [andb orb].
    fold (missingDimension ext dstH sw sh).
    rewrite orb_false_r.
    destruct (Z.eqb_spec (missingDimension ext dstH sw sh) 0) as [E|E].
    + reflexivity.
    + apply Hscaled; lia.
  - (* the height is to be computed *)
    pose proof (uint32_of_f64_range (unrepresentable ext)
                  (f64_of_int dstW * f64_of_int sh / f64_of_int sw)%float) as Hr.
    fold (missingDimension ext dstW sh sw) in Hr.
    assert (E0 : (dstW =? 0) = false) by (apply Z.eqb_neq; exact HnW).
    assert (E1 : (0 =? sh) = false) by (apply Z.eqb_neq; fold sh in Hsh; lia).
    subst W' H'. change (0 =? 0) with true. cbv iota.
    rewrite !E0, E1. cbv iota. rewrite ?E0. rewrite ?andb_false_r. cbn [andb orb].
    fold (missingDimension ext dstW sh sw).
    destruct (Z.eqb_spec (missingDimension ext dstW sh sw) 0) as [E|E].
    + reflexivity.
    + apply Hscaled; lia.
Qed.

Lemma Resize_missing_dimension_witness :
  (0 < Dx (Bounds black5x3) < 2 ^ 31 /\ 0 < Dy (Bounds black5x3) < 2 ^ 31 /\
   0 <= 0 < 2 ^ 32 /\ 0 <= 1 < 2 ^ 32) /\
  missingDimension boxExternals 1 5 3 = 1 /\
  (let sw := Dx (Bounds black5x3) in
   let sh := Dy (Bounds black5x3) in
   let W' := if 0 =? 0 then missingDimension boxExternals 1 sw sh else 0 in
   let H' := if 1 =? 0 then missingDimension boxExternals 0 sh sw else 1 in
   (if (W' =? 0) || (H' =? 0)
    then Resize boxExternals (Some black5x3) 0 1 = Done (Some black5x3)
    else exists out,
           Resize boxExternals (Some black5x3) 0 1 = Done (Some (RGBAImage out)) /\
           canonicalRGBA out W' H') /\
   (forall known other along,
      1 <= known <= 48 -> 1 <= other <= 48 -> 1 <= along <= 48 ->
      missingDimension boxExternals known other along = known * other / along)).
Proof.
  split; [vm_compute; repeat split; congruence|].
  split; [vm_compute; reflexivity|].
  apply (Resize_missing_dimension boxExternals black5x3 0 1).
  - vm_compute; split; reflexivity.
  - vm_compute; split; reflexivity.
  - lia.
  - lia.
  - left. split; [reflexivity | discriminate].
Defined.

(** C5 as worded fails on a 5x3 source with targets (0, 1): 1 * 5 / 3 rounds to
    2, but the code computes the width 1 and returns a 1x1 image.  And on a 1x2
    source with targets (0, 1), where 1 * 1 / 2 rounds to 1, the code computes
    0 and returns the source unchanged. *)
Lemma Resize_rounds_down_counterexample :
  specMissingDimension 1 5 3 = 2 /\
  missingDimension boxExternals 1 5 3 = 1 /\
  (exists out,
     Resize boxExternals (Some black5x3) 0 1 = Done (Some (RGBAImage out)) /\
     Rect out = mkRectangle 0 0 1 1) /\
  specMissingDimension 1 1 2 = 1 /\
  missingDimension boxExternals 1 1 2 = 0 /\
  Resize boxExternals (Some black1x2) 0 1 = Done (Some black1x2).
Proof.
  split; [vm_compute; reflexivity|].
  split; [vm_compute; reflexivity|].
  split; [eexists; split; vm_compute; reflexivity|].
  repeat split; vm_compute; reflexivity.
Qed.

(** ** PHash *)

(** C8: a nil image is not an error: [PHash(nil)] is the all-zero hash, in
    every setting; and the two stages that take an image pass nil through. *)
Theorem PHash_nil (ext : Externals) :
  PHash ext None = Done 0 /\
  Grayscale None = Done None /\
  (forall dstW dstH, Resize ext None dstW dstH = Done None).
Proof. repeat split. Qed.


(** ** The transforms, read from the destination *)

(** From the loop variables to the destination points: [inv] finds for each
    destination point the turn of the loop that writes it. *)
Lemma transformsAs_showsThrough (g : Geometry) (f : Image -> Run PixImage)
      (inv pre : Z -> Z -> Z -> Z -> Z * Z) :
  transformsAs g f ->
  (forall w h a b, 0 <= a < dstW g w h -> 0 <= b < dstH g w h ->
     0 <= fst (inv w h a b) < w /\ 0 <= snd (inv w h a b) < h /\
     dstOf g w h (fst (inv w h a b)) (snd (inv w h a b)) = (a, b) /\
     srcOf g w h (fst (inv w h a b)) (snd (inv w h a b)) = pre w h a b) ->
  forall img, wfImage img ->
    let w := Dx (Bounds img) in
    let h := Dy (Bounds img) in
    exists out, f img = Done out /\
      showsThrough img (dstW g w h) (dstH g w h) (pre w h) out.
Proof.
  intros Hf Hinv img Hwf w h.
  destruct (Hf img Hwf) as (out & Hrun & Hcan & Hpix). fold w h in Hcan, Hpix.
  exists out. split; [exact Hrun|]. split; [exact Hcan|].
  intros a b Ha Hb.
  destruct (Hinv w h a b Ha Hb) as (Hx & Hy & Hd & Hs).
  specialize (Hpix _ _ Hx Hy). rewrite Hd, Hs in Hpix. exact Hpix.
Qed.

Ltac shows_through spec inv pre :=
  intros img Hwf;
  apply (transformsAs_showsThrough _ _ inv pre spec); [|exact Hwf];
  intros w h a b; unfold dstW, dstH; cbn; intros Ha Hb;
  repeat split; try lia; f_equal; lia.

Lemma flipHorizontal_shows img :
  wfImage img ->
  let w := Dx (Bounds img) in let h := Dy (Bounds img) in
  exists out, flipHorizontal img = Done out /\
    showsThrough img w h (fun a b => (w - 1 - a, b)) out.
Proof.
  revert img.
  shows_through flipHorizontal_spec (fun (w h a b : Z) => (a, b))
    (fun (w h a b : Z) => (w - 1 - a, b)).
Qed.

Lemma flipVertical_shows img :
  wfImage img ->
  let w := Dx (Bounds img) in let h := Dy (Bounds img) in
  exists out, flipVertical img = Done out /\
    showsThrough img w h (fun a b => (a, h - 1 - b)) out.
Proof.
  revert img.
  shows_through flipVertical_spec (fun (w h a b : Z) => (a, b))
    (fun (w h a b : Z) => (a, h - 1 - b)).
Qed.

Lemma rotate180_shows img :
  wfImage img ->
  let w := Dx (Bounds img) in let h := Dy (Bounds img) in
  exists out, rotate180 img = Done out /\
    showsThrough img w h (fun a b => (w - 1 - a, h - 1 - b)) out.
Proof.
  revert img.
  shows_through rotate180_spec (fun (w h a b : Z) => (a, b))
    (fun (w h a b : Z) => (w - 1 - a, h - 1 - b)).
Qed.

Lemma rotate90_shows img :
  wfImage img ->
  let w := Dx (Bounds img) in let h := Dy (Bounds img) in
  exists out, rotate90 img = Done out /\
    showsThrough img h w (fun a b => (b, h - 1 - a)) out.
Proof.
  revert img.
  shows_through rotate90_spec (fun (w h a b : Z) => (b, h - 1 - a))
    (fun (w h a b : Z) => (b, h - 1 - a)).
Qed.

Lemma rotate270_shows img :
  wfImage img ->
  let w := Dx (Bounds img) in let h := Dy (Bounds img) in
  exists out, rotate270 img = Done out /\
    showsThrough img h w (fun a b => (w - 1 - b, a)) out.
Proof.
  revert img.
  shows_through rotate270_spec (fun (w h a b : Z) => (w - 1 - b, a))
    (fun (w h a b : Z) => (w - 1 - b, a)).
Qed.

Lemma transpose_shows img :
  wfImage img ->
  let w := Dx (Bounds img) in let h := Dy (Bounds img) in
  exists out, transpose img = Done out /\
    showsThrough img h w (fun a b => (b, a)) out.
Proof.
  revert img.
  shows_through transpose_spec (fun (w h a b : Z) => (b, a))
    (fun (w h a b : Z) => (b, a)).
Qed.

Lemma transverse_shows img :
  wfImage img ->
  let w := Dx (Bounds img) in let h := Dy (Bounds img) in
  exists out, transverse img = Done out /\
    showsThrough img h w (fun a b => (w - 1 - b, h - 1 - a)) out.
Proof.
  revert img.
  shows_through transverse_spec (fun (w h a b : Z) => (w - 1 - b, h - 1 - a))
    (fun (w h a b : Z) => (w - 1 - b, h - 1 - a)).
Qed.

Lemma showsThrough_unique (img img' : Image) (w' h' : Z)
      (pre pre' : Z -> Z -> Z * Z) (o o' : PixImage) :
  0 <= w' -> 0 <= h' ->
  showsThrough img w' h' pre o -> showsThrough img' w' h' pre' o' ->
  (forall a b, 0 <= a < w' -> 0 <= b < h' ->
     rgbaModel (colorAt img (MinX (Bounds img) + fst (pre a b))
                            (MinY (Bounds img) + snd (pre a b))) =
     rgbaModel (colorAt img' (MinX (Bounds img') + fst (pre' a b))
                             (MinY (Bounds img') + snd (pre' a b)))) ->
  o = o'.
Proof.
  intros Hw Hh (Hc & Hp) (Hc' & Hp') Heq.
  apply (canonical_ext o o' w' h' Hw Hh Hc Hc').
  intros x y Hx Hy. rewrite (Hp x y Hx Hy), (Hp' x y Hx Hy). now apply Heq.
Qed.

Lemma showsThrough_compose (img : Image) (w1 h1 w2 h2 : Z)
      (pre1 pre2 : Z -> Z -> Z * Z) (o1 o2 : PixImage) :
  showsThrough img w1 h1 pre1 o1 ->
  showsThrough (RGBAImage o1) w2 h2 pre2 o2 ->
  (forall a b, 0 <= a < w2 -> 0 <= b < h2 ->
     0 <= fst (pre2 a b) < w1 /\ 0 <= snd (pre2 a b) < h1) ->
  showsThrough img w2 h2 (fun a b => pre1 (fst (pre2 a b)) (snd (pre2 a b))) o2.
Proof.
  intros (Hc1 & Hp1) (Hc2 & Hp2) Hin. split; [exact Hc2|].
  intros a b Ha Hb. rewrite (Hp2 a b Ha Hb).
  destruct (canonical_Bounds o1 w1 h1 Hc1) as (_ & _ & -> & ->).
  destruct (Hin a b Ha Hb) as [Hx Hy].
  cbn [colorAt]. rewrite !Z.add_0_l, (Hp1 _ _ Hx Hy).
  apply rgbaModel_again.
Qed.

Lemma wfImage_dims (img : Image) :
  wfImage img -> 0 <= Dx (Bounds img) /\ 0 <= Dy (Bounds img).
Proof.
  intros Hwf. destruct (wfImage_bounds img Hwf). unfold Dx, Dy. lia.
Qed.

Lemma asOther_wf (img : Image) : wfImage img -> wfImage (asOther img).
Proof.
  intros Hwf. destruct (wfImage_bounds img Hwf). cbn. split; assumption.
Qed.

Ltac same_output H1 H2 :=
  let o1 := fresh "o" in let o2 := fresh "o" in
  let R1 := fresh "R" in let R2 := fresh "R" in
  let S1 := fresh "S" in let S2 := fresh "S" in
  destruct H1 as (o1 & R1 & S1); destruct H2 as (o2 & R2 & S2);
  rewrite R1, R2; f_equal.

(** X2: the Pix-copying fast paths compute what the generic At/Set loop does. *)
Theorem fast_paths_agree_with_generic (img : Image) :
  wfImage img ->
  flipHorizontal img = flipHorizontal (asOther img) /\
  flipVertical img = flipVertical (asOther img) /\
  rotate180 img = rotate180 (asOther img) /\
  rotate90 img = rotate90 (asOther img) /\
  rotate270 img = rotate270 (asOther img).
Proof.
  intros Hwf. pose proof (asOther_wf img Hwf) as Hwf'.
  destruct (wfImage_dims img Hwf) as [Hw Hh].
  repeat split.
  - same_output (flipHorizontal_shows img Hwf) (flipHorizontal_shows _ Hwf').
    eapply showsThrough_unique; [| | eassumption | eassumption |]; try assumption.
    reflexivity.
  - same_output (flipVertical_shows img Hwf) (flipVertical_shows _ Hwf').
    eapply showsThrough_unique; [| | eassumption | eassumption |]; try assumption.
    reflexivity.
  - same_output (rotate180_shows img Hwf) (rotate180_shows _ Hwf').
    eapply showsThrough_unique; [| | eassumption | eassumption |]; try assumption.
    reflexivity.
  - same_output (rotate90_shows img Hwf) (rotate90_shows _ Hwf').
    eapply showsThrough_unique; [| | eassumption | eassumption |]; try assumption.
    reflexivity.
  - same_output (rotate270_shows img Hwf) (rotate270_shows _ Hwf').
    eapply showsThrough_unique; [| | eassumption | eassumption |]; try assumption.
    reflexivity.
Qed.

(** Two transforms in a row against a third: all three are read from the
    destination and compared pixel by pixel. *)
Ltac in_a_row first second :=
  let o1 := fresh "o" in let o2 := fresh "o" in
  let R1 := fresh "R" in let R2 := fresh "R" in
  let S1 := fresh "S" in let S2 := fresh "S" in
  let W := fresh "W" in let T := fresh "T" in let S12 := fresh "S" in
  destruct first as (o1 & R1 & S1);
  assert (W : wfImage (RGBAImage o1))
    by (eapply canonical_wf; [| | exact (proj1 S1)]; assumption);
  pose proof (second (RGBAImage o1) W) as T; cbv zeta in T;
  destruct (canonical_Bounds o1 _ _ (proj1 S1)) as (-> & -> & _ & _) in T;
  destruct T as (o2 & R2 & S2);
  pose proof (showsThrough_compose _ _ _ _ _ _ _ _ _ S1 S2) as S12;
  match type of S12 with
  | ?A -> _ =>
      let Hin := fresh "Hin" in
      assert (Hin : A) by (cbn [fst snd]; intros; lia);
      specialize (S12 Hin); clear Hin
  end;
  unfold andThen; rewrite R1; cbn [bind]; rewrite R2; clear R1 R2 S1 S2 W.

Ltac against third :=
  let o3 := fresh "o" in let R3 := fresh "R" in let S3 := fresh "S" in
  destruct third as (o3 & R3 & S3); rewrite R3; f_equal;
  match goal with
  | S12 : showsThrough _ _ _ _ ?o |- ?o = _ =>
      eapply showsThrough_unique; [| | exact S12 | exact S3 |]; try assumption
  end;
  cbn [fst snd]; intros; do 2 f_equal; lia.

(** X3: quarter turns add up: two make the half turn, three the
    three-quarter turn, in either grouping; and a quarter turn one way
    followed by a quarter turn the other way, in either order, gives back
    the RGBA rendering of the image it started from. *)
Theorem quarter_turns_add_up (img : Image) :
  wfImage img ->
  andThen rotate90 rotate90 img = rotate180 img /\
  andThen rotate90 rotate180 img = rotate270 img /\
  andThen rotate180 rotate90 img = rotate270 img /\
  andThen rotate270 rotate270 img = rotate180 img /\
  exists out, rgbaRendering img out /\
    andThen rotate90 rotate270 img = Done out /\
    andThen rotate270 rotate90 img = Done out.
Proof.
  intros Hwf. destruct (wfImage_dims img Hwf) as [Hw Hh].
  pose proof (rotate90_shows img Hwf) as H90. cbv zeta in H90.
  pose proof (rotate180_shows img Hwf) as H180. cbv zeta in H180.
  pose proof (rotate270_shows img Hwf) as H270. cbv zeta in H270.
  split; [|split; [|split; [|split]]].
  - in_a_row H90 rotate90_shows. against H180.
  - in_a_row H90 rotate180_shows. against H270.
  - in_a_row H180 rotate90_shows. against H270.
  - in_a_row H270 rotate270_shows. against H180.
  - assert (Hb : exists o, andThen rotate90 rotate270 img = Done o /\
                   showsThrough img (Dx (Bounds img)) (Dy (Bounds img))
                     (fun a b => (a, b)) o).
    { in_a_row H90 rotate270_shows. eexists. split; [reflexivity|].
      match goal with
      | S12 : showsThrough _ _ _ _ _ |- _ =>
          destruct S12 as [C P]; split; [exact C|];
          intros a b Ha Hb; rewrite (P a b Ha Hb); cbn [fst snd]; do 2 f_equal; lia
      end. }
    destruct Hb as (ob & Rb & Sb). exists ob.
    split; [exact Sb|]. split; [exact Rb|].
    in_a_row H270 rotate90_shows. f_equal.
    match goal with
    | S12 : showsThrough _ _ _ _ ?o |- ?o = _ =>
        eapply showsThrough_unique; [| | exact S12 | exact Sb |]; try assumption
    end.
    cbn [fst snd]; intros; do 2 f_equal; lia.
Qed.

(** X4: the two diagonal mirrors and the half turn are composites of the
    simpler transforms, and the two axis mirrors commute. *)
Theorem mirrors_and_turns_compose (img : Image) :
  wfImage img ->
  andThen rotate90 flipHorizontal img = transpose img /\
  andThen flipHorizontal rotate270 img = transpose img /\
  andThen rotate90 flipVertical img = transverse img /\
  andThen flipHorizontal rotate90 img = transverse img /\
  andThen flipHorizontal flipVertical img = rotate180 img /\
  andThen flipVertical flipHorizontal img = rotate180 img.
Proof.
  intros Hwf. destruct (wfImage_dims img Hwf) as [Hw Hh].
  pose proof (rotate90_shows img Hwf) as H90. cbv zeta in H90.
  pose proof (rotate180_shows img Hwf) as H180. cbv zeta in H180.
  pose proof (flipHorizontal_shows img Hwf) as HfH. cbv zeta in HfH.
  pose proof (flipVertical_shows img Hwf) as HfV. cbv zeta in HfV.
  pose proof (transpose_shows img Hwf) as Htp. cbv zeta in Htp.
  pose proof (transverse_shows img Hwf) as Htv. cbv zeta in Htv.
  repeat split.
  - in_a_row H90 flipHorizontal_shows. against Htp.
  - in_a_row HfH rotate270_shows. against Htp.
  - in_a_row H90 flipVertical_shows. against Htv.
  - in_a_row HfH rotate90_shows. against Htv.
  - in_a_row HfH flipVertical_shows. against H180.
  - in_a_row HfV flipHorizontal_shows. against H180.
Qed.

Lemma showsThrough_rendering (img : Image) (pre : Z -> Z -> Z * Z) (o : PixImage) :
  showsThrough img (Dx (Bounds img)) (Dy (Bounds img)) pre o ->
  (forall a b, 0 <= a < Dx (Bounds img) -> 0 <= b < Dy (Bounds img) ->
     pre a b = (a, b)) ->
  rgbaRendering img o.
Proof.
  intros (C & P) E. split; [exact C|].
  intros x y Hx Hy. rewrite (P x y Hx Hy), (E x y Hx Hy). reflexivity.
Qed.

(** X5: each of the four mirrors undoes itself: applied twice it gives
    the RGBA rendering of the image it started from. *)
Theorem mirrors_are_involutions (img : Image) :
  wfImage img ->
  exists out, rgbaRendering img out /\
    andThen flipHorizontal flipHorizontal img = Done out /\
    andThen flipVertical flipVertical img = Done out /\
    andThen transpose transpose img = Done out /\
    andThen transverse transverse img = Done out.
Proof.
  intros Hwf. destruct (wfImage_dims img Hwf) as [Hw Hh].
  pose proof (flipHorizontal_shows img Hwf) as HfH. cbv zeta in HfH.
  pose proof (flipVertical_shows img Hwf) as HfV. cbv zeta in HfV.
  pose proof (transpose_shows img Hwf) as Htp. cbv zeta in Htp.
  pose proof (transverse_shows img Hwf) as Htv. cbv zeta in Htv.
  assert (Hr : exists out, andThen flipHorizontal flipHorizontal img = Done out /\
                           rgbaRendering img out).
  { pose proof HfH as HfH'. in_a_row HfH' flipHorizontal_shows.
    eexists. split; [reflexivity|].
    eapply showsThrough_rendering; [eassumption|].
    cbn [fst snd]; intros; f_equal; lia. }
  destruct Hr as (out & Hrun & R). exists out. split; [exact R|].
  change (rgbaRendering img out) with
    (showsThrough img (Dx (Bounds img)) (Dy (Bounds img)) (fun a b => (a, b)) out) in R.
  split; [exact Hrun|]. clear Hrun HfH. repeat split.
  - in_a_row HfV flipVertical_shows.
    f_equal. eapply showsThrough_unique; [| | eassumption | exact R |]; try assumption.
    cbn [fst snd]; intros; do 2 f_equal; lia.
  - in_a_row Htp transpose_shows.
    f_equal. eapply showsThrough_unique; [| | eassumption | exact R |]; try assumption.
    cbn [fst snd]; intros; do 2 f_equal; lia.
  - in_a_row Htv transverse_shows.
    f_equal. eapply showsThrough_unique; [| | eassumption | exact R |]; try assumption.
    cbn [fst snd]; intros; do 2 f_equal; lia.
Qed.

(** X1: what each of the seven transforms puts at each point of its
    result, and that none of them faults on a well-formed image: the result is
    a fresh RGBA image at the origin, of the size of the source (exchanged for
    the quarter turns and the diagonal mirrors), whose pixel [(a, b)] is the
    RGBA conversion of the source pixel given in the table, counted from the
    origin of the source. *)
Theorem orientation_transforms_pixel_table (img : Image) :
  wfImage img ->
  let w := Dx (Bounds img) in
  let h := Dy (Bounds img) in
  (exists out, flipHorizontal img = Done out /\
     showsThrough img w h (fun a b => (w - 1 - a, b)) out) /\
  (exists out, flipVertical img = Done out /\
     showsThrough img w h (fun a b => (a, h - 1 - b)) out) /\
  (exists out, rotate180 img = Done out /\
     showsThrough img w h (fun a b => (w - 1 - a, h - 1 - b)) out) /\
  (exists out, rotate90 img = Done out /\
     showsThrough img h w (fun a b => (b, h - 1 - a)) out) /\
  (exists out, rotate270 img = Done out /\
     showsThrough img h w (fun a b => (w - 1 - b, a)) out) /\
  (exists out, transpose img = Done out /\
     showsThrough img h w (fun a b => (b, a)) out) /\
  (exists out, transverse img = Done out /\
     showsThrough img h w (fun a b => (w - 1 - b, h - 1 - a)) out).
Proof.
  intros Hwf w h. repeat split.
  - exact (flipHorizontal_shows img Hwf).
  - exact (flipVertical_shows img Hwf).
  - exact (rotate180_shows img Hwf).
  - exact (rotate90_shows img Hwf).
  - exact (rotate270_shows img Hwf).
  - exact (transpose_shows img Hwf).
  - exact (transverse_shows img Hwf).
Qed.

Lemma rgba3x2_wf : wfImage (RGBAImage rgba3x2).
Proof. cbn [wfImage]. unfold wfPix, wfRect, Dx, Dy, len. cbn. lia. Qed.

Lemma offsetImage_wf : wfImage offsetImage.
Proof. cbn. unfold wfRect. cbn. lia. Qed.

Lemma nrgbaDim_wf : wfImage nrgbaDim.
Proof. cbn [wfImage nrgbaDim]. unfold wfPix, wfRect, Dx, Dy, len. cbn. lia. Qed.

Lemma orientation_transforms_pixel_table_witness :
  wfImage offsetImage /\
  exists out, transpose offsetImage = Done out /\
    showsThrough offsetImage 1 2 (fun a b => (b, a)) out.
Proof.
  split; [exact offsetImage_wf|].
  exact (proj1 (proj2 (proj2 (proj2 (proj2 (proj2
    (orientation_transforms_pixel_table offsetImage offsetImage_wf))))))).
Defined.

Lemma fast_paths_agree_with_generic_witness :
  wfImage nrgbaDim /\
  rotate90 nrgbaDim = rotate90 (asOther nrgbaDim) /\
  rotate90 nrgbaDim = Done (mkPixImage [0; 0; 0; 128] 4 (mkRectangle 0 0 1 1)).
Proof.
  split; [exact nrgbaDim_wf|]. split; [|vm_compute; reflexivity].
  exact (proj1 (proj2 (proj2 (proj2
    (fast_paths_agree_with_generic nrgbaDim nrgbaDim_wf))))).
Defined.

Lemma quarter_turns_add_up_witness :
  wfImage (RGBAImage rgba3x2) /\
  andThen rotate90 rotate270 (RGBAImage rgba3x2) = Done rgba3x2 /\
  andThen rotate90 rotate90 (RGBAImage rgba3x2) = rotate180 (RGBAImage rgba3x2) /\
  andThen rotate90 rotate180 (RGBAImage rgba3x2) = rotate270 (RGBAImage rgba3x2) /\
  andThen rotate180 rotate90 (RGBAImage rgba3x2) = rotate270 (RGBAImage rgba3x2) /\
  andThen rotate270 rotate270 (RGBAImage rgba3x2) = rotate180 (RGBAImage rgba3x2) /\
  exists out, rgbaRendering (RGBAImage rgba3x2) out /\
    andThen rotate90 rotate270 (RGBAImage rgba3x2) = Done out /\
    andThen rotate270 rotate90 (RGBAImage rgba3x2) = Done out.
Proof.
  split; [exact rgba3x2_wf|]. split; [vm_compute; reflexivity|].
  exact (quarter_turns_add_up (RGBAImage rgba3x2) rgba3x2_wf).
Defined.

Lemma mirrors_and_turns_compose_witness :
  wfImage (RGBAImage rgba3x2) /\
  andThen rotate90 flipHorizontal (RGBAImage rgba3x2) = transpose (RGBAImage rgba3x2).
Proof.
  split; [exact rgba3x2_wf|].
  exact (proj1 (mirrors_and_turns_compose (RGBAImage rgba3x2) rgba3x2_wf)).
Defined.

Lemma mirrors_are_involutions_witness :
  wfImage (RGBAImage rgba3x2) /\
  andThen transverse transverse (RGBAImage rgba3x2) = Done rgba3x2 /\
  exists out, rgbaRendering (RGBAImage rgba3x2) out /\
    andThen flipHorizontal flipHorizontal (RGBAImage rgba3x2) = Done out /\
    andThen flipVertical flipVertical (RGBAImage rgba3x2) = Done out /\
    andThen transpose transpose (RGBAImage rgba3x2) = Done out /\
    andThen transverse transverse (RGBAImage rgba3x2) = Done out.
Proof.
  split; [exact rgba3x2_wf|]. split; [vm_compute; reflexivity|].
  exact (mirrors_are_involutions (RGBAImage rgba3x2) rgba3x2_wf).
Defined.

(** ** Opaque NRGBA sources *)

Lemma shiftr8_spread8 (v : Z) : 0 <= v < 256 -> to_uint8 (Z.shiftr (spread8 v) 8) = v.
Proof.
  intros Hv. unfold spread8, to_uint8.
  rewrite lor_shiftl_add by lia. rewrite Z.shiftr_div_pow2 by lia.
  change (2 ^ 8) with 256.
  replace ((v + v * 256) / 256) with v
    by (apply (Z.div_unique _ _ v v); lia).
  apply Z.mod_small. lia.
Qed.

Lemma premul8_opaque (v : Z) : 0 <= v < 256 -> premul8 v 255 = spread8 v.
Proof.
  intros Hv. unfold premul8, to_uint32, uint32_mod.
  assert (E : spread8 v = 257 * v) by (unfold spread8; rewrite lor_shiftl_add by lia; lia).
  rewrite E. change (2 ^ 32) with 4294967296. rewrite Z.mod_small by lia.
  change 0xff with 255. apply Z.div_mul. lia.
Qed.

(** The conversion of an opaque NRGBA pixel keeps its four bytes. *)
Lemma rgbaModel_opaque (s : list Z) :
  0 <= nth 0 s 0 < 256 -> 0 <= nth 1 s 0 < 256 -> 0 <= nth 2 s 0 < 256 ->
  nth 3 s 0 = 255 ->
  rgbaModel (colorOf ColorNRGBA s) = rgbaModel (colorOf ColorRGBA s).
Proof.
  intros H0 H1 H2 H3. unfold colorOf. cbn [rgbaModel Color_RGBA]. rewrite H3.
  rewrite !premul8_opaque, !shiftr8_spread8 by lia. reflexivity.
Qed.

Ltac same_on_opaque H1 H2 Hop :=
  let o1 := fresh "o" in let o2 := fresh "o" in
  let R1 := fresh "R" in let R2 := fresh "R" in
  let S1 := fresh "S" in let S2 := fresh "S" in
  destruct H1 as (o1 & R1 & S1); destruct H2 as (o2 & R2 & S2);
  rewrite R1, R2; f_equal;
  (eapply showsThrough_unique; [| | exact S1 | exact S2 |]; try assumption);
  cbn [fst snd Bounds colorAt]; intros a b Ha Hb;
  apply rgbaModel_opaque; apply Hop; lia.

(** X6: on an [image.NRGBA] whose pixels are all opaque, every
    transform gives what it gives on an [image.RGBA] with the same buffer:
    the conversion of each pixel keeps its bytes. *)
Theorem transforms_on_opaque_NRGBA (p : PixImage) :
  wfImage (NRGBAImage p) -> opaqueNRGBA p ->
  flipHorizontal (NRGBAImage p) = flipHorizontal (RGBAImage p) /\
  flipVertical (NRGBAImage p) = flipVertical (RGBAImage p) /\
  rotate180 (NRGBAImage p) = rotate180 (RGBAImage p) /\
  rotate90 (NRGBAImage p) = rotate90 (RGBAImage p) /\
  rotate270 (NRGBAImage p) = rotate270 (RGBAImage p) /\
  transpose (NRGBAImage p) = transpose (RGBAImage p) /\
  transverse (NRGBAImage p) = transverse (RGBAImage p).
Proof.
  intros Hwf Hop.
  assert (Hwf' : wfImage (RGBAImage p)) by exact Hwf.
  destruct (wfImage_dims _ Hwf) as [Hw Hh]. cbn [Bounds] in Hw, Hh.
  repeat split.
  - same_on_opaque (flipHorizontal_shows _ Hwf) (flipHorizontal_shows _ Hwf') Hop.
  - same_on_opaque (flipVertical_shows _ Hwf) (flipVertical_shows _ Hwf') Hop.
  - same_on_opaque (rotate180_shows _ Hwf) (rotate180_shows _ Hwf') Hop.
  - same_on_opaque (rotate90_shows _ Hwf) (rotate90_shows _ Hwf') Hop.
  - same_on_opaque (rotate270_shows _ Hwf) (rotate270_shows _ Hwf') Hop.
  - same_on_opaque (transpose_shows _ Hwf) (transpose_shows _ Hwf') Hop.
  - same_on_opaque (transverse_shows _ Hwf) (transverse_shows _ Hwf') Hop.
Qed.

Lemma transforms_on_opaque_NRGBA_witness :
  wfImage (NRGBAImage opaque2x1) /\ opaqueNRGBA opaque2x1 /\
  rotate90 (NRGBAImage opaque2x1) =
    Done (mkPixImage [10; 20; 30; 255; 40; 50; 60; 255] 4 (mkRectangle 0 0 1 2)) /\
  flipHorizontal (NRGBAImage opaque2x1) = flipHorizontal (RGBAImage opaque2x1) /\
  flipVertical (NRGBAImage opaque2x1) = flipVertical (RGBAImage opaque2x1) /\
  rotate180 (NRGBAImage opaque2x1) = rotate180 (RGBAImage opaque2x1) /\
  rotate90 (NRGBAImage opaque2x1) = rotate90 (RGBAImage opaque2x1) /\
  rotate270 (NRGBAImage opaque2x1) = rotate270 (RGBAImage opaque2x1) /\
  transpose (NRGBAImage opaque2x1) = transpose (RGBAImage opaque2x1) /\
  transverse (NRGBAImage opaque2x1) = transverse (RGBAImage opaque2x1).
Proof.
  assert (Hwf : wfImage (NRGBAImage opaque2x1)).
  { cbn [wfImage]. unfold wfPix, wfRect, Dx, Dy, len. cbn. lia. }
  assert (Hop : opaqueNRGBA opaque2x1).
  { intros x y Hx Hy.
    assert (Ey : y = 0) by (revert Hy; unfold Dy; cbn; lia).
    assert (Ex : x = 0 \/ x = 1) by (revert Hx; unfold Dx; cbn; lia).
    subst y. destruct Ex as [-> | ->]; vm_compute; repeat split; congruence. }
  split; [exact Hwf|]. split; [exact Hop|]. split; [vm_compute; reflexivity|].
  exact (transforms_on_opaque_NRGBA opaque2x1 Hwf Hop).
Defined.

(** ** The path of the marker loop *)

Lemma subslice_HasPrefix (s : bytes) (a b : Z) :
  0 <= a -> a + 6 <= b -> b <= len s ->
  subslice s a (a + 6) = exifHeader ->
  HasPrefix (subslice s a b) exifHeader = true.
Proof.
  intros Ha Hab Hb E. unfold HasPrefix.
  assert (Hl : len (subslice s a b) = b - a) by (apply subslice_len; lia).
  change (length exifHeader) with 6%nat.
  replace (6 <=? length (subslice s a b))%nat with true
    by (symmetry; apply Nat.leb_le; unfold len in Hl; lia).
  cbn [andb].
  destruct (list_eq_dec _ _ _) as [_|N]; [reflexivity|].
  exfalso. apply N. rewrite <- E. unfold subslice. rewrite firstn_firstn.
  f_equal. lia.
Qed.

(** One turn of the loop, read on the buffer. *)
Lemma scanMarkers_turn (fuel : nat) (data : bytes) (i : Z) :
  len data < 2 ^ 62 -> 2 <= i -> i + 4 <= len data ->
  scanMarkers 64 (S fuel) data i =
  if negb (byteAt data i =? 0xFF) then scanMarkers 64 fuel data (i + 1)
  else
    let m := byteAt data (i + 1) in
    if (m =? 0xD9) || (m =? 0xDA) then Done None
    else if standalone m then scanMarkers 64 fuel data (i + 2)
    else
      let segLen := rd16 BigEndian data (i + 2) in
      if (segLen <? 2) || (len data <? i + 2 + segLen) then Done None
      else if (m =? 0xE1) && (8 <=? segLen) &&
              HasPrefix (subslice data (i + 4) (i + 2 + segLen)) exifHeader
      then
        r <- parseExifOrientation 64 (subslice data (i + 10) (i + 2 + segLen)) ;;
        match r with
        | Some o => Done (Some o)
        | None => scanMarkers 64 fuel data (i + 2 + segLen)
        end
      else scanMarkers 64 fuel data (i + 2 + segLen).
Proof.
  intros Hlen Hi Hroom. cbn [scanMarkers]. int64.
  destruct (Z.leb_spec (i + 4) (len data)) as [_|?]; [|lia]. cbn [negb].
  rewrite index_in_range by lia. cbn [bind].
  destruct (Z.eqb_spec (byteAt data i) 0xFF) as [Hff|Hff]; cbn [negb]; [|reflexivity].
  rewrite Z.geb_leb. destruct (Z.leb_spec (len data) (i + 1)) as [?|_]; [lia|].
  rewrite index_in_range by lia. cbn [bind]. cbv zeta.
  set (marker := byteAt data (i + 1)) in *.
  destruct ((marker =? 0xD9) || (marker =? 0xDA)); [reflexivity|].
  unfold standalone.
  destruct ((marker =? 0x01) || ((0xD0 <=? marker) && (marker <=? 0xD7))); [reflexivity|].
  rewrite Z.gtb_ltb. destruct (Z.ltb_spec (len data) (i + 2 + 2)) as [?|_]; [lia|].
  rewrite slice_Uint16 by lia.
  pose proof (rd16_range BigEndian data (i + 2)) as Hseg.
  set (segLen := rd16 BigEndian data (i + 2)) in *.
  int64.
  destruct (Z.ltb_spec segLen 2) as [_|Hseg2]; [reflexivity|].
  rewrite Z.gtb_ltb. cbn [orb].
  destruct (Z.ltb_spec (len data) (i + 2 + segLen)) as [_|Hfit]; [reflexivity|].
  destruct (Z.eqb_spec marker 0xE1) as [He1|He1]; cbn [andb]; [|reflexivity].
  rewrite Z.geb_leb. destruct (Z.leb_spec 8 segLen) as [Hseg8|Hseg8]; [|reflexivity].
  rewrite slice_in_range by lia. cbn [bind andb].
  rewrite subslice_len by lia.
  rewrite Z.geb_leb. destruct (Z.leb_spec 6 (i + 2 + segLen - (i + 2 + 2))) as [_|?];
    [|lia]. cbn [andb].
  replace (i + 2 + 2) with (i + 4) by lia.
  destruct (HasPrefix _ exifHeader) eqn:Hpre; [|reflexivity].
  unfold sliceFrom. rewrite subslice_len by lia.
  rewrite slice_in_range by (rewrite ?subslice_len; lia). cbn [bind].
  rewrite subslice_subslice by lia.
  replace (i + 4 + (i + 2 + segLen - (i + 4))) with (i + 2 + segLen) by lia.
  replace (i + 4 + 6) with (i + 10) by lia.
  reflexivity.
Qed.

Lemma standalone_not_stop (m : Z) :
  standalone m = true -> (m =? 0xD9) || (m =? 0xDA) = false.
Proof. unfold standalone. lia. Qed.

Lemma skips_turn (fuel : nat) (data : bytes) (i j : Z) :
  len data < 2 ^ 62 -> 2 <= i -> skips data i j ->
  scanMarkers 64 (S fuel) data i = scanMarkers 64 fuel data j.
Proof.
  intros Hlen Hi Hs.
  destruct Hs as [Hroom Hff|Hroom Hff Hst|Hroom Hff Hd9 Hda Hst Hseg2 Hfit Hno];
    rewrite scanMarkers_turn by assumption.
  - destruct (Z.eqb_spec (byteAt data i) 0xFF); [contradiction | reflexivity].
  - rewrite Hff. cbn [Z.eqb Pos.eqb negb]. cbv zeta.
    now rewrite (standalone_not_stop _ Hst), Hst.
  - rewrite Hff. cbn [Z.eqb Pos.eqb negb]. cbv zeta.
    replace ((byteAt data (i + 1) =? 0xD9) || (byteAt data (i + 1) =? 0xDA)) with false by lia.
    rewrite Hst.
    replace ((rd16 BigEndian data (i + 2) <? 2) ||
             (len data <? i + 2 + rd16 BigEndian data (i + 2))) with false by lia.
    set (segLen := rd16 BigEndian data (i + 2)) in *.
    destruct (Z.eqb_spec (byteAt data (i + 1)) 0xE1) as [He1|He1]; cbn [andb]; [|reflexivity].
    destruct (Z.leb_spec 8 segLen) as [Hseg8|Hseg8]; cbn [andb]; [|reflexivity].
    destruct (HasPrefix _ exifHeader) eqn:Hpre; [|reflexivity].
    destruct (parseExifOrientation_spec (subslice data (i + 10) (i + 2 + segLen)))
      as (r & Hr & Hspec).
    { rewrite subslice_len by lia. lia. }
    rewrite Hr. cbn [bind]. destruct r as [o|]; [|reflexivity].
    exfalso. apply (Hno o). unfold exifSegmentAt. cbv zeta. fold segLen.
    split; [lia|]. split; [exact Hff|]. split; [exact He1|].
    split; [exact Hseg8|]. split; [exact Hfit|]. split.
    + replace (i + 10) with (i + 4 + 6) by lia.
      eapply HasPrefix_subslice; [| | |exact Hpre]; lia.
    + now apply Hspec.
Qed.

Lemma exifSegmentAt_turn (fuel : nat) (data : bytes) (i v : Z) :
  len data < 2 ^ 62 -> exifSegmentAt data i v ->
  scanMarkers 64 (S fuel) data i = Done (Some v).
Proof.
  intros Hlen (Hi & Hff & He1 & H). cbv zeta in H.
  destruct H as (Hseg8 & Hfit & Hsig & Htiff).
  rewrite scanMarkers_turn by lia.
  rewrite Hff, He1. cbn [Z.eqb Pos.eqb negb orb andb standalone Z.leb Z.compare Pos.compare
                         Pos.compare_cont]. cbv zeta.
  set (segLen := rd16 BigEndian data (i + 2)) in *.
  replace ((segLen <? 2) || (len data <? i + 2 + segLen)) with false by lia.
  replace (8 <=? segLen) with true by lia.
  rewrite subslice_HasPrefix by (try lia; replace (i + 4 + 6) with (i + 10) by lia; exact Hsig).
  destruct (parseExifOrientation_spec (subslice data (i + 10) (i + 2 + segLen)))
    as (r & Hr & Hspec).
  { rewrite subslice_len by lia. lia. }
  rewrite Hr. cbn [bind]. apply Hspec in Htiff. now rewrite Htiff.
Qed.

Lemma skips_forward (data : bytes) (i j : Z) : skips data i j -> i < j <= len data.
Proof. intros []; lia. Qed.

Lemma reaches_forward (data : bytes) (i p : Z) :
  reaches data i p -> i <= len data -> i <= p <= len data.
Proof.
  induction 1 as [i|i j p Hs _ IH]; intros Hi; [lia|].
  apply skips_forward in Hs. lia.
Qed.

(** What the loop returns lies on its path. *)
Lemma scanMarkers_path (fuel : nat) (data : bytes) (i : Z) :
  len data < 2 ^ 62 -> 2 <= i <= len data -> len data - i < Z.of_nat fuel ->
  exists r, scanMarkers 64 fuel data i = Done r /\
    forall v, r = Some v -> exists p, reaches data i p /\ exifSegmentAt data p v.
Proof.
  intros Hlen. revert i.
  induction fuel as [|fuel IH]; intros i Hi Hfuel; [lia|].
  assert (Hnone : exists r : option Z, Done (A := option Z) None = Done r /\
            forall v, r = Some v -> exists p, reaches data i p /\ exifSegmentAt data p v).
  { exists None. split; [reflexivity | discriminate]. }
  assert (Hnext : forall j, skips data i j ->
            exists r, scanMarkers 64 fuel data j = Done r /\
              forall v, r = Some v -> exists p, reaches data i p /\ exifSegmentAt data p v).
  { intros j Hs. pose proof (skips_forward _ _ _ Hs) as Hj.
    destruct (IH j ltac:(lia) ltac:(lia)) as (r & Hr & Hp).
    exists r. split; [exact Hr|]. intros v Hv.
    destruct (Hp v Hv) as (p & Hreach & Hseg).
    exists p. split; [|exact Hseg]. now apply (reaches_next data i j p). }
  destruct (Z.leb_spec (i + 4) (len data)) as [Hroom|Hend].
  2:{ cbn [scanMarkers]. int64.
      destruct (Z.leb_spec (i + 4) (len data)) as [?|_]; [lia|]. exact Hnone. }
  rewrite scanMarkers_turn by lia.
  destruct (Z.eqb_spec (byteAt data i) 0xFF) as [Hff|Hff]; cbn [negb].
  2:{ apply Hnext. now constructor. }
  cbv zeta.
  destruct ((byteAt data (i + 1) =? 0xD9) || (byteAt data (i + 1) =? 0xDA)) eqn:Hstop;
    [exact Hnone|].
  destruct (standalone (byteAt data (i + 1))) eqn:Hst.
  { apply Hnext. now constructor. }
  pose proof (rd16_range BigEndian data (i + 2)) as Hseg.
  set (segLen := rd16 BigEndian data (i + 2)) in *.
  destruct ((segLen <? 2) || (len data <? i + 2 + segLen)) eqn:Hbad; [exact Hnone|].
  assert (Hskip : (forall v, ~ exifSegmentAt data i v) ->
                  skips data i (i + 2 + segLen)).
  { intros Hno. apply skips_segment; try assumption; lia. }
  destruct (Z.eqb_spec (byteAt data (i + 1)) 0xE1) as [He1|He1]; cbn [andb].
  2:{ apply Hnext, Hskip. intros v (_ & _ & E & _). contradiction. }
  destruct (Z.leb_spec 8 segLen) as [Hseg8|Hseg8]; cbn [andb].
  2:{ apply Hnext, Hskip. intros v (_ & _ & _ & H). cbv zeta in H. fold segLen in H. lia. }
  destruct (HasPrefix _ exifHeader) eqn:Hpre.
  2:{ apply Hnext, Hskip. intros v (_ & _ & _ & H). cbv zeta in H. fold segLen in H.
      destruct H as (_ & _ & Hsig & _).
      rewrite subslice_HasPrefix in Hpre; [discriminate|lia|lia|lia|].
      replace (i + 4 + 6) with (i + 10) by lia. exact Hsig. }
  destruct (parseExifOrientation_spec (subslice data (i + 10) (i + 2 + segLen)))
    as (r & Hr & Hspec).
  { rewrite subslice_len by lia. lia. }
  rewrite Hr. cbn [bind]. destruct r as [o|].
  2:{ apply Hnext, Hskip. intros v (_ & _ & _ & H). cbv zeta in H. fold segLen in H.
      destruct H as (_ & _ & _ & Ht). apply Hspec in Ht. discriminate. }
  exists (Some o). split; [reflexivity|].
  intros v [= <-]. exists i. split; [constructor|].
  unfold exifSegmentAt. cbv zeta. fold segLen.
  split; [lia|]. split; [exact Hff|]. split; [exact He1|].
  split; [exact Hseg8|]. split; [lia|]. split.
  - replace (i + 10) with (i + 4 + 6) by lia.
    eapply HasPrefix_subslice; [| | |exact Hpre]; lia.
  - now apply Hspec.
Qed.

(** A segment on the path is found. *)
Lemma reaches_found (data : bytes) (i p v : Z) :
  len data < 2 ^ 62 -> reaches data i p -> exifSegmentAt data p v ->
  forall fuel, 2 <= i -> len data - i < Z.of_nat fuel ->
  scanMarkers 64 fuel data i = Done (Some v).
Proof.
  intros Hlen Hreach Hseg.
  induction Hreach as [i|i j p Hs _ IH]; intros fuel Hi Hfuel.
  - destruct fuel as [|fuel].
    + destruct Hseg as (_ & _ & _ & H). cbv zeta in H.
      pose proof (rd16_range BigEndian data (i + 2)). lia.
    + now apply exifSegmentAt_turn.
  - pose proof (skips_forward _ _ _ Hs) as Hj.
    destruct fuel as [|fuel]; [lia|].
    rewrite (skips_turn fuel data i j Hlen Hi Hs).
    apply IH; [exact Hseg | lia | lia].
Qed.

(** The path ends at EOI and at SOS. *)
Lemma reaches_stop (data : bytes) (i p : Z) :
  len data < 2 ^ 62 -> reaches data i p ->
  byteAt data p = 0xFF ->
  byteAt data (p + 1) = 0xD9 \/ byteAt data (p + 1) = 0xDA ->
  forall fuel, 2 <= i <= len data -> len data - i < Z.of_nat fuel ->
  scanMarkers 64 fuel data i = Done None.
Proof.
  intros Hlen Hreach Hff Hstop.
  induction Hreach as [i|i j p Hs _ IH]; intros fuel Hi Hfuel.
  - destruct fuel as [|fuel].
    + lia.
    + destruct (Z.leb_spec (i + 4) (len data)) as [Hroom|Hend].
      * rewrite scanMarkers_turn by lia. rewrite Hff. cbn [Z.eqb Pos.eqb negb]. cbv zeta.
        now replace ((byteAt data (i + 1) =? 0xD9) || (byteAt data (i + 1) =? 0xDA))
          with true by lia.
      * cbn [scanMarkers]. int64.
        now destruct (Z.leb_spec (i + 4) (len data)) as [?|_]; [lia|].
  - pose proof (skips_forward _ _ _ Hs) as Hj.
    destruct fuel as [|fuel]; [lia|].
    rewrite (skips_turn fuel data i j Hlen (proj1 Hi) Hs).
    apply IH; [exact Hff | exact Hstop | lia | lia].
Qed.

Lemma exifOrientationJPEG_on_path (data : bytes) :
  len data < 2 ^ 62 ->
  exists r, exifOrientationJPEG 64 data = Done r /\
    forall v, r = Some v <->
      4 <= len data /\ byteAt data 0 = 0xFF /\ byteAt data 1 = 0xD8 /\
      exists p, reaches data 2 p /\ exifSegmentAt data p v.
Proof.
  intros Hlen. unfold exifOrientationJPEG.
  destruct (Z.ltb_spec (len data) 4) as [Hshort|Hlong].
  { exists None. split; [reflexivity|]. split; [discriminate | lia]. }
  rewrite !index_in_range by lia. cbn [bind].
  destruct (Z.eqb_spec (byteAt data 0) 0xFF) as [H0|H0]; cbn [negb orb].
  2:{ exists None. split; [reflexivity|]. split; [discriminate|]. intros (_ & E & _).
      contradiction. }
  destruct (Z.eqb_spec (byteAt data 1) 0xD8) as [H1|H1]; cbn [negb].
  2:{ exists None. split; [reflexivity|]. split; [discriminate|]. intros (_ & _ & E & _).
      contradiction. }
  destruct (scanMarkers_path (length data) data 2) as (r & Hr & Hpath);
    [exact Hlen | lia | unfold len; lia |].
  exists r. split; [exact Hr|]. intros v. split.
  - intros Hv. repeat (split; [assumption|]). now apply Hpath.
  - intros (_ & _ & _ & p & Hreach & Hseg).
    pose proof (reaches_found data 2 p v Hlen Hreach Hseg (length data)) as Hf.
    rewrite Hf in Hr by (unfold len; lia). now injection Hr as <-.
Qed.

(** X7: with Go's [int] at 64 bits, the detector returns the
    orientation [v] exactly when the input starts with the SOI marker and the
    marker loop, started after it, comes to an APP1 segment with a well-formed
    Exif orientation [v]: the first such segment on the path of the loop is
    the one that counts, and nothing off the path is looked at. *)
Theorem exifOrientationJPEG_finds_first_on_path (data : bytes) :
  len data < 2 ^ 62 ->
  exists r, exifOrientationJPEG 64 data = Done r /\
    forall v, r = Some v <->
      4 <= len data /\ byteAt data 0 = 0xFF /\ byteAt data 1 = 0xD8 /\
      exists p, reaches data 2 p /\ exifSegmentAt data p v.
Proof.
  intros Hlen.
  destruct (exifOrientationJPEG_on_path data Hlen) as (r & Hr & Hiff).
  exists r. split; [exact Hr|]. intros v. split.
  - intros Hv. now apply Hiff.
  - intros Hpath. now apply Hiff.
Qed.

Lemma exifOrientationJPEG_finds_first_on_path_witness :
  len (jpegWithOrientation 6) < 2 ^ 62 /\
  exifOrientationJPEG 64 (jpegWithOrientation 6) = Done (Some 6) /\
  exists r, exifOrientationJPEG 64 (jpegWithOrientation 6) = Done r /\
    forall v, r = Some v <->
      4 <= len (jpegWithOrientation 6) /\
      byteAt (jpegWithOrientation 6) 0 = 0xFF /\
      byteAt (jpegWithOrientation 6) 1 = 0xD8 /\
      exists p, reaches (jpegWithOrientation 6) 2 p /\
                exifSegmentAt (jpegWithOrientation 6) p v.
Proof.
  split; [vm_compute; reflexivity|].
  split; [vm_compute; reflexivity|].
  apply (exifOrientationJPEG_finds_first_on_path (jpegWithOrientation 6)).
  vm_compute; reflexivity.
Defined.

(** X8: the loop ends at the first EOI or SOS marker on its path: an
    Exif segment that comes after it is not read, the detector answers "not
    found", and [applyEXIFOrientation] hands back the image it was given. *)
Theorem exifOrientationJPEG_stops_at_scan (data : bytes) (p : Z) :
  len data < 2 ^ 62 -> 4 <= len data ->
  byteAt data 0 = 0xFF -> byteAt data 1 = 0xD8 ->
  reaches data 2 p ->
  byteAt data p = 0xFF ->
  byteAt data (p + 1) = 0xD9 \/ byteAt data (p + 1) = 0xDA ->
  exifOrientationJPEG 64 data = Done None /\
  forall img, applyEXIFOrientation 64 img data = Done img.
Proof.
  intros Hlen Hlong H0 H1 Hreach Hff Hstop.
  assert (E : exifOrientationJPEG 64 data = Done None).
  { unfold exifOrientationJPEG.
    destruct (Z.ltb_spec (len data) 4) as [?|_]; [lia|].
    rewrite !index_in_range by lia. cbn [bind]. rewrite H0, H1.
    cbn [Z.eqb Pos.eqb negb orb].
    apply (reaches_stop data 2 p Hlen Hreach Hff Hstop); unfold len in *; lia. }
  split; [exact E|]. intros img. unfold applyEXIFOrientation. now rewrite E.
Qed.

Lemma exifOrientationJPEG_stops_at_scan_witness :
  len jpegExifAfterScan < 2 ^ 62 /\ 4 <= len jpegExifAfterScan /\
  byteAt jpegExifAfterScan 0 = 0xFF /\ byteAt jpegExifAfterScan 1 = 0xD8 /\
  reaches jpegExifAfterScan 2 8 /\
  byteAt jpegExifAfterScan 8 = 0xFF /\
  (byteAt jpegExifAfterScan (8 + 1) = 0xD9 \/ byteAt jpegExifAfterScan (8 + 1) = 0xDA) /\
  exifSegmentAt jpegExifAfterScan 10 6 /\
  exifOrientationJPEG 64 jpegExifAfterScan = Done None /\
  forall img, applyEXIFOrientation 64 img jpegExifAfterScan = Done img.
Proof.
  assert (Hreach : reaches jpegExifAfterScan 2 8).
  { apply (reaches_next jpegExifAfterScan 2 8 8); [|constructor].
    change 8 with (2 + 2 + rd16 BigEndian jpegExifAfterScan (2 + 2)) at 1.
    apply skips_segment; try (vm_compute; reflexivity); try (vm_compute; discriminate).
    intros v (_ & _ & E & _). vm_compute in E. discriminate. }
  assert (Hstop : byteAt jpegExifAfterScan (8 + 1) = 0xD9 \/
                  byteAt jpegExifAfterScan (8 + 1) = 0xDA)
    by (right; vm_compute; reflexivity).
  assert (Hseg : exifSegmentAt jpegExifAfterScan 10 6).
  { unfold exifSegmentAt. cbv zeta.
    split; [lia|]. split; [vm_compute; reflexivity|]. split; [vm_compute; reflexivity|].
    split; [vm_compute; discriminate|]. split; [vm_compute; discriminate|].
    split; [vm_compute; reflexivity|].
    destruct (parseExifOrientation_spec
                (subslice jpegExifAfterScan (10 + 10) (10 + 2 + rd16 BigEndian jpegExifAfterScan (10 + 2))))
      as (r' & Hr' & Hs').
    { vm_compute; reflexivity. }
    apply Hs'. vm_compute in Hr'. now injection Hr' as <-. }
  split; [vm_compute; reflexivity|]. split; [vm_compute; discriminate|].
  split; [vm_compute; reflexivity|]. split; [vm_compute; reflexivity|].
  split; [exact Hreach|]. split; [vm_compute; reflexivity|].
  split; [exact Hstop|]. split; [exact Hseg|].
  apply (exifOrientationJPEG_stops_at_scan jpegExifAfterScan 8);
    try (vm_compute; reflexivity); try (vm_compute; discriminate); assumption.
Defined.

(** X10: a payload that does not start with the two bytes of the SOI
    marker, or has fewer than four bytes, is never searched, whatever the
    width of [int]: the detector answers "not found" and
    [applyEXIFOrientation] hands back the image it was given, not a copy. *)
Theorem applyEXIFOrientation_keeps_non_jpeg (W : Z) (img : Image) (payload : bytes) :
  len payload < 4 \/ byteAt payload 0 <> 0xFF \/ byteAt payload 1 <> 0xD8 ->
  exifOrientationJPEG W payload = Done None /\
  applyEXIFOrientation W img payload = Done img.
Proof.
  intros H.
  assert (E : exifOrientationJPEG W payload = Done None).
  { unfold exifOrientationJPEG.
    destruct (Z.ltb_spec (len payload) 4) as [_|Hlong]; [reflexivity|].
    rewrite !index_in_range by lia. cbn [bind].
    destruct (Z.eqb_spec (byteAt payload 0) 0xFF) as [H0|H0]; cbn [negb orb]; [|reflexivity].
    destruct (Z.eqb_spec (byteAt payload 1) 0xD8) as [H1|H1]; cbn [negb]; [|reflexivity].
    destruct H as [?|[?|?]]; [lia | contradiction | contradiction]. }
  split; [exact E|]. unfold applyEXIFOrientation. now rewrite E.
Qed.

Lemma applyEXIFOrientation_keeps_non_jpeg_witness :
  (len pngLike < 4 \/ byteAt pngLike 0 <> 0xFF \/ byteAt pngLike 1 <> 0xD8) /\
  exifOrientationJPEG 64 pngLike = Done None /\
  applyEXIFOrientation 64 offsetImage pngLike = Done offsetImage.
Proof.
  assert (H : len pngLike < 4 \/ byteAt pngLike 0 <> 0xFF \/ byteAt pngLike 1 <> 0xD8)
    by (right; left; vm_compute; discriminate).
  split; [exact H|].
  exact (applyEXIFOrientation_keeps_non_jpeg 64 offsetImage pngLike H).
Defined.

(** ** Bytes after the end *)

Lemma len_app (a b : bytes) : len (a ++ b) = len a + len b.
Proof. unfold len. rewrite length_app. lia. Qed.

Lemma byteAt_app (a b : bytes) (i : Z) :
  0 <= i < len a -> byteAt (a ++ b) i = byteAt a i.
Proof.
  intros Hi. unfold byteAt. rewrite app_nth1; [reflexivity|]. unfold len in Hi. lia.
Qed.

Lemma rd16_app (o : ByteOrder) (a b : bytes) (i : Z) :
  0 <= i -> i + 2 <= len a -> rd16 o (a ++ b) i = rd16 o a i.
Proof.
  intros H1 H2. destruct o; cbn [rd16]; rewrite !byteAt_app by lia; reflexivity.
Qed.

Lemma subslice_app (a b : bytes) (lo hi : Z) :
  0 <= lo -> lo <= hi -> hi <= len a -> subslice (a ++ b) lo hi = subslice a lo hi.
Proof.
  intros H1 H2 H3. unfold subslice. unfold len in H3.
  rewrite skipn_app, firstn_app, length_skipn.
  replace (Z.to_nat (hi - lo) - (length a - Z.to_nat lo))%nat with O by lia.
  cbn [firstn]. now rewrite app_nil_r.
Qed.

Lemma exifSegmentAt_app (a b : bytes) (p v : Z) :
  2 <= p -> p + 4 <= len a -> p + 2 + rd16 BigEndian a (p + 2) <= len a ->
  exifSegmentAt (a ++ b) p v <-> exifSegmentAt a p v.
Proof.
  intros Hp Hroom Hfit. unfold exifSegmentAt. cbv zeta.
  pose proof (rd16_range BigEndian a (p + 2)) as Hr.
  rewrite (rd16_app BigEndian a b (p + 2)) by lia.
  rewrite !byteAt_app by lia. rewrite len_app.
  pose proof (len_nonneg b) as Hb.
  split; intros (H1 & H2 & H3 & H4 & H5 & H6 & H7); repeat (split; [assumption || lia|]).
  - rewrite !subslice_app in H6, H7 by lia. now split.
  - rewrite !subslice_app by lia. now split.
Qed.

Lemma skips_app (a b : bytes) (i j : Z) :
  2 <= i -> skips a i j -> skips (a ++ b) i j.
Proof.
  intros Hi Hs. pose proof (len_nonneg b) as Hb.
  destruct Hs as [Hroom Hff|Hroom Hff Hst|Hroom Hff Hd9 Hda Hst Hseg2 Hfit Hno].
  - apply skips_byte; [rewrite len_app; lia | now rewrite byteAt_app by lia].
  - apply skips_standalone; [rewrite len_app; lia | |]; now rewrite byteAt_app by lia.
  - rewrite <- (rd16_app BigEndian a b (i + 2)) by lia.
    apply skips_segment; rewrite ?byteAt_app, ?rd16_app, ?len_app by lia;
      try assumption; try lia.
    intros v Hv. apply (Hno v). now apply (exifSegmentAt_app a b i v).
Qed.

Lemma reaches_app (a b : bytes) (i p : Z) :
  2 <= i -> reaches a i p -> reaches (a ++ b) i p.
Proof.
  intros Hi Hr. induction Hr as [i|i j p Hs _ IH]; [constructor|].
  pose proof (skips_forward _ _ _ Hs).
  apply (reaches_next _ i j p); [now apply skips_app | apply IH; lia].
Qed.

(** X9: what the detector has found stays found when bytes are added
    after the end of the input: it reads the segments in order and never looks
    past the one it returns from. *)
Theorem exifOrientationJPEG_stable_under_append (data extra : bytes) (v : Z) :
  len (data ++ extra) < 2 ^ 62 ->
  exifOrientationJPEG 64 data = Done (Some v) ->
  exifOrientationJPEG 64 (data ++ extra) = Done (Some v).
Proof.
  intros Hlen Hfound.
  pose proof (len_nonneg extra) as Hx. rewrite len_app in Hlen.
  destruct (exifOrientationJPEG_on_path data ltac:(lia)) as (r & Hr & Hiff).
  rewrite Hfound in Hr. injection Hr as <-.
  destruct (proj1 (Hiff v) eq_refl) as (Hlong & H0 & H1 & p & Hreach & Hseg).
  destruct (exifOrientationJPEG_on_path (data ++ extra)) as (r' & Hr' & Hiff').
  { rewrite len_app. lia. }
  rewrite Hr'. f_equal. apply Hiff'.
  split; [rewrite len_app; lia|].
  split; [now rewrite byteAt_app by lia|].
  split; [now rewrite byteAt_app by lia|].
  exists p. split; [now apply reaches_app|].
  pose proof Hseg as (Hp & _ & _ & H). cbv zeta in H. destruct H as (H8 & Hfit & _).
  apply exifSegmentAt_app; try assumption; lia.
Qed.

Lemma exifOrientationJPEG_stable_under_append_witness :
  len (jpegWithOrientation 8 ++ bytesOf [0xFF; 0xE1; 0xFF; 0xFF]) < 2 ^ 62 /\
  exifOrientationJPEG 64 (jpegWithOrientation 8) = Done (Some 8) /\
  exifOrientationJPEG 64 (jpegWithOrientation 8 ++ bytesOf [0xFF; 0xE1; 0xFF; 0xFF])
    = Done (Some 8).
Proof.
  assert (H1 : len (jpegWithOrientation 8 ++ bytesOf [0xFF; 0xE1; 0xFF; 0xFF]) < 2 ^ 62)
    by (vm_compute; reflexivity).
  assert (H2 : exifOrientationJPEG 64 (jpegWithOrientation 8) = Done (Some 8))
    by (vm_compute; reflexivity).
  split; [exact H1|]. split; [exact H2|].
  exact (exifOrientationJPEG_stable_under_append (jpegWithOrientation 8)
           (bytesOf [0xFF; 0xE1; 0xFF; 0xFF]) 8 H1 H2).
Defined.

(** ** Hamming distance as a metric *)

Lemma countOnes_le_add (f g h : nat -> bool) (l : list nat) :
  (forall i, In i l -> f i = true -> g i = true \/ h i = true) ->
  countOnes f l <= countOnes g l + countOnes h l.
Proof.
  induction l as [|i l IH]; intros H; cbn [countOnes fold_right]; [lia|].
  fold (countOnes f l) (countOnes g l) (countOnes h l).
  assert (IH' := IH (fun j Hj => H j (or_intror Hj))).
  pose proof (H i (or_introl eq_refl)) as Hi.
  destruct (f i), (g i), (h i); try lia;
    destruct (Hi eq_refl); discriminate.
Qed.

Lemma countOnes_ext (f g : nat -> bool) (l : list nat) :
  (forall i, In i l -> f i = g i) -> countOnes f l = countOnes g l.
Proof.
  induction l as [|i l IH]; intros H; cbn [countOnes fold_right]; [reflexivity|].
  fold (countOnes f l) (countOnes g l).
  rewrite (H i (or_introl eq_refl)), IH; [reflexivity|].
  intros j Hj. apply H. now right.
Qed.

Lemma countOnes_zero_inv (f : nat -> bool) (l : list nat) :
  countOnes f l = 0 -> forall i, In i l -> f i = false.
Proof.
  induction l as [|i l IH]; intros H j Hj; [destruct Hj|].
  cbn [countOnes fold_right] in H. fold (countOnes f l) in H.
  pose proof (countOnes_bounds f l) as Hb.
  destruct Hj as [<-|Hj].
  - destruct (f i); [lia | reflexivity].
  - apply IH; [|exact Hj]. destruct (f i); lia.
Qed.

Lemma uint64_high_bits (a : Z) (n : Z) : 0 <= a < 2 ^ 64 -> 64 <= n -> Z.testbit a n = false.
Proof.
  intros Ha Hn. destruct (Z.eq_dec a 0) as [->|Hz]; [apply Z.bits_0|].
  apply Z.bits_above_log2; [lia|].
  assert (Z.log2 a < 64) by (apply Z.log2_lt_pow2; lia). lia.
Qed.

(** X11: on 64-bit words the distance is a metric: it vanishes only
    between equal words, it obeys the triangle inequality, and xor-ing both
    words with a third leaves it unchanged. *)
Theorem HammingDistance_metric (a b c : Z) :
  0 <= a < 2 ^ 64 -> 0 <= b < 2 ^ 64 ->
  (HammingDistance a b = 0 <-> a = b) /\
  HammingDistance a c <= HammingDistance a b + HammingDistance b c /\
  HammingDistance (Z.lxor a c) (Z.lxor b c) = HammingDistance a b.
Proof.
  intros Ha Hb. unfold HammingDistance, OnesCount64. split; [|split].
  - split.
    + intros H0. apply Z.lxor_eq. apply Z.bits_inj'. intros n Hn.
      rewrite Z.bits_0.
      destruct (Z.lt_ge_cases n 64) as [Hlt|Hge].
      * pose proof (countOnes_zero_inv _ _ H0 (Z.to_nat n)) as H.
        cbv beta in H. rewrite Z2Nat.id in H by lia.
        apply H. apply in_seq. lia.
      * rewrite Z.lxor_spec, (uint64_high_bits a n Ha Hge), (uint64_high_bits b n Hb Hge).
        reflexivity.
    + intros ->. rewrite Z.lxor_nilpotent. apply countOnes_zero.
      intros i _. apply Z.bits_0.
  - apply countOnes_le_add. intros i _. rewrite !Z.lxor_spec.
    destruct (Z.testbit a (Z.of_nat i)), (Z.testbit b (Z.of_nat i)),
      (Z.testbit c (Z.of_nat i)); cbn; intros H; try discriminate; auto.
  - apply countOnes_ext. intros i _. rewrite !Z.lxor_spec.
    destruct (Z.testbit a (Z.of_nat i)), (Z.testbit b (Z.of_nat i)),
      (Z.testbit c (Z.of_nat i)); reflexivity.
Qed.

Lemma HammingDistance_metric_witness :
  0 <= 0xF0 < 2 ^ 64 /\ 0 <= 0x0F < 2 ^ 64 /\
  HammingDistance 0xF0 0x0F = 8 /\
  (HammingDistance 0xF0 0x0F = 0 <-> 0xF0 = 0x0F) /\
  HammingDistance 0xF0 0xFF <= HammingDistance 0xF0 0x0F + HammingDistance 0x0F 0xFF /\
  HammingDistance (Z.lxor 0xF0 0xFF) (Z.lxor 0x0F 0xFF) = HammingDistance 0xF0 0x0F.
Proof.
  split; [lia|]. split; [lia|]. split; [vm_compute; reflexivity|].
  apply (HammingDistance_metric 0xF0 0x0F 0xFF); lia.
Defined.

(** ** The distance between two hashes, cell by cell *)

Lemma filter_map_length {A B : Type} (f : B -> bool) (g : A -> B) (l : list A) :
  length (filter f (map g l)) = length (filter (fun a => f (g a)) l).
Proof.
  induction l as [|a l IH]; cbn [map filter]; [reflexivity|].
  destruct (f (g a)); cbn [length]; now rewrite IH.
Qed.

Lemma filter_rev_length {A : Type} (f : A -> bool) (l : list A) :
  length (filter f (rev l)) = length (filter f l).
Proof.
  induction l as [|a l IH]; cbn [rev filter]; [reflexivity|].
  rewrite filter_app, length_app, IH. cbn [filter].
  destruct (f a); cbn [length]; lia.
Qed.

Lemma filter_ext_length {A : Type} (f g : A -> bool) (l : list A) :
  (forall a, In a l -> f a = g a) -> length (filter f l) = length (filter g l).
Proof.
  induction l as [|a l IH]; intros H; cbn [filter]; [reflexivity|].
  rewrite (H a (or_introl eq_refl)).
  assert (IH' := IH (fun b Hb => H b (or_intror Hb))).
  destruct (g a); cbn [length]; now rewrite IH'.
Qed.

Lemma rowMajor8_In (p : nat * nat) :
  In p rowMajor8 <-> (fst p < 8)%nat /\ (snd p < 8)%nat.
Proof.
  unfold rowMajor8. rewrite in_flat_map. split.
  - intros (y & Hy & Hp). apply in_map_iff in Hp. destruct Hp as (x & <- & Hx).
    apply in_seq in Hy, Hx. cbn [fst snd]. lia.
  - intros [Hy Hx]. exists (fst p). split; [apply in_seq; lia|].
    apply in_map_iff. exists (snd p). split; [now destruct p | apply in_seq; lia].
Qed.

(** Counting the one bits of a word by the positions of the matrix. *)
Lemma OnesCount64_by_cells (h : Z) :
  OnesCount64 h =
  Z.of_nat (length (filter (fun p => hashBit h (fst p) (snd p)) rowMajor8)).
Proof.
  unfold OnesCount64. rewrite countOnes_filter. f_equal.
  change rowMajor8 with (map (fun k => (k / 8, k mod 8)%nat) (seq 0 64)).
  rewrite filter_map_length. cbn [fst snd].
  rewrite <- (filter_rev_length _ (seq 0 64)).
  change (rev (seq 0 64)) with (map (fun k => (63 - k)%nat) (seq 0 64)).
  rewrite filter_map_length. apply filter_ext_length.
  intros k Hk. apply in_seq in Hk. unfold hashBit. f_equal.
  pose proof (Nat.div_mod_eq k 8). lia.
Qed.

Lemma HammingDistance_by_cells (c c' : Coeffs) (med med' : float64) :
  HammingDistance (hashFromCoeffsImageHash c med) (hashFromCoeffsImageHash c' med') =
  Z.of_nat (length (filter (fun p => xorb (above c med p) (above c' med' p)) rowMajor8)).
Proof.
  unfold HammingDistance. rewrite OnesCount64_by_cells. f_equal.
  apply filter_ext_length. intros [y x] Hp. apply rowMajor8_In in Hp.
  cbn [fst snd] in *. unfold hashBit. rewrite Z.lxor_spec.
  fold (hashBit (hashFromCoeffsImageHash c med) y x).
  fold (hashBit (hashFromCoeffsImageHash c' med') y x).
  now rewrite !hashFromCoeffsImageHash_bit by lia.
Qed.

(** A 64-bit word is known by its bits at the 64 positions of the matrix. *)
Lemma hashBit_inj (h h' : Z) :
  0 <= h < 2 ^ 64 -> 0 <= h' < 2 ^ 64 ->
  (forall y x, (y < 8)%nat -> (x < 8)%nat -> hashBit h y x = hashBit h' y x) ->
  h = h'.
Proof.
  intros R R' H.
  apply Z.lxor_eq. apply Z.bits_inj'. intros n Hn. rewrite Z.bits_0, Z.lxor_spec.
  destruct (Z.lt_ge_cases n 64) as [Hlt|Hge].
  - set (k := Z.to_nat (63 - n)).
    replace n with (63 - Z.of_nat (8 * (k / 8) + k mod 8))
      by (rewrite <- Nat.div_mod_eq; unfold k; lia).
    fold (hashBit h (k / 8) (k mod 8)). fold (hashBit h' (k / 8) (k mod 8)).
    assert (k < 64)%nat by (unfold k; lia).
    rewrite H.
    + apply xorb_nilpotent.
    + apply Nat.Div0.div_lt_upper_bound; lia.
    + apply Nat.mod_upper_bound; lia.
  - now rewrite (uint64_high_bits _ n R Hge), (uint64_high_bits _ n R' Hge).
Qed.

(** X12: the distance between two hashes is the number of cells of the
    8x8 matrix at which the two comparisons with the threshold come out
    differently; so two hashes are equal exactly when all 64 comparisons
    agree. *)
Theorem HammingDistance_of_hashes (c c' : Coeffs) (med med' : float64) :
  HammingDistance (hashFromCoeffsImageHash c med) (hashFromCoeffsImageHash c' med') =
    Z.of_nat (length (filter (fun p => xorb (above c med p) (above c' med' p)) rowMajor8)) /\
  (hashFromCoeffsImageHash c med = hashFromCoeffsImageHash c' med' <->
   forall y x, (y < 8)%nat -> (x < 8)%nat -> f64_gt (c y x) med = f64_gt (c' y x) med').
Proof.
  split; [apply HammingDistance_by_cells|]. split.
  - intros E y x Hy Hx.
    rewrite <- (hashFromCoeffsImageHash_bit c med y x Hy Hx).
    rewrite <- (hashFromCoeffsImageHash_bit c' med' y x Hy Hx). now rewrite E.
  - intros H. apply hashBit_inj; try apply hashFromCoeffsImageHash_range.
    intros y x Hy Hx. rewrite !hashFromCoeffsImageHash_bit by assumption. now apply H.
Qed.

(** ** The threshold splits the window *)

Lemma StronglySorted_nth {A : Type} (R : A -> A -> Prop) (l : list A) (d : A) :
  StronglySorted R l ->
  forall i j, (i < j < length l)%nat -> R (nth i l d) (nth j l d).
Proof.
  induction 1 as [|a l Hs IH Ha]; intros i j Hij; cbn [length] in Hij; [lia|].
  destruct j as [|j]; [lia|]. destruct i as [|i]; cbn [nth].
  - rewrite Forall_forall in Ha. apply Ha. apply nth_In. lia.
  - apply IH. lia.
Qed.

Lemma Permutation_filter_length {A : Type} (f : A -> bool) (l l' : list A) :
  Permutation l l' -> length (filter f l) = length (filter f l').
Proof.
  induction 1 as [|a l l' _ IH|a b l|l l' l'' _ IH1 _ IH2]; cbn [filter].
  - reflexivity.
  - destruct (f a); cbn [length]; now rewrite IH.
  - destruct (f a), (f b); reflexivity.
  - now rewrite IH1.
Qed.

Lemma filter_length_le {A : Type} (f : A -> bool) (l : list A) :
  (length (filter f l) <= length l)%nat.
Proof.
  induction l as [|a l IH]; cbn [filter length]; [lia|].
  destruct (f a); cbn [length]; lia.
Qed.

Lemma filter_none {A : Type} (f : A -> bool) (l : list A) :
  (forall a, In a l -> f a = false) -> filter f l = [].
Proof.
  induction l as [|a l IH]; intros H; cbn [filter]; [reflexivity|].
  rewrite (H a (or_introl eq_refl)). apply IH. intros b Hb. apply H. now right.
Qed.

Lemma f64_gt_irrefl (x : float64) : f64_gt x x = false.
Proof.
  unfold f64_gt. rewrite FloatAxioms.ltb_spec. unfold SFltb.
  destruct (Prim2SF x) as [s|s| |s m e]; try destruct s; cbn [SFcompare];
    rewrite ?Z.compare_refl, ?Pos_compare_cont_Eq, ?Pos.compare_refl; reflexivity.
Qed.

Lemma noGreater_not_gt (x y : float64) : f64_noGreater x y -> f64_gt x y = false.
Proof.
  unfold f64_noGreater, Float64Slice_Less, f64_gt. intros H.
  now apply orb_false_iff in H.
Qed.

(** No more than 24 values of the window lie above the threshold. *)
Lemma window_above_median (c : Coeffs) :
  (length (filter (above c (medianImageHash c)) innerCells) <= 24)%nat.
Proof.
  set (med := medianImageHash c).
  assert (Hw : medianWindow c = map (fun p => c (fst p) (snd p)) innerCells) by reflexivity.
  assert (E : length (filter (above c med) innerCells) =
              length (filter (fun v => f64_gt v med) (medianWindow c))).
  { rewrite Hw, filter_map_length. reflexivity. }
  rewrite E, (Permutation_filter_length _ _ _ (Float64s_perm (medianWindow c))).
  pose proof (Float64s_ascending (medianWindow c)) as Hasc.
  pose proof (Float64s_length (medianWindow c)) as Hlen.
  rewrite medianWindow_length in Hlen.
  assert (Hmed : med = nth 24 (Float64s (medianWindow c)) PrimFloat.zero).
  { unfold med, medianImageHash. cbv zeta. now rewrite Hlen. }
  set (s := Float64s (medianWindow c)) in *.
  rewrite <- (firstn_skipn 25 s), filter_app, length_app.
  rewrite (filter_none _ (firstn 25 s)).
  - cbn [length]. etransitivity; [apply filter_length_le|].
    rewrite length_skipn. lia.
  - intros v Hv. apply (In_nth _ _ PrimFloat.zero) in Hv.
    destruct Hv as (i & Hi & <-). rewrite length_firstn in Hi.
    rewrite nth_firstn. replace (i <? 25)%nat with true by (symmetry; apply Nat.ltb_lt; lia).
    destruct (Nat.eq_dec i 24) as [->|Hne].
    + rewrite <- Hmed. apply f64_gt_irrefl.
    + apply noGreater_not_gt. rewrite Hmed.
      apply (StronglySorted_nth f64_noGreater s PrimFloat.zero Hasc). lia.
Qed.

(** The cells outside the window: row 0 and column 0. *)
Lemma rowMajor8_split (f : nat * nat -> bool) :
  (length (filter f rowMajor8) <= length (filter f innerCells) + 15)%nat.
Proof.
  set (n := fun p => if f p then 1%nat else 0%nat).
  assert (Hc : forall l, length (filter f l) = fold_right (fun p k => (n p + k)%nat) 0%nat l).
  { induction l as [|p l IH]; cbn [filter fold_right]; [reflexivity|].
    unfold n at 1. destruct (f p); cbn [length]; lia. }
  assert (Hn : forall p, (n p <= 1)%nat) by (intros p; unfold n; destruct (f p); lia).
  rewrite !Hc. cbn [rowMajor8 innerCells flat_map map seq app fold_right].
  pose proof (Hn (0, 0)%nat). pose proof (Hn (0, 1)%nat). pose proof (Hn (0, 2)%nat).
  pose proof (Hn (0, 3)%nat). pose proof (Hn (0, 4)%nat). pose proof (Hn (0, 5)%nat).
  pose proof (Hn (0, 6)%nat). pose proof (Hn (0, 7)%nat). pose proof (Hn (1, 0)%nat).
  pose proof (Hn (2, 0)%nat). pose proof (Hn (3, 0)%nat). pose proof (Hn (4, 0)%nat).
  pose proof (Hn (5, 0)%nat). pose proof (Hn (6, 0)%nat). pose proof (Hn (7, 0)%nat).
  lia.
Qed.

(** X13: whatever the coefficients are, at most 24 of the 49 cells of
    rows 1 to 7 and columns 1 to 7 get a one bit, so a hash built with the
    median of its own coefficients has at most 39 one bits. *)
Theorem hash_has_few_ones (c : Coeffs) :
  let h := hashFromCoeffsImageHash c (medianImageHash c) in
  (length (filter (fun p => hashBit h (fst p) (snd p)) innerCells) <= 24)%nat /\
  OnesCount64 h <= 39.
Proof.
  intros h.
  assert (Hin : length (filter (fun p => hashBit h (fst p) (snd p)) innerCells) =
                length (filter (above c (medianImageHash c)) innerCells)).
  { apply filter_ext_length. intros [y x] Hp.
    assert (Hr : In (y, x) rowMajor8).
    { apply rowMajor8_In. unfold innerCells in Hp. apply in_flat_map in Hp.
      destruct Hp as (y' & Hy & Hp). apply in_map_iff in Hp.
      destruct Hp as (x' & E & Hx). apply in_seq in Hy, Hx.
      injection E as <- <-. cbn [fst snd]. lia. }
    apply rowMajor8_In in Hr. cbn [fst snd] in *.
    unfold h, above. cbn [fst snd]. apply hashFromCoeffsImageHash_bit; lia. }
  pose proof (window_above_median c) as Hw.
  split; [lia|].
  rewrite OnesCount64_by_cells.
  pose proof (rowMajor8_split (fun p => hashBit h (fst p) (snd p))). lia.
Qed.

(** ** What the threshold does not read *)

Lemma medianWindow_ext (c c' : Coeffs) :
  (forall y x, (1 <= y < 8)%nat -> (1 <= x < 8)%nat -> c y x = c' y x) ->
  medianWindow c = medianWindow c'.
Proof.
  intros H. unfold medianWindow.
  assert (Hf : forall l, (forall y, In y l -> (1 <= y < 8)%nat) ->
            flat_map (fun y => map (fun x => c y x) (seq 1 7)) l =
            flat_map (fun y => map (fun x => c' y x) (seq 1 7)) l).
  { induction l as [|y l IH]; intros Hl; cbn [flat_map]; [reflexivity|].
    rewrite IH by (intros z Hz; apply Hl; now right). f_equal.
    apply map_ext_in. intros x Hx. apply in_seq in Hx.
    apply H; [apply Hl; now left | lia]. }
  apply Hf. intros y Hy. apply in_seq in Hy. lia.
Qed.

(** X14: the threshold is taken from rows 1 to 7 and columns 1 to 7
    only, so two matrices that differ in the DC cell [c[0][0]] alone have the
    same threshold, and their hashes differ in at most one bit. *)
Theorem DC_cell_moves_one_bit (c c' : Coeffs) :
  (forall y x, (y < 8)%nat -> (x < 8)%nat -> (y, x) <> (0, 0)%nat -> c y x = c' y x) ->
  medianImageHash c = medianImageHash c' /\
  HammingDistance (hashFromCoeffsImageHash c (medianImageHash c))
                  (hashFromCoeffsImageHash c' (medianImageHash c')) <= 1.
Proof.
  intros H.
  assert (Hm : medianImageHash c = medianImageHash c').
  { unfold medianImageHash. rewrite (medianWindow_ext c c'); [reflexivity|].
    intros y x Hy Hx. apply H; try lia. intros E. injection E as -> ->. lia. }
  split; [exact Hm|].
  rewrite HammingDistance_by_cells, <- Hm.
  change rowMajor8 with ((0, 0)%nat :: tl rowMajor8). cbn [filter].
  rewrite (filter_none _ (tl rowMajor8)).
  - destruct (xorb _ _); cbn [length]; lia.
  - intros [y x] Hp.
    assert (Hr : In (y, x) rowMajor8) by (change rowMajor8 with ((0, 0)%nat :: tl rowMajor8); now right).
    apply rowMajor8_In in Hr. cbn [fst snd] in Hr.
    assert (Hne : (y, x) <> (0, 0)%nat).
    { intros E. rewrite E in Hp. revert Hp. clear.
      cbn. intros Hp. repeat (destruct Hp as [Hp|Hp]; [discriminate|]). exact Hp. }
    unfold above. cbn [fst snd]. rewrite (H y x) by (try lia; exact Hne).
    apply xorb_nilpotent.
Qed.

Lemma DC_cell_moves_one_bit_witness :
  (forall y x, (y < 8)%nat -> (x < 8)%nat -> (y, x) <> (0, 0)%nat ->
     coeffsFlat y x = PrimFloat.zero) /\
  hashFromCoeffsImageHash coeffsFlat (medianImageHash coeffsFlat) = 2 ^ 63 /\
  hashFromCoeffsImageHash (fun _ _ => PrimFloat.zero)
    (medianImageHash (fun _ _ => PrimFloat.zero)) = 0 /\
  medianImageHash coeffsFlat = medianImageHash (fun _ _ => PrimFloat.zero) /\
  HammingDistance (hashFromCoeffsImageHash coeffsFlat (medianImageHash coeffsFlat))
                  (hashFromCoeffsImageHash (fun _ _ => PrimFloat.zero)
                     (medianImageHash (fun _ _ => PrimFloat.zero))) <= 1.
Proof.
  assert (H : forall y x, (y < 8)%nat -> (x < 8)%nat -> (y, x) <> (0, 0)%nat ->
     coeffsFlat y x = PrimFloat.zero).
  { intros [|y] [|x] _ _ Hne; try reflexivity. now destruct Hne. }
  split; [exact H|]. split; [vm_compute; reflexivity|]. split; [vm_compute; reflexivity|].
  exact (DC_cell_moves_one_bit coeffsFlat (fun _ _ => PrimFloat.zero) H).
Defined.

(** ** NaN *)

Lemma f64_gt_NaN (x y : float64) :
  isNaN x = true \/ isNaN y = true -> f64_gt x y = false.
Proof.
  unfold f64_gt, isNaN. rewrite FloatAxioms.ltb_spec, !FloatAxioms.eqb_spec.
  unfold SFltb, SFeqb.
  destruct (Prim2SF x) as [sx|sx| |sx mx ex], (Prim2SF y) as [sy|sy| |sy my ey];
    try destruct sx; try destruct sy; cbn [SFcompare negb];
    rewrite ?Z.compare_refl, ?Pos_compare_cont_Eq, ?Pos.compare_refl;
    cbn [CompOpp negb]; intros [H|H]; try discriminate; reflexivity.
Qed.

(** X15: a comparison with a NaN is false, so a NaN coefficient leaves
    its bit clear, and a NaN threshold gives the hash 0. *)
Theorem NaN_sets_no_bit (c : Coeffs) (med : float64) (y x : nat) :
  (y < 8)%nat -> (x < 8)%nat ->
  isNaN (c y x) = true \/ isNaN med = true ->
  hashBit (hashFromCoeffsImageHash c med) y x = false /\
  (isNaN med = true -> hashFromCoeffsImageHash c med = 0).
Proof.
  intros Hy Hx Hnan. split.
  - rewrite hashFromCoeffsImageHash_bit by assumption. now apply f64_gt_NaN.
  - intros Hm. apply hashBit_inj; [apply hashFromCoeffsImageHash_range | lia |].
    intros y' x' Hy' Hx'. rewrite hashFromCoeffsImageHash_bit by assumption.
    unfold hashBit. rewrite Z.bits_0. apply f64_gt_NaN. now right.
Qed.

Lemma NaN_sets_no_bit_witness :
  (1 < 8)%nat /\ (2 < 8)%nat /\
  (isNaN (coeffsRamp 1%nat 2%nat) = true \/ isNaN PrimFloat.nan = true) /\
  hashBit (hashFromCoeffsImageHash coeffsRamp PrimFloat.nan) 1%nat 2%nat = false /\
  (isNaN PrimFloat.nan = true -> hashFromCoeffsImageHash coeffsRamp PrimFloat.nan = 0).
Proof.
  assert (H : isNaN (coeffsRamp 1%nat 2%nat) = true \/ isNaN PrimFloat.nan = true)
    by (right; vm_compute; reflexivity).
  split; [lia|]. split; [lia|]. split; [exact H|].
  apply (NaN_sets_no_bit coeffsRamp PrimFloat.nan 1%nat 2%nat); [lia | lia | exact H].
Defined.

(** ** Grayscale *)

Lemma gray_cell_inside (w h x y : Z) :
  0 <= x < w -> 0 <= y < h -> 0 <= y * w + x < w * h.
Proof.
  intros Hx Hy.
  assert (0 <= y * w) by (apply Z.mul_nonneg_nonneg; lia).
  assert (y * w <= (h - 1) * w) by (apply Z.mul_le_mono_nonneg_r; lia).
  lia.
Qed.

Lemma gray_cell_apart (w h x y x' y' : Z) :
  0 <= x < w -> 0 <= y < h -> 0 <= x' < w -> 0 <= y' < h ->
  x <> x' \/ y <> y' -> y * w + x <> y' * w + x'.
Proof.
  intros Hx Hy Hx' Hy' Hne E.
  destruct (Z.lt_total y y') as [Hlt|[->|Hgt]].
  - assert ((y + 1) * w <= y' * w) by (apply Z.mul_le_mono_nonneg_r; lia). lia.
  - lia.
  - assert ((y' + 1) * w <= y * w) by (apply Z.mul_le_mono_nonneg_r; lia). lia.
Qed.

Section GrayLoop.
Variables (w h : Z).
Variable val : Z -> Z -> Z.
Variable write : Z -> Z -> list Z -> Run (list Z).

Hypothesis write_stores : forall x y pix, 0 <= x < w -> 0 <= y < h -> len pix = w * h ->
  write x y pix = Done (spliceAt pix (y * w + x) [val x y]).

Lemma gray_write_step (x y : Z) (pix : list Z) :
  0 <= x < w -> 0 <= y < h -> grayWrittenUpTo w h val y x pix ->
  exists pix', write x y pix = Done pix' /\ grayWrittenUpTo w h val y (x + 1) pix'.
Proof.
  intros Hx Hy [Hlen Hdone].
  exists (spliceAt pix (y * w + x) [val x y]).
  split; [now apply write_stores|].
  pose proof (gray_cell_inside w h x y Hx Hy) as Hin.
  assert (Hl1 : len [val x y] = 1) by reflexivity.
  split; [rewrite spliceAt_len; lia|].
  intros x' y' Hx' Hy' Hbefore.
  pose proof (gray_cell_inside w h x' y' Hx' Hy') as Hin'.
  rewrite nth_spliceAt by lia. rewrite Hl1.
  destruct (Z.eq_dec (y' * w + x') (y * w + x)) as [E|N].
  - rewrite E.
    replace (y * w + x <=? y * w + x) with true by lia.
    replace (y * w + x <? y * w + x + 1) with true by lia.
    cbn [andb]. rewrite Z.sub_diag. cbn [Z.to_nat nth].
    destruct (Z.eq_dec x' x) as [->|Hnx]; [destruct (Z.eq_dec y' y) as [->|Hny]|].
    + reflexivity.
    + exfalso. apply (gray_cell_apart w h x y' x y Hx Hy' Hx Hy); [now right | exact E].
    + exfalso. apply (gray_cell_apart w h x' y' x y Hx' Hy' Hx Hy); [now left | exact E].
  - replace ((y * w + x <=? y' * w + x') && (y' * w + x' <? y * w + x + 1)) with false by lia.
    apply Hdone; [assumption..|].
    destruct Hbefore as [?|[-> Hlt]]; [now left|].
    right. split; [reflexivity|]. assert (x' <> x) by (intros ->; now apply N). lia.
Qed.

Lemma grayLoop_spec (pix0 : list Z) :
  len pix0 = w * h ->
  exists pix,
    forRange (Z.to_nat h) 0
      (fun y pix => forRange (Z.to_nat w) 0 (fun x pix => write x y pix) pix) pix0
    = Done pix /\
    len pix = w * h /\
    forall x y, 0 <= x < w -> 0 <= y < h -> nth (Z.to_nat (y * w + x)) pix 0 = val x y.
Proof.
  intros H0.
  destruct (forRange_inv (fun y pix => grayWrittenUpTo w h val y 0 pix) (Z.to_nat h) 0
              (fun y pix => forRange (Z.to_nat w) 0 (fun x pix => write x y pix) pix) pix0)
    as (pix & Hrun & Hlen & Hall).
  - split; [exact H0|]. intros x' y' Hx' Hy' Hb. lia.
  - intros y pix Hy Hinv.
    destruct (forRange_inv (fun x pix => grayWrittenUpTo w h val y x pix) (Z.to_nat w) 0
                (fun x pix => write x y pix) pix Hinv) as (pix' & Hrun & Hlen & Hall).
    + intros x pix1 Hx Hinv1. apply gray_write_step; [lia | lia | exact Hinv1].
    + exists pix'. split; [exact Hrun|]. split; [exact Hlen|].
      intros x' y' Hx' Hy' Hb. apply Hall; [assumption..|lia].
  - exists pix. split; [exact Hrun|]. split; [exact Hlen|].
    intros x y Hx Hy. apply Hall; [assumption..|lia].
Qed.
End GrayLoop.

Lemma grayModel_range (c : Color) : 0 <= grayModel c < 256.
Proof.
  unfold grayModel. destruct (Color_RGBA c) as [[[r g] b] a].
  unfold to_uint8. apply Z.mod_pos_bound. lia.
Qed.

Lemma canonicalGray_offset (p : PixImage) (w h x y : Z) :
  canonicalGray p w h -> GrayPixOffset p x y = y * w + x.
Proof.
  intros (HR & HS & _). unfold GrayPixOffset. rewrite HR, HS. cbn [MinX MinY]. lia.
Qed.

(** Every cell of a packed buffer is the cell of a pixel. *)
Lemma gray_cell_of_index (w h k : Z) :
  0 <= k < w * h -> 0 <= w -> 0 <= k mod w < w /\ 0 <= k / w < h /\ k = k / w * w + k mod w.
Proof.
  intros Hk Hw.
  assert (0 < w) by (destruct (Z.eq_dec w 0) as [->|]; lia).
  pose proof (Z.mod_pos_bound k w ltac:(lia)).
  pose proof (Z.div_mod k w ltac:(lia)).
  assert (0 <= k / w) by (apply Z.div_pos; lia).
  assert (k / w < h) by (apply Z.div_lt_upper_bound; lia).
  lia.
Qed.

Lemma Grayscale_rendering (img : Image) :
  wfImage img ->
  exists out, Grayscale (Some img) = Done (Some (GrayImage out)) /\ grayRendering img out.
Proof.
  intros Hwf. destruct (wfImage_bounds img Hwf) as [Hbx Hby].
  unfold Grayscale. cbv zeta.
  set (b := Bounds img). set (w := Dx b). set (h := Dy b).
  assert (Hw : 0 <= w) by (unfold w, Dx; fold b in Hbx; lia).
  assert (Hh : 0 <= h) by (unfold h, Dy; fold b in Hby; lia).
  set (dst := NewGray (image_Rect 0 0 w h)).
  assert (Hrect : image_Rect 0 0 w h = mkRectangle 0 0 w h).
  { unfold image_Rect. now rewrite !Z.min_l, !Z.max_r by lia. }
  assert (Hcan : canonicalGray dst w h).
  { unfold dst, NewGray, canonicalGray. rewrite Hrect. unfold Dx, Dy.
    cbn [Rect Stride Pix MinX MinY MaxX MaxY]. rewrite !Z.sub_0_r.
    split; [reflexivity|]. split; [lia|].
    unfold len. rewrite repeat_length. nia. }
  destruct Hcan as (HR & HS & HL).
  unfold draw_Draw_Gray.
  assert (Hdx : Dx (Rect dst) = w) by (rewrite HR; unfold Dx; cbn; lia).
  assert (Hdy : Dy (Rect dst) = h) by (rewrite HR; unfold Dy; cbn; lia).
  rewrite Hdx, Hdy.
  destruct (grayLoop_spec w h
              (fun x y => grayModel (colorAt img (MinX b + x) (MinY b + y)))
              (fun x y pix => c <- At img (MinX b + x) (MinY b + y) ;;
                              store pix (GrayPixOffset dst x y) (grayModel c))
              ) with (pix0 := Pix dst) as (pix & Hrun & Hlen & Hpix).
  - intros x y pix Hx Hy Hl.
    unfold b. rewrite At_colorAt by assumption. cbn [bind].
    rewrite (canonicalGray_offset dst w h x y) by (repeat split; assumption).
    apply store_in_range. pose proof (gray_cell_inside w h x y Hx Hy). lia.
  - exact HL.
  - rewrite Hrun. cbn [bind]. eexists. split; [reflexivity|].
    assert (Hcan' : canonicalGray (withPix dst pix) w h)
      by (repeat split; cbn [withPix Rect Stride Pix]; assumption).
    split; [exact Hcan'|]. split.
    + intros x y Hx Hy. unfold grayAt.
      rewrite (canonicalGray_offset _ w h x y Hcan'). cbn [withPix Pix].
      now apply Hpix.
    + cbn [withPix Pix]. apply Forall_forall. intros v Hv.
      apply (In_nth _ _ 0) in Hv. destruct Hv as (n & Hn & <-).
      assert (Hk : 0 <= Z.of_nat n < w * h) by (unfold len in Hlen; lia).
      destruct (gray_cell_of_index w h (Z.of_nat n) Hk Hw) as (Hx & Hy & E).
      replace n with (Z.to_nat (Z.of_nat n / w * w + Z.of_nat n mod w)) by lia.
      rewrite Hpix by assumption. apply grayModel_range.
Qed.

Lemma spread8_byte (v : Z) : 0 <= v < 256 -> spread8 v = 257 * v.
Proof.
  intros Hv. unfold spread8. rewrite lor_shiftl_add by lia. lia.
Qed.

(** The gray of a gray is itself: the three weights add up to [1 << 16]. *)
Lemma grayModel_ColorGray (Y : Z) : 0 <= Y < 256 -> grayModel (ColorGray Y) = Y.
Proof.
  intros HY. unfold grayModel, ColorGray. cbn [Color_RGBA].
  rewrite spread8_byte by exact HY.
  unfold to_uint32, uint32_mod, to_uint8.
  change (2 ^ 15) with 32768. change (2 ^ 32) with 4294967296.
  rewrite (Z.mod_small _ 4294967296) by lia.
  rewrite Z.shiftr_div_pow2 by lia. change (2 ^ 24) with 16777216.
  replace ((19595 * (257 * Y) + 38470 * (257 * Y) + 7471 * (257 * Y) + 32768) / 16777216)
    with Y.
  - apply Z.mod_small. lia.
  - apply (Z.div_unique _ _ Y (65536 * Y + 32768)); lia.
Qed.

Lemma canonicalGray_wf (p : PixImage) (w h : Z) :
  0 <= w -> 0 <= h -> canonicalGray p w h -> wfImage (GrayImage p).
Proof.
  intros Hw Hh (HR & HS & HL). cbn [wfImage]. unfold wfPix, wfRect, Dx, Dy.
  rewrite HR, HS, HL. cbn [MinX MinY MaxX MaxY]. rewrite !Z.sub_0_r.
  split; [lia|]. intros _ _. split; lia.
Qed.

Lemma canonicalGray_Bounds (p : PixImage) (w h : Z) :
  canonicalGray p w h ->
  Dx (Bounds (GrayImage p)) = w /\ Dy (Bounds (GrayImage p)) = h /\
  MinX (Bounds (GrayImage p)) = 0 /\ MinY (Bounds (GrayImage p)) = 0.
Proof.
  intros (HR & _). cbn [Bounds]. unfold Dx, Dy. rewrite HR. cbn. lia.
Qed.

Lemma canonicalGray_ext (p q : PixImage) (w h : Z) :
  0 <= w -> canonicalGray p w h -> canonicalGray q w h ->
  (forall x y, 0 <= x < w -> 0 <= y < h -> grayAt p x y = grayAt q x y) ->
  p = q.
Proof.
  intros Hw Hp Hq Hpix.
  assert (Hcell : forall x y, 0 <= x < w -> 0 <= y < h ->
            nth (Z.to_nat (y * w + x)) (Pix p) 0 = nth (Z.to_nat (y * w + x)) (Pix q) 0).
  { intros x y Hx Hy. specialize (Hpix x y Hx Hy). unfold grayAt in Hpix.
    now rewrite (canonicalGray_offset p w h x y Hp),
                (canonicalGray_offset q w h x y Hq) in Hpix. }
  destruct Hp as (HRp & HSp & HLp), Hq as (HRq & HSq & HLq).
  destruct p as [pp sp rp], q as [pq sq rq]. cbn [Pix Stride Rect] in *.
  subst sp rp sq rq. f_equal.
  apply (nth_ext _ _ 0 0).
  - unfold len in *. lia.
  - intros n Hn.
    assert (Hk : 0 <= Z.of_nat n < w * h) by (unfold len in *; lia).
    destruct (gray_cell_of_index w h (Z.of_nat n) Hk Hw) as (Hx & Hy & E).
    replace n with (Z.to_nat (Z.of_nat n / w * w + Z.of_nat n mod w)) by lia.
    now apply Hcell.
Qed.

(** X16: on a well-formed image [Grayscale] does not fault and returns
    an [*image.Gray] at the origin, of the size of the source, with packed
    rows, whose pixel [(x, y)] is the gray
    [(19595*r + 38470*g + 7471*b + 1<<15) >> 24] of the source pixel at the
    same distance from the origin of the source. *)
Theorem Grayscale_renders_gray (img : Image) :
  wfImage img ->
  exists out,
    Grayscale (Some img) = Done (Some (GrayImage out)) /\
    canonicalGray out (Dx (Bounds img)) (Dy (Bounds img)) /\
    (forall x y, 0 <= x < Dx (Bounds img) -> 0 <= y < Dy (Bounds img) ->
       grayAt out x y =
       grayModel (colorAt img (MinX (Bounds img) + x) (MinY (Bounds img) + y))) /\
    Forall (fun v => 0 <= v < 256) (Pix out).
Proof.
  intros Hwf.
  destruct (Grayscale_rendering img Hwf) as (out & Hrun & Hcan & Hpix & Hbytes).
  exists out. split; [exact Hrun|]. split; [exact Hcan|]. split; [exact Hpix|].
  exact Hbytes.
Qed.

Lemma Grayscale_again (img : Image) (out : PixImage) :
  wfImage img -> grayRendering img out ->
  Grayscale (Some (GrayImage out)) = Done (Some (GrayImage out)).
Proof.
  intros Hwf (Hcan & Hpix & Hbytes).
  destruct (wfImage_bounds img Hwf) as [Hbx Hby].
  assert (Hw : 0 <= Dx (Bounds img)) by (unfold Dx; lia).
  assert (Hh : 0 <= Dy (Bounds img)) by (unfold Dy; lia).
  pose proof (canonicalGray_wf out _ _ Hw Hh Hcan) as Hwf'.
  destruct (Grayscale_rendering (GrayImage out) Hwf') as (out' & Hrun & Hcan' & Hpix' & _).
  destruct (canonicalGray_Bounds out _ _ Hcan) as (Ex & Ey & E0x & E0y).
  rewrite Ex, Ey in Hcan', Hpix'. rewrite E0x, E0y in Hpix'.
  rewrite Hrun. do 3 f_equal.
  apply (canonicalGray_ext out' out _ _ Hw Hcan' Hcan).
  intros x y Hx Hy. rewrite (Hpix' x y Hx Hy). cbn [colorAt].
  rewrite !Z.add_0_l. fold (grayAt out x y).
  apply grayModel_ColorGray.
  rewrite Forall_forall in Hbytes. apply Hbytes. unfold grayAt.
  apply nth_In. rewrite (canonicalGray_offset out _ _ x y Hcan).
  destruct Hcan as (_ & _ & HL). unfold len in HL.
  pose proof (gray_cell_inside _ _ x y Hx Hy). lia.
Qed.

(** X17: [Grayscale] applied to its own result returns an equal image,
    so [PHash] of an image and [PHash] of its gray rendering are the same. *)
Theorem Grayscale_idempotent (ext : Externals) (img : Image) :
  wfImage img ->
  exists out,
    Grayscale (Some img) = Done (Some (GrayImage out)) /\
    Grayscale (Some (GrayImage out)) = Done (Some (GrayImage out)) /\
    PHash ext (Some (GrayImage out)) = PHash ext (Some img).
Proof.
  intros Hwf. destruct (Grayscale_rendering img Hwf) as (out & Hrun & Hrend).
  pose proof (Grayscale_again img out Hwf Hrend) as Hagain.
  exists out. split; [exact Hrun|]. split; [exact Hagain|].
  unfold PHash. now rewrite Hrun, Hagain.
Qed.

Lemma Grayscale_renders_gray_witness :
  wfImage (RGBAImage rgba3x2) /\
  Grayscale (Some (RGBAImage rgba3x2)) =
    Done (Some (GrayImage (mkPixImage [1; 5; 9; 13; 17; 21] 3 (mkRectangle 0 0 3 2)))) /\
  exists out,
    Grayscale (Some (RGBAImage rgba3x2)) = Done (Some (GrayImage out)) /\
    canonicalGray out (Dx (Bounds (RGBAImage rgba3x2))) (Dy (Bounds (RGBAImage rgba3x2))) /\
    (forall x y, 0 <= x < Dx (Bounds (RGBAImage rgba3x2)) ->
                 0 <= y < Dy (Bounds (RGBAImage rgba3x2)) ->
       grayAt out x y =
       grayModel (colorAt (RGBAImage rgba3x2) (MinX (Bounds (RGBAImage rgba3x2)) + x)
                                              (MinY (Bounds (RGBAImage rgba3x2)) + y))) /\
    Forall (fun v => 0 <= v < 256) (Pix out).
Proof.
  assert (Hwf : wfImage (RGBAImage rgba3x2)).
  { cbn [wfImage]. unfold wfPix, wfRect, Dx, Dy, len. cbn. lia. }
  split; [exact Hwf|]. split; [vm_compute; reflexivity|].
  exact (Grayscale_renders_gray (RGBAImage rgba3x2) Hwf).
Defined.

Lemma Grayscale_idempotent_witness :
  wfImage offsetImage /\
  exists out,
    Grayscale (Some offsetImage) = Done (Some (GrayImage out)) /\
    Grayscale (Some (GrayImage out)) = Done (Some (GrayImage out)) /\
    PHash boxExternals (Some (GrayImage out)) = PHash boxExternals (Some offsetImage).
Proof.
  assert (Hwf : wfImage offsetImage) by (cbn; unfold wfRect; cbn; lia).
  split; [exact Hwf|].
  exact (Grayscale_idempotent boxExternals offsetImage Hwf).
Defined.

(** ** Resize with both targets given *)

Lemma to_uint32_small (z : Z) : 0 <= z < 2 ^ 32 -> to_uint32 z = z.
Proof. intros H. unfold to_uint32, uint32_mod. now apply Z.mod_small. Qed.

Lemma Resize_both_given (ext : Externals) (img : Image) (dstW dstH : Z) :
  0 <= Dx (Bounds img) < 2 ^ 32 -> 0 <= Dy (Bounds img) < 2 ^ 32 ->
  0 < dstW -> 0 < dstH ->
  Resize ext (Some img) dstW dstH =
  if (dstW =? Dx (Bounds img)) && (dstH =? Dy (Bounds img)) then Done (Some img)
  else if (dstW >=? Dx (Bounds img)) && (dstH >=? Dy (Bounds img))
  then Done (Some (RGBAImage (scaleTo (ApproxBiLinear ext) img dstW dstH)))
  else cur <- halve (CatmullRom ext) 64 img (Dx (Bounds img)) (Dy (Bounds img)) dstW dstH ;;
       Done (Some (RGBAImage (scaleTo (CatmullRom ext) cur dstW dstH))).
Proof.
  intros Hsw Hsh HW HH. unfold Resize. cbv zeta.
  rewrite !to_uint32_small by assumption.
  assert (E0 : (dstW =? 0) = false) by lia.
  assert (E1 : (dstH =? 0) = false) by lia.
  rewrite !E0, !E1. cbn [andb orb].
  destruct ((dstW =? Dx (Bounds img)) && (dstH =? Dy (Bounds img))); reflexivity.
Qed.

Lemma Resize_sized (ext : Externals) (img : Image) (dstW dstH : Z) :
  0 <= Dx (Bounds img) < 2 ^ 32 -> 0 <= Dy (Bounds img) < 2 ^ 32 ->
  0 < dstW -> 0 < dstH ->
  exists r,
    Resize ext (Some img) dstW dstH = Done (Some r) /\
    (dstW = Dx (Bounds img) /\ dstH = Dy (Bounds img) /\ r = img \/
     (dstW <> Dx (Bounds img) \/ dstH <> Dy (Bounds img)) /\
     exists out, r = RGBAImage out /\ canonicalRGBA out dstW dstH).
Proof.
  intros Hsw Hsh HW HH. rewrite Resize_both_given by assumption.
  destruct (Z.eqb_spec dstW (Dx (Bounds img))) as [EW|NW]; cbn [andb].
  - destruct (Z.eqb_spec dstH (Dy (Bounds img))) as [EH|NH].
    + exists img. split; [reflexivity|]. left. auto.
    + destruct ((dstW >=? Dx (Bounds img)) && (dstH >=? Dy (Bounds img))).
      * eexists. split; [reflexivity|]. right. split; [now right|].
        eexists. split; [reflexivity|]. apply scaleTo_canonical; lia.
      * destruct (halve_done (CatmullRom ext) 63 img (Dx (Bounds img)) (Dy (Bounds img))
                    dstW dstH) as (cur & Hcur).
        { split; [lia|]. eapply Z.lt_trans; [apply Hsw|]. reflexivity. }
        { lia. }
        rewrite Hcur. cbn [bind]. eexists. split; [reflexivity|]. right.
        split; [now right|]. eexists. split; [reflexivity|].
        apply scaleTo_canonical; lia.
  - destruct ((dstW >=? Dx (Bounds img)) && (dstH >=? Dy (Bounds img))).
    + eexists. split; [reflexivity|]. right. split; [now left|].
      eexists. split; [reflexivity|]. apply scaleTo_canonical; lia.
    + destruct (halve_done (CatmullRom ext) 63 img (Dx (Bounds img)) (Dy (Bounds img))
                  dstW dstH) as (cur & Hcur).
      { split; [lia|]. eapply Z.lt_trans; [apply Hsw|]. reflexivity. }
      { lia. }
      rewrite Hcur. cbn [bind]. eexists. split; [reflexivity|]. right.
      split; [now left|]. eexists. split; [reflexivity|].
      apply scaleTo_canonical; lia.
Qed.

(** X18: with both targets given and not zero, [Resize] returns an
    image of exactly that size: the source itself when it has that size
    already, else a fresh RGBA image at the origin; an upscale is one pass of
    ApproxBiLinear.  Resizing the result to the same size again returns it
    as it is. *)
Theorem Resize_to_given_size (ext : Externals) (img : Image) (dstW dstH : Z) :
  0 <= Dx (Bounds img) < 2 ^ 32 -> 0 <= Dy (Bounds img) < 2 ^ 32 ->
  0 < dstW < 2 ^ 32 -> 0 < dstH < 2 ^ 32 ->
  exists r,
    Resize ext (Some img) dstW dstH = Done (Some r) /\
    Dx (Bounds r) = dstW /\ Dy (Bounds r) = dstH /\
    (dstW = Dx (Bounds img) /\ dstH = Dy (Bounds img) -> r = img) /\
    (dstW <> Dx (Bounds img) \/ dstH <> Dy (Bounds img) ->
     exists out, r = RGBAImage out /\ canonicalRGBA out dstW dstH) /\
    (dstW >= Dx (Bounds img) /\ dstH >= Dy (Bounds img) /\
     (dstW <> Dx (Bounds img) \/ dstH <> Dy (Bounds img)) ->
     r = RGBAImage (scaleTo (ApproxBiLinear ext) img dstW dstH)) /\
    Resize ext (Some r) dstW dstH = Done (Some r).
Proof.
  intros Hsw Hsh HW HH.
  destruct (Resize_sized ext img dstW dstH Hsw Hsh ltac:(lia) ltac:(lia))
    as (r & Hrun & Hcase).
  assert (Hdims : Dx (Bounds r) = dstW /\ Dy (Bounds r) = dstH).
  { destruct Hcase as [(EW & EH & ->)|(_ & out & -> & Hcan)]; [now split|].
    destruct (canonical_Bounds out _ _ Hcan) as (? & ? & _). now split. }
  destruct Hdims as [EW EH].
  exists r. split; [exact Hrun|]. split; [exact EW|]. split; [exact EH|].
  split; [|split; [|split]].
  - intros [HW' HH']. destruct Hcase as [(_ & _ & ->)|([N|N] & _)];
      [reflexivity | contradiction | contradiction].
  - intros Hne. destruct Hcase as [(HW' & HH' & _)|(_ & Hout)]; [|exact Hout].
    destruct Hne; contradiction.
  - intros (GW & GH & Hne).
    rewrite Resize_both_given in Hrun by (assumption || lia).
    replace ((dstW =? Dx (Bounds img)) && (dstH =? Dy (Bounds img))) with false in Hrun by lia.
    replace ((dstW >=? Dx (Bounds img)) && (dstH >=? Dy (Bounds img))) with true in Hrun by lia.
    now injection Hrun as <-.
  - rewrite Resize_both_given by lia. rewrite EW, EH, !Z.eqb_refl. reflexivity.
Qed.

Lemma Resize_to_given_size_witness :
  0 <= Dx (Bounds black5x3) < 2 ^ 32 /\ 0 <= Dy (Bounds black5x3) < 2 ^ 32 /\
  0 < 2 < 2 ^ 32 /\ 0 < 7 < 2 ^ 32 /\
  exists r,
    Resize boxExternals (Some black5x3) 2 7 = Done (Some r) /\
    Dx (Bounds r) = 2 /\ Dy (Bounds r) = 7 /\
    (2 = Dx (Bounds black5x3) /\ 7 = Dy (Bounds black5x3) -> r = black5x3) /\
    (2 <> Dx (Bounds black5x3) \/ 7 <> Dy (Bounds black5x3) ->
     exists out, r = RGBAImage out /\ canonicalRGBA out 2 7) /\
    (2 >= Dx (Bounds black5x3) /\ 7 >= Dy (Bounds black5x3) /\
     (2 <> Dx (Bounds black5x3) \/ 7 <> Dy (Bounds black5x3)) ->
     r = RGBAImage (scaleTo (ApproxBiLinear boxExternals) black5x3 2 7)) /\
    Resize boxExternals (Some r) 2 7 = Done (Some r).
Proof.
  assert (H1 : 0 <= Dx (Bounds black5x3) < 2 ^ 32) by (vm_compute; split; congruence).
  assert (H2 : 0 <= Dy (Bounds black5x3) < 2 ^ 32) by (vm_compute; split; congruence).
  split; [exact H1|]. split; [exact H2|]. split; [lia|]. split; [lia|].
  apply (Resize_to_given_size boxExternals black5x3 2 7 H1 H2); lia.
Defined.

(** ** The halving loop *)

Lemma halve_spec (k : Scaler) (fuel : nat) (cur : Image) (cw ch dstW dstH : Z) :
  0 <= cw < 2 ^ Z.of_nat fuel -> 0 <= ch -> 1 <= dstW -> 1 <= dstH ->
  exists (n : nat) (cur' : Image),
    halve k (S fuel) cur cw ch dstW dstH = Done cur' /\
    (n = O -> cur' = cur) /\
    (n <> O -> exists p, cur' = RGBAImage p /\
                 canonicalRGBA p (cw / 2 ^ Z.of_nat n) (ch / 2 ^ Z.of_nat n)) /\
    (forall m, (0 < m <= n)%nat ->
       dstW <= cw / 2 ^ Z.of_nat m /\ dstH <= ch / 2 ^ Z.of_nat m) /\
    (cw / 2 ^ Z.of_nat (S n) < dstW \/ ch / 2 ^ Z.of_nat (S n) < dstH).
Proof.
  revert cur cw ch. induction fuel as [|fuel IH]; intros cur cw ch Hcw Hch HW HH.
  - change (2 ^ Z.of_nat 0) with 1 in Hcw. assert (cw = 0) as -> by lia.
    exists O, cur. cbn [halve]. change (Z.quot 0 2) with 0.
    replace (0 >=? dstW) with false by lia. cbn [andb].
    split; [reflexivity|]. split; [reflexivity|]. split; [congruence|].
    split; [intros m Hm; lia|]. left. rewrite Z.div_0_l by lia. lia.
  - remember (S fuel) as f eqn:Ef. cbn [halve].
    rewrite !Z.quot_div_nonneg by lia.
    destruct (Z.leb_spec dstW (cw / 2)) as [H1|H1];
      [destruct (Z.leb_spec dstH (ch / 2)) as [H2|H2]|].
    + replace ((cw / 2 >=? dstW) && (ch / 2 >=? dstH)) with true by lia.
      subst f.
      destruct (IH (RGBAImage (scaleTo k cur (cw / 2) (ch / 2))) (cw / 2) (ch / 2))
        as (n & cur' & Hrun & H0 & Hpos & Hall & Hstop); try lia.
      { rewrite Nat2Z.inj_succ, Z.pow_succ_r in Hcw by lia.
        split; [apply Z.div_pos; lia | apply Z.div_lt_upper_bound; lia]. }
      assert (Hdiv : forall z m, 0 <= m -> z / 2 / 2 ^ m = z / 2 ^ (Z.succ m)).
      { intros z m Hm. rewrite Z.pow_succ_r by lia. rewrite Z.div_div by lia.
        reflexivity. }
      exists (S n), cur'. split; [exact Hrun|]. split; [discriminate|]. split; [|split].
      * intros _. rewrite !Nat2Z.inj_succ, <- !Hdiv by lia.
        destruct n as [|n].
        -- rewrite (H0 eq_refl). eexists. split; [reflexivity|].
           change (2 ^ Z.of_nat 0) with 1. rewrite !Z.div_1_r.
           apply scaleTo_canonical; lia.
        -- apply Hpos. discriminate.
      * intros m Hm. destruct m as [|m]; [lia|].
        rewrite Nat2Z.inj_succ, <- !Hdiv by lia.
        destruct m as [|m].
        -- change (2 ^ Z.of_nat 0) with 1. rewrite !Z.div_1_r. lia.
        -- apply Hall. lia.
      * rewrite (Nat2Z.inj_succ (S n)), <- !Hdiv by lia. exact Hstop.
    + replace ((cw / 2 >=? dstW) && (ch / 2 >=? dstH)) with false by lia.
      exists O, cur. split; [reflexivity|]. split; [reflexivity|]. split; [congruence|].
      split; [intros m Hm; lia|]. right. change (2 ^ Z.of_nat 1) with 2. lia.
    + replace ((cw / 2 >=? dstW) && (ch / 2 >=? dstH)) with false by lia.
      exists O, cur. split; [reflexivity|]. split; [reflexivity|]. split; [congruence|].
      split; [intros m Hm; lia|]. left. change (2 ^ Z.of_nat 1) with 2. lia.
Qed.

(** X19: the halving loop of the downscale ends, and never goes below
    the target: after its [n] passes the image has the source size divided by
    [2^n], both sides still at least the target, and one more halving would
    take a side below it.  With no pass the image is the source itself. *)
Theorem halve_stays_above_target (k : Scaler) (cur : Image) (cw ch dstW dstH : Z) :
  0 <= cw < 2 ^ 32 -> 0 <= ch -> 1 <= dstW -> 1 <= dstH ->
  exists (n : nat) (cur' : Image),
    halve k 64 cur cw ch dstW dstH = Done cur' /\
    (n = O -> cur' = cur) /\
    (n <> O -> exists p, cur' = RGBAImage p /\
                 canonicalRGBA p (cw / 2 ^ Z.of_nat n) (ch / 2 ^ Z.of_nat n)) /\
    (forall m, (0 < m <= n)%nat ->
       dstW <= cw / 2 ^ Z.of_nat m /\ dstH <= ch / 2 ^ Z.of_nat m) /\
    (cw / 2 ^ Z.of_nat (S n) < dstW \/ ch / 2 ^ Z.of_nat (S n) < dstH).
Proof.
  intros Hcw Hch HW HH. apply (halve_spec k 63); try assumption.
  split; [lia|]. eapply Z.lt_trans; [apply Hcw|]. reflexivity.
Qed.

Lemma halve_stays_above_target_witness :
  0 <= 11 < 2 ^ 32 /\ 0 <= 22 /\ 1 <= 2 /\ 1 <= 5 /\
  (exists p, halve boxScaler 64 black11x22 11 22 2 5 = Done (RGBAImage p) /\
             Rect p = mkRectangle 0 0 2 5) /\
  exists (n : nat) (cur' : Image),
    halve boxScaler 64 black11x22 11 22 2 5 = Done cur' /\
    (n = O -> cur' = black11x22) /\
    (n <> O -> exists p, cur' = RGBAImage p /\
                 canonicalRGBA p (11 / 2 ^ Z.of_nat n) (22 / 2 ^ Z.of_nat n)) /\
    (forall m, (0 < m <= n)%nat ->
       2 <= 11 / 2 ^ Z.of_nat m /\ 5 <= 22 / 2 ^ Z.of_nat m) /\
    (11 / 2 ^ Z.of_nat (S n) < 2 \/ 22 / 2 ^ Z.of_nat (S n) < 5).
Proof.
  split; [lia|]. split; [lia|]. split; [lia|]. split; [lia|].
  split; [eexists; split; vm_compute; reflexivity|].
  apply (halve_stays_above_target boxScaler black11x22 11 22 2 5); lia.
Defined.

(** ** From the image to the hash *)

Lemma forRange_collect {A : Type} (body : Z -> list A -> Run (list A)) (g : Z -> A)
      (n : nat) (i0 : Z) (acc : list A) :
  (forall i acc, i0 <= i < i0 + Z.of_nat n -> body i acc = Done (acc ++ [g i])) ->
  forRange n i0 body acc =
  Done (acc ++ map (fun k => g (i0 + Z.of_nat k)) (seq 0 n)).
Proof.
  revert i0 acc. induction n as [|n IH]; intros i0 acc H; cbn [forRange seq map].
  - now rewrite app_nil_r.
  - rewrite H by lia. cbn [bind]. rewrite IH by (intros; apply H; lia).
    rewrite <- app_assoc. cbn [app]. rewrite Z.add_0_r. do 3 f_equal.
    rewrite <- seq_shift, map_map. apply map_ext. intros k. f_equal. lia.
Qed.

Lemma gray32x32_grid (img : Image) :
  wfImage img -> 32 <= Dx (Bounds img) -> 32 <= Dy (Bounds img) ->
  gray32x32 (Some img) = Done (grayGrid img).
Proof.
  intros Hwf Hw Hh. unfold gray32x32. cbv zeta.
  rewrite (forRange_collect _
             (fun y => map (fun x => f64_of_int (redByte
                (colorAt img (MinX (Bounds img) + x) (MinY (Bounds img) + y)))) (zseq 32))).
  - cbn [app]. unfold grayGrid, zseq. rewrite map_map. reflexivity.
  - intros y rows Hy.
    rewrite (forRange_collect _
               (fun x => f64_of_int (redByte
                  (colorAt img (MinX (Bounds img) + x) (MinY (Bounds img) + y))))).
    + cbn [bind app]. unfold zseq. rewrite map_map. reflexivity.
    + intros x row Hx. rewrite At_colorAt by (assumption || lia). cbn [bind].
      unfold redByte.
      destruct (Color_RGBA (colorAt img (MinX (Bounds img) + x) (MinY (Bounds img) + y)))
        as [[[r g] b] a]. reflexivity.
Qed.

(** X20: on a well-formed image narrower and lower than [2^32] pixels
    [PHash] does not fault: it returns a 64-bit hash, computed from the grid
    that [gray32x32] reads off the resized gray image.  For an image of 32x32
    pixels no scaler is called, so the hash depends on the cosine table
    only. *)
Theorem PHash_returns_a_hash (ext : Externals) (img : Image) :
  wfImage img -> Dx (Bounds img) < 2 ^ 32 -> Dy (Bounds img) < 2 ^ 32 ->
  exists (r : Image) (h : Z),
    (gray <- Grayscale (Some img) ;; Resize ext gray 32 32) = Done (Some r) /\
    Dx (Bounds r) = 32 /\ Dy (Bounds r) = 32 /\
    PHash ext (Some img) = Done h /\
    h = hashFromCoeffsImageHash (dctTopLeft8x8 ext (grayGrid r))
          (medianImageHash (dctTopLeft8x8 ext (grayGrid r))) /\
    0 <= h < 2 ^ 64 /\
    (Dx (Bounds img) = 32 -> Dy (Bounds img) = 32 ->
     forall k1 k2 u,
       PHash (mkExternals (cos32 ext) k1 k2 u) (Some img) = Done h).
Proof.
  intros Hwf Hw Hh.
  destruct (wfImage_dims img Hwf) as [Hw0 Hh0].
  destruct (Grayscale_rendering img Hwf) as (g & Hgray & Hcan & Hpix & Hbytes).
  destruct (canonicalGray_Bounds g _ _ Hcan) as (Egx & Egy & _ & _).
  pose proof (canonicalGray_wf g _ _ Hw0 Hh0 Hcan) as Hgwf.
  assert (Hsized : forall ext', exists r,
            Resize ext' (Some (GrayImage g)) 32 32 = Done (Some r) /\
            wfImage r /\ Dx (Bounds r) = 32 /\ Dy (Bounds r) = 32 /\
            (Dx (Bounds img) = 32 -> Dy (Bounds img) = 32 -> r = GrayImage g)).
  { intros ext'.
    destruct (Resize_sized ext' (GrayImage g) 32 32) as (r & Hrun & Hcase); try lia.
    exists r. split; [exact Hrun|].
    destruct Hcase as [(EW & EH & ->)|(Hne & out & -> & Hout)].
    - split; [exact Hgwf|]. split; [now symmetry|]. split; [now symmetry|]. reflexivity.
    - split; [apply (canonical_wf out 32 32); [lia | lia | exact Hout]|].
      destruct (canonical_Bounds out _ _ Hout) as (? & ? & _).
      split; [assumption|]. split; [assumption|]. intros. lia. }
  assert (Hhash : forall ext' r,
            Resize ext' (Some (GrayImage g)) 32 32 = Done (Some r) ->
            wfImage r -> Dx (Bounds r) = 32 -> Dy (Bounds r) = 32 ->
            PHash ext' (Some img) =
            Done (hashFromCoeffsImageHash (dctTopLeft8x8 ext' (grayGrid r))
                    (medianImageHash (dctTopLeft8x8 ext' (grayGrid r))))).
  { intros ext' r Hrun Hrwf Erx Ery. unfold PHash. rewrite Hgray. cbn [bind].
    rewrite Hrun. cbn [bind]. rewrite gray32x32_grid by (assumption || lia).
    reflexivity. }
  destruct (Hsized ext) as (r & Hrun & Hrwf & Erx & Ery & Hsame).
  exists r. eexists. split; [rewrite Hgray; exact Hrun|].
  split; [exact Erx|]. split; [exact Ery|].
  split; [exact (Hhash ext r Hrun Hrwf Erx Ery)|]. split; [reflexivity|].
  split; [apply hashFromCoeffsImageHash_range|].
  intros E1 E2 k1 k2 u.
  destruct (Hsized (mkExternals (cos32 ext) k1 k2 u)) as (r' & Hrun' & Hrwf' & Erx' & Ery' & Hsame').
  rewrite (Hhash _ r' Hrun' Hrwf' Erx' Ery').
  rewrite (Hsame' E1 E2), (Hsame E1 E2). reflexivity.
Qed.

Lemma PHash_returns_a_hash_witness :
  wfImage black5x3 /\ Dx (Bounds black5x3) < 2 ^ 32 /\ Dy (Bounds black5x3) < 2 ^ 32 /\
  exists (r : Image) (h : Z),
    (gray <- Grayscale (Some black5x3) ;; Resize boxExternals gray 32 32) = Done (Some r) /\
    Dx (Bounds r) = 32 /\ Dy (Bounds r) = 32 /\
    PHash boxExternals (Some black5x3) = Done h /\
    h = hashFromCoeffsImageHash (dctTopLeft8x8 boxExternals (grayGrid r))
          (medianImageHash (dctTopLeft8x8 boxExternals (grayGrid r))) /\
    0 <= h < 2 ^ 64 /\
    (Dx (Bounds black5x3) = 32 -> Dy (Bounds black5x3) = 32 ->
     forall k1 k2 u,
       PHash (mkExternals (cos32 boxExternals) k1 k2 u) (Some black5x3) = Done h).
Proof.
  assert (Hwf : wfImage black5x3).
  { unfold black5x3, rgbaOf. cbn [wfImage]. unfold wfPix, wfRect, Dx, Dy, len.
    cbn [Rect Stride Pix MinX MinY MaxX MaxY]. split; [lia|]. intros _ _.
    split; [lia|]. vm_compute. discriminate. }
  split; [exact Hwf|].
  split; [vm_compute; reflexivity|]. split; [vm_compute; reflexivity|].
  apply (PHash_returns_a_hash boxExternals black5x3 Hwf); vm_compute; reflexivity.
Defined.

(** ** DownscaleByLargestSide *)

Lemma DownscaleByLargestSide_unfold (ext : Externals) (img : Image) (maxSide : Z) :
  0 <= Dx (Bounds img) < 2 ^ 32 -> 0 <= Dy (Bounds img) < 2 ^ 32 ->
  let w := Dx (Bounds img) in
  let h := Dy (Bounds img) in
  DownscaleByLargestSide ext (Some img) maxSide =
  if (maxSide =? 0) || (w =? 0) || (h =? 0) || (Z.max w h <=? maxSide)
  then Done (Some img)
  else Resize ext (Some img)
         (Z.max 1 (scaledSide ext w maxSide (Z.max w h)))
         (Z.max 1 (scaledSide ext h maxSide (Z.max w h))).
Proof.
  intros Hw Hh w h. unfold DownscaleByLargestSide. cbv zeta.
  rewrite !to_uint32_small by assumption. fold w h.
  destruct (Z.eqb_spec maxSide 0) as [E|E]; cbn [orb]; [reflexivity|].
  destruct (Z.eqb_spec w 0) as [Ew|Ew]; cbn [orb]; [reflexivity|].
  destruct (Z.eqb_spec h 0) as [Eh|Eh]; cbn [orb]; [reflexivity|].
  assert (El : (if h >? w then h else w) = Z.max w h).
  { rewrite Z.gtb_ltb. destruct (Z.ltb_spec w h); lia. }
  rewrite El.
  destruct (Z.max w h <=? maxSide); [reflexivity|].
  fold (scaledSide ext w maxSide (Z.max w h)).
  fold (scaledSide ext h maxSide (Z.max w h)).
  assert (Hmax : forall v, 0 <= v -> (if v =? 0 then 1 else v) = Z.max 1 v).
  { intros v Hv. destruct (Z.eqb_spec v 0); lia. }
  rewrite !Hmax by apply uint32_of_f64_range. reflexivity.
Qed.

(** X21: [DownscaleByLargestSide] hands back the source itself when
    there is nothing to do: for a [maxSide] of 0, for an empty image, and
    when no side is longer than [maxSide].  Otherwise it calls [Resize] with
    two targets that are never 0, so the aspect-ratio rule of [Resize] does
    not come into play and the result has exactly the size asked for. *)
Theorem DownscaleByLargestSide_cases (ext : Externals) (img : Image) (maxSide : Z) :
  0 <= Dx (Bounds img) < 2 ^ 32 -> 0 <= Dy (Bounds img) < 2 ^ 32 ->
  0 <= maxSide < 2 ^ 32 ->
  let w := Dx (Bounds img) in
  let h := Dy (Bounds img) in
  DownscaleByLargestSide ext None maxSide = Done None /\
  (maxSide = 0 \/ w = 0 \/ h = 0 \/ (w <= maxSide /\ h <= maxSide) ->
   DownscaleByLargestSide ext (Some img) maxSide = Done (Some img)) /\
  (0 < maxSide -> 0 < w -> 0 < h -> maxSide < w \/ maxSide < h ->
   exists newW newH r,
     1 <= newW < 2 ^ 32 /\ 1 <= newH < 2 ^ 32 /\
     newW = Z.max 1 (scaledSide ext w maxSide (Z.max w h)) /\
     newH = Z.max 1 (scaledSide ext h maxSide (Z.max w h)) /\
     DownscaleByLargestSide ext (Some img) maxSide = Resize ext (Some img) newW newH /\
     Resize ext (Some img) newW newH = Done (Some r) /\
     Dx (Bounds r) = newW /\ Dy (Bounds r) = newH).
Proof.
  intros Hw Hh Hm w h. split; [reflexivity|]. split.
  - intros Hcase. rewrite DownscaleByLargestSide_unfold by assumption. fold w h.
    replace ((maxSide =? 0) || (w =? 0) || (h =? 0) || (Z.max w h <=? maxSide))
      with true by lia.
    reflexivity.
  - intros Hm0 Hw0 Hh0 Hbig.
    rewrite DownscaleByLargestSide_unfold by assumption. fold w h.
    replace ((maxSide =? 0) || (w =? 0) || (h =? 0) || (Z.max w h <=? maxSide))
      with false by lia.
    pose proof (uint32_of_f64_range (unrepresentable ext)
      (math_Round (f64_of_int w * (f64_of_int maxSide / f64_of_int (Z.max w h)))%float)) as R1.
    pose proof (uint32_of_f64_range (unrepresentable ext)
      (math_Round (f64_of_int h * (f64_of_int maxSide / f64_of_int (Z.max w h)))%float)) as R2.
    fold (scaledSide ext w maxSide (Z.max w h)) in R1.
    fold (scaledSide ext h maxSide (Z.max w h)) in R2.
    set (newW := Z.max 1 (scaledSide ext w maxSide (Z.max w h))).
    set (newH := Z.max 1 (scaledSide ext h maxSide (Z.max w h))).
    destruct (Resize_sized ext img newW newH Hw Hh) as (r & Hrun & Hcase);
      [unfold newW; lia | unfold newH; lia |].
    exists newW, newH, r.
    split; [unfold newW; lia|]. split; [unfold newH; lia|].
    split; [reflexivity|]. split; [reflexivity|]. split; [reflexivity|].
    split; [exact Hrun|].
    destruct Hcase as [(EW & EH & ->)|(_ & out & -> & Hcan)].
    + split; symmetry; assumption.
    + destruct (canonical_Bounds out _ _ Hcan) as (? & ? & _). now split.
Qed.

Lemma DownscaleByLargestSide_cases_witness :
  0 <= Dx (Bounds black11x22) < 2 ^ 32 /\ 0 <= Dy (Bounds black11x22) < 2 ^ 32 /\
  0 <= 15 < 2 ^ 32 /\
  (exists out, DownscaleByLargestSide boxExternals (Some black11x22) 15
               = Done (Some (RGBAImage out)) /\ Rect out = mkRectangle 0 0 7 15) /\
  DownscaleByLargestSide boxExternals None 15 = Done None /\
  (15 = 0 \/ Dx (Bounds black11x22) = 0 \/ Dy (Bounds black11x22) = 0 \/
   (Dx (Bounds black11x22) <= 15 /\ Dy (Bounds black11x22) <= 15) ->
   DownscaleByLargestSide boxExternals (Some black11x22) 15 = Done (Some black11x22)) /\
  (0 < 15 -> 0 < Dx (Bounds black11x22) -> 0 < Dy (Bounds black11x22) ->
   15 < Dx (Bounds black11x22) \/ 15 < Dy (Bounds black11x22) ->
   exists newW newH r,
     1 <= newW < 2 ^ 32 /\ 1 <= newH < 2 ^ 32 /\
     newW = Z.max 1 (scaledSide boxExternals (Dx (Bounds black11x22)) 15
                       (Z.max (Dx (Bounds black11x22)) (Dy (Bounds black11x22)))) /\
     newH = Z.max 1 (scaledSide boxExternals (Dy (Bounds black11x22)) 15
                       (Z.max (Dx (Bounds black11x22)) (Dy (Bounds black11x22)))) /\
     DownscaleByLargestSide boxExternals (Some black11x22) 15
       = Resize boxExternals (Some black11x22) newW newH /\
     Resize boxExternals (Some black11x22) newW newH = Done (Some r) /\
     Dx (Bounds r) = newW /\ Dy (Bounds r) = newH).
Proof.
  assert (H1 : 0 <= Dx (Bounds black11x22) < 2 ^ 32) by (vm_compute; split; congruence).
  assert (H2 : 0 <= Dy (Bounds black11x22) < 2 ^ 32) by (vm_compute; split; congruence).
  split; [exact H1|]. split; [exact H2|]. split; [lia|].
  split; [eexists; split; vm_compute; reflexivity|].
  apply (DownscaleByLargestSide_cases boxExternals black11x22 15 H1 H2). lia.
Defined.

Lemma scaledSidesFitUpTo_sound (ext : Externals) (n : nat) :
  scaledSidesFitUpTo ext n = true ->
  forall orig maxSide largest,
    1 <= orig <= largest -> 1 <= maxSide < largest -> largest <= Z.of_nat n ->
    scaledSide ext orig maxSide largest <= maxSide /\
    (orig = largest -> scaledSide ext orig maxSide largest = maxSide) /\
    nearestScaled orig maxSide largest (scaledSide ext orig maxSide largest).
Proof.
  unfold scaledSidesFitUpTo. intros H orig maxSide largest Ho Hm Hl.
  rewrite forallb_forall in H.
  specialize (H largest (proj2 (In_upTo n largest) ltac:(lia))).
  rewrite forallb_forall in H.
  specialize (H maxSide (proj2 (In_upTo n maxSide) ltac:(lia))).
  rewrite forallb_forall in H.
  specialize (H orig (proj2 (In_upTo n orig) ltac:(lia))).
  cbv zeta in H.
  replace ((maxSide <? largest) && (orig <=? largest)) with true in H by lia.
  unfold nearestScaled.
  set (v := scaledSide ext orig maxSide largest) in *.
  apply andb_prop in H. destruct H as [H H4].
  apply andb_prop in H. destruct H as [H H3].
  apply andb_prop in H. destruct H as [H1 H2].
  split; [lia|]. split; [|lia].
  intros ->. rewrite Z.eqb_refl in H2. cbn [negb orb] in H2. lia.
Qed.

Lemma scaledSides_fit (ext : Externals) (orig maxSide largest : Z) :
  1 <= orig <= largest -> 1 <= maxSide < largest -> largest <= 32 ->
  scaledSide ext orig maxSide largest <= maxSide /\
  (orig = largest -> scaledSide ext orig maxSide largest = maxSide) /\
  nearestScaled orig maxSide largest (scaledSide ext orig maxSide largest).
Proof.
  apply (scaledSidesFitUpTo_sound ext 32).
  destruct ext as [c k1 k2 u]. vm_compute. reflexivity.
Qed.

(** X22: for sources of up to 32 by 32 pixels and a [maxSide] below
    their largest side, the result fits: its larger side is exactly
    [maxSide], the other side is an integer nearest to the scaled length,
    lifted to 1 where that is 0.  (At an exact half the float64 product may
    fall to either side: 11x22 with [maxSide] 15 gives 7x15.) *)
Theorem DownscaleByLargestSide_fits (ext : Externals) (img : Image) (maxSide : Z) :
  let w := Dx (Bounds img) in
  let h := Dy (Bounds img) in
  1 <= w <= 32 -> 1 <= h <= 32 -> 1 <= maxSide < Z.max w h ->
  exists r,
    DownscaleByLargestSide ext (Some img) maxSide = Done (Some r) /\
    1 <= Dx (Bounds r) <= maxSide /\ 1 <= Dy (Bounds r) <= maxSide /\
    Z.max (Dx (Bounds r)) (Dy (Bounds r)) = maxSide /\
    (exists v, nearestScaled w maxSide (Z.max w h) v /\ Dx (Bounds r) = Z.max 1 v) /\
    (exists v, nearestScaled h maxSide (Z.max w h) v /\ Dy (Bounds r) = Z.max 1 v).
Proof.
  intros w h Hw Hh Hm.
  assert (Hw32 : 0 <= Dx (Bounds img) < 2 ^ 32) by (fold w; lia).
  assert (Hh32 : 0 <= Dy (Bounds img) < 2 ^ 32) by (fold h; lia).
  rewrite DownscaleByLargestSide_unfold by assumption. fold w h.
  replace ((maxSide =? 0) || (w =? 0) || (h =? 0) || (Z.max w h <=? maxSide))
    with false by lia.
  destruct (scaledSides_fit ext w maxSide (Z.max w h)) as (Wle & Weq & Wnear); try lia.
  destruct (scaledSides_fit ext h maxSide (Z.max w h)) as (Hle & Heq & Hnear); try lia.
  pose proof (uint32_of_f64_range (unrepresentable ext)
    (math_Round (f64_of_int w * (f64_of_int maxSide / f64_of_int (Z.max w h)))%float)) as R1.
  pose proof (uint32_of_f64_range (unrepresentable ext)
    (math_Round (f64_of_int h * (f64_of_int maxSide / f64_of_int (Z.max w h)))%float)) as R2.
  fold (scaledSide ext w maxSide (Z.max w h)) in R1.
  fold (scaledSide ext h maxSide (Z.max w h)) in R2.
  set (vw := scaledSide ext w maxSide (Z.max w h)) in *.
  set (vh := scaledSide ext h maxSide (Z.max w h)) in *.
  destruct (Resize_sized ext img (Z.max 1 vw) (Z.max 1 vh) Hw32 Hh32) as (r & Hrun & Hcase);
    [lia | lia |].
  assert (Hdims : Dx (Bounds r) = Z.max 1 vw /\ Dy (Bounds r) = Z.max 1 vh).
  { destruct Hcase as [(EW & EH & ->)|(_ & out & -> & Hcan)].
    - split; symmetry; assumption.
    - destruct (canonical_Bounds out _ _ Hcan) as (? & ? & _). now split. }
  destruct Hdims as [EW EH].
  exists r. split; [exact Hrun|]. rewrite EW, EH.
  split; [lia|]. split; [lia|]. split.
  - destruct (Z.max_spec w h) as [[_ E]|[_ E]].
    + specialize (Heq (eq_sym E)). lia.
    + specialize (Weq (eq_sym E)). lia.
  - split; [exists vw | exists vh]; split; (assumption || reflexivity).
Qed.

Lemma DownscaleByLargestSide_fits_witness :
  1 <= Dx (Bounds black11x22) <= 32 /\ 1 <= Dy (Bounds black11x22) <= 32 /\
  1 <= 15 < Z.max (Dx (Bounds black11x22)) (Dy (Bounds black11x22)) /\
  exists r,
    DownscaleByLargestSide boxExternals (Some black11x22) 15 = Done (Some r) /\
    1 <= Dx (Bounds r) <= 15 /\ 1 <= Dy (Bounds r) <= 15 /\
    Z.max (Dx (Bounds r)) (Dy (Bounds r)) = 15 /\
    (exists v, nearestScaled (Dx (Bounds black11x22)) 15
                 (Z.max (Dx (Bounds black11x22)) (Dy (Bounds black11x22))) v /\
               Dx (Bounds r) = Z.max 1 v) /\
    (exists v, nearestScaled (Dy (Bounds black11x22)) 15
                 (Z.max (Dx (Bounds black11x22)) (Dy (Bounds black11x22))) v /\
               Dy (Bounds r) = Z.max 1 v).
Proof.
  split; [vm_compute; split; congruence|].
  split; [vm_compute; split; congruence|].
  split; [vm_compute; split; congruence|].
  apply (DownscaleByLargestSide_fits boxExternals black11x22 15);
    vm_compute; split; congruence.
Defined.
